(** * QUESO Metropolis-Hastings sequence generator (DRAM)

    A shallow embedding of [MetropolisHastingsSG<P_V,P_M>] : the two
    acceptance-ratio overloads [alpha], [acceptAlpha], [updateAdaptedCovMatrix]
    and the driver [generateFullChain].

    Conventions of the embedding.
    - [double] is the kernel's IEEE-754 binary64 ([PrimFloat.float]);
      [std::min], comparisons with [INFINITY] and [isnan] are the IEEE ones.
      [std::exp] is a member of the class [LibM].
    - The template parameters [P_V], [P_M], the target pdf, the transition
      kernel, the random number generator and the environment are classes of
      operations; the sampler's code is written once over them.
    - Stage ids, position ids, vector sizes and option values are
      [unsigned int] in the source.  Every arithmetic step the sampler makes
      on them is guarded (a loop bound or an enclosing test) so that it cannot
      wrap; they are modelled in [nat].  The five run-info counters are
      incremented without a guard and carry their 32-bit wrap-around.
    - Timers, display-file traces, file output and the optional
      [m_logTargets] / [m_alphaQuotients] / [m_idsOfUniquePositions] vectors
      are not part of the embedding.  The warnings written to [std::cerr] by
      the two [alpha] overloads are. *)

From Stdlib Require Import ZArith NArith Lia Bool PrimFloat Uint63.
From Stdlib Require FloatAxioms String.
From stdpp Require Import base list gmap option.


(** ** IEEE doubles *)

Definition double : Type := float.

Module Dbl.
Definition zero : double := 0%float.
Definition one : double := 1%float.
Definition minus_half : double := (-0.5)%float.

  (** [std::min(a,b)] is [(b < a) ? b : a]. *)
Definition std_min (a b : double) : double :=
    if PrimFloat.ltb b a then b else a.

  (** The test [(t == -INFINITY) || (t == INFINITY) || isnan(t)] that guards
      both [alpha] overloads. *)
Definition inf_or_nan (t : double) : bool :=
    PrimFloat.eqb t neg_infinity || PrimFloat.eqb t infinity || PrimFloat.is_nan t.

  (** The conversion [(double) n] of an unsigned int. *)
Definition of_nat (n : nat) : double :=
    PrimFloat.of_uint63 (Uint63.of_Z (Z.of_nat n)).
End Dbl.

(** [std::exp]. *)
Class LibM := { std_exp : double -> double }.

(** Whether [QUESO_EXPECTS_LN_LIKELIHOOD_INSTEAD_OF_MINUS_2_LN] is defined. *)
Class BuildConfig := { expects_ln_likelihood : bool }.

(** ** Errors and diagnostics *)

(** The [UQ_FATAL_TEST_MACRO] sites of the sampler, named after the spec's
    error kinds where it has one; the comment gives the source's message. *)
Inductive FatalError : Type :=
| InvalidInitialPoint        (* "initial position should not be out of target pdf support" *)
| InvalidPreComputingPosition (* "initial position should not be an invalid pre computing position" *)
| AlphaInputTooShort         (* "inputPositionsData has size < 2" *)
| InvalidCholRC1             (* "invalid iRC returned from first chol()" *)
| InvalidCholRC2             (* "invalid iRC returned from second chol()" *)
| PartialChainTooShort       (* "'partialChain.subSequenceSize()' should be >= 2" / ">= 1" *)
| FirstPositionIdTooSmall    (* "'idOfFirstPositionInSubChain' should be >= 1" *)
| BadAccess                  (* a read or write outside a vector, a NULL dereference *)
| RecursionBudget.           (* the recursion budget of [alpha_vec_fuel] ran out *)

(** ** Markov chain position data *)

Section PositionData.
Context {V : Type}.

Record MarkovChainPositionData : Type := mkPosition {
    vecValues : V;
    outOfTargetSupport : bool;
    logLikelihood : double;
    logTarget : double
  }.

  (** The two [std::cerr] warnings of [alpha(x,y)] and the two of
      [alpha(vec)], with the log-target and the positions they print. *)
Inductive Warning : Type :=
  | WarnAlphaXY_x (xLogTarget : double) (xValues yValues : V)
  | WarnAlphaXY_y (yLogTarget : double) (xValues yValues : V)
  | WarnAlphaVec_first (inputSize : nat) (t : double) (firstValues lastValues : V)
  | WarnAlphaVec_last (inputSize : nat) (t : double) (firstValues lastValues : V).
End PositionData.
Arguments MarkovChainPositionData : clear implicits.
Arguments Warning : clear implicits.

(** ** A writer/error monad for the acceptance functions

    A computation either ends in a fatal error or returns a value together
    with the warnings it wrote to [std::cerr]. *)

Inductive Res (A : Type) : Type :=
| Ok (a : A)
| Fatal (e : FatalError).
Arguments Ok {A} a.
Arguments Fatal {A} e.

Module W.
Section Defs.
Context {V : Type}.
Definition t (A : Type) : Type := Res (A * list (Warning V)).
Definition ret {A} (a : A) : t A := Ok (a, []).
Definition fail {A} (e : FatalError) : t A := Fatal e.
Definition tell (w : Warning V) : t unit := Ok (tt, [w]).
Definition bind {A B} (m : t A) (k : A -> t B) : t B :=
      match m with
      | Ok (a, w) =>
          match k a with
          | Ok (b, w') => Ok (b, w ++ w')
          | Fatal e => Fatal e
          end
      | Fatal e => Fatal e
      end.
    (** [v[i]] on a [std::vector]. *)
Definition at_ {A} (l : list A) (i : nat) : t A :=
      match l !! i with
      | Some a => ret a
      | None => fail BadAccess
      end.
Fixpoint mapM {A B} (f : A -> t B) (l : list A) : t (list B) :=
      match l with
      | [] => ret []
      | a :: l' => bind (f a) (fun b => bind (mapM f l') (fun bs => ret (b :: bs)))
      end.
    (** The value of a computation, for statements that mention the result
        of a call known to succeed. *)
Definition value (m : t double) : double :=
      match m with
      | Ok (a, _) => a
      | Fatal _ => nan
      end.
End Defs.
End W.

Declare Scope w_scope.
Delimit Scope w_scope with W.
Notation "x <- m ;; k" := (W.bind m (fun x => k))
  (at level 100, m at next level, right associativity) : w_scope.
Notation "m ;;; k" := (W.bind m (fun _ => k))
  (at level 100, right associativity) : w_scope.

(** ** The transition kernel

    [queso/TKGroup.h] is not among the sources.  *)

(** Modelled from the spec: the TK state of section 3 and the operations of
    section 4.6 of the specification ([queso/TKGroup.h] is missing).  The
    state is the base covariance and the table of pre-computing positions
    keyed by stage id; [clearPreComputingPositions] empties the table,
    [setPreComputingPosition] stores under the id and reports validity,
    [updateLawCovMatrix] replaces the base covariance. *)
Record TKState (V M : Type) : Type := mkTK {
  lawCovMatrix : M;
  preComputingPositions : gmap nat V
}.
Arguments mkTK {V M}.
Arguments lawCovMatrix {V M}.
Arguments preComputingPositions {V M}.

(** What the sampler needs from a kernel besides its state: whether it is
    symmetric, whether a position is a valid pre-computing position, and the
    log-density and the realizer of [rv(stageId)] and of [rv(stageIds)]. *)
Class BaseTKGroup (V M Rng : Type) := {
  symmetric : bool;
  preComputingPositionIsValid : TKState V M -> V -> nat -> bool;
  rv_lnValue : TKState V M -> nat -> V -> double;
  rvs_lnValue : TKState V M -> list nat -> V -> double;
  rv_realization : TKState V M -> nat -> Rng -> V * Rng;
  rvs_realization : TKState V M -> list nat -> Rng -> V * Rng
}.

Section TKOps.
Context {V M : Type}.

Definition clearPreComputingPositions (tk : TKState V M) : TKState V M :=
    mkTK (lawCovMatrix tk) ∅.

Definition storePreComputingPosition (tk : TKState V M) (v : V) (localId : nat)
    : TKState V M :=
    mkTK (lawCovMatrix tk) (<[localId := v]> (preComputingPositions tk)).

Definition setPreComputingPosition {Rng : Type} {tkg : BaseTKGroup V M Rng}
      (tk : TKState V M) (v : V) (localId : nat) : TKState V M * bool :=
    (storePreComputingPosition tk v localId, preComputingPositionIsValid tk v localId).

Definition updateLawCovMatrix (tk : TKState V M) (c : M) : TKState V M :=
    mkTK c (preComputingPositions tk).

  (** [m_tk->preComputingPosition(stageId)] returns a reference: an absent id
      is a bad access. *)
Definition preComputingPosition (tk : TKState V M) (stageId : nat) : W.t (V:=V) V :=
    match preComputingPositions tk !! stageId with
    | Some v => W.ret v
    | None => W.fail BadAccess
    end.
End TKOps.

(** [m_env.rngObject()->uniformSample()]. *)
Class RngBase (Rng : Type) := { uniformSample : Rng -> double * Rng }.

(** ** The acceptance functions *)

Section Alpha.
Context {V M Rng : Type} {libm : LibM} {build : BuildConfig}
  {tkg : BaseTKGroup V M Rng} {rngb : RngBase Rng}.

Local Abbreviation Position := (MarkovChainPositionData V).
Local Abbreviation Wt := (W.t (V:=V)).

  (** The two spellings of every log-density call: [f(...)] under the flag,
      [-.5 * f(...)] without it. *)
Definition ln_conv (v : double) : double :=
    if expects_ln_likelihood then v else PrimFloat.mul Dbl.minus_half v.

  (** [alpha(x, y, xStageId, yStageId, alphaQuotientPtr)]: the returned
      triple is the result, the value stored through [alphaQuotientPtr] when
      it is not NULL, and the warnings written. *)
Definition alpha_xy (tk : TKState V M) (x y : Position) (xStageId yStageId : nat)
    : double * double * list (Warning V) :=
    let '(alphaQuotient, cerr) :=
      if negb (outOfTargetSupport x) && negb (outOfTargetSupport y) then
        if Dbl.inf_or_nan (logTarget x) then
          (Dbl.zero, [WarnAlphaXY_x (logTarget x) (vecValues x) (vecValues y)])
        else if Dbl.inf_or_nan (logTarget y) then
          (Dbl.zero, [WarnAlphaXY_y (logTarget y) (vecValues x) (vecValues y)])
        else
          let yLogTargetToUse := logTarget y in
          if symmetric then
            (std_exp (PrimFloat.sub yLogTargetToUse (logTarget x)), [])
          else
            let qyx := ln_conv (rv_lnValue tk yStageId (vecValues x)) in
            let qxy := ln_conv (rv_lnValue tk xStageId (vecValues y)) in
            (std_exp (PrimFloat.sub
                        (PrimFloat.sub (PrimFloat.add yLogTargetToUse qyx) (logTarget x))
                        qxy), [])
      else (Dbl.zero, []) in
    (Dbl.std_min Dbl.one alphaQuotient, alphaQuotient, cerr).

  (** [acceptAlpha(alpha)]: the generator is only asked for a sample in the
      last two branches. *)
Definition acceptAlpha (alpha : double) (rng : Rng) : bool * Rng :=
    if PrimFloat.leb alpha Dbl.zero then (false, rng)
    else if PrimFloat.leb Dbl.one alpha then (true, rng)
    else
      let '(u, rng') := uniformSample rng in
      if PrimFloat.leb u alpha then (true, rng') else (false, rng').

  (** *** [alpha(inputPositionsData, inputTKStageIds)] *)

Definition pop_back {A} (l : list A) : list A := take (length l - 1) l.

  (** The vectors and the four cumulative variables the loop works on. *)
Record AlphaVars : Type := mkAlphaVars {
    positionsData : list Position;
    backwardPositionsData : list Position;
    tkStageIds : list nat;
    backwardTKStageIds : list nat;
    tkStageIdsLess1 : list nat;
    backwardTKStageIdsLess1 : list nat;
    logNumerator : double;
    logDenominator : double;
    alphasNumerator : double;
    alphasDenominator : double
  }.

  (** One turn of [for (i = 0; i < inputSize-2; ++i)]; [self] is the
      recursive call. *)
Definition alpha_loop_body (self : list Position -> list nat -> Wt double)
      (tk : TKState V M) (inputSize i : nat) (a : AlphaVars) : Wt AlphaVars :=
    (let positionsData' := pop_back (positionsData a) in
     let backwardPositionsData' := pop_back (backwardPositionsData a) in
     fid <- W.at_ (tkStageIds a) (inputSize - 2 - i) ;;
     lastTKPosition <- preComputingPosition tk fid ;;
     bid <- W.at_ (backwardTKStageIds a) (inputSize - 2 - i) ;;
     lastBackwardTKPosition <- preComputingPosition tk bid ;;
     let tkStageIds' := pop_back (tkStageIds a) in
     let backwardTKStageIds' := pop_back (backwardTKStageIds a) in
     let tkStageIdsLess1' := pop_back (tkStageIdsLess1 a) in
     let backwardTKStageIdsLess1' := pop_back (backwardTKStageIdsLess1 a) in
     let numContrib := ln_conv (rvs_lnValue tk backwardTKStageIdsLess1' lastBackwardTKPosition) in
     let denContrib := ln_conv (rvs_lnValue tk tkStageIdsLess1' lastTKPosition) in
     let logNumerator' := PrimFloat.add (logNumerator a) numContrib in
     let logDenominator' := PrimFloat.add (logDenominator a) denContrib in
     aNum <- self backwardPositionsData' backwardTKStageIds' ;;
     let alphasNumerator' :=
       PrimFloat.mul (alphasNumerator a) (PrimFloat.sub Dbl.one aNum) in
     aDen <- self positionsData' tkStageIds' ;;
     let alphasDenominator' :=
       PrimFloat.mul (alphasDenominator a) (PrimFloat.sub Dbl.one aDen) in
     W.ret (mkAlphaVars positionsData' backwardPositionsData'
              tkStageIds' backwardTKStageIds'
              tkStageIdsLess1' backwardTKStageIdsLess1'
              logNumerator' logDenominator' alphasNumerator' alphasDenominator'))%W.

  (** [turns] turns of the loop starting at index [i]. *)
Fixpoint alpha_loop (self : list Position -> list nat -> Wt double)
      (tk : TKState V M) (inputSize turns i : nat) (a : AlphaVars) : Wt AlphaVars :=
    match turns with
    | O => W.ret a
    | S turns' =>
        (a' <- alpha_loop_body self tk inputSize i a ;;
         alpha_loop self tk inputSize turns' (S i) a')%W
    end.

  (** The copies made by [for (i = 0; i < inputSize; ++i)]. *)
Definition copy_forward {A} (l : list A) (inputSize : nat) : Wt (list A) :=
    W.mapM (fun i => W.at_ l i) (seq 0 inputSize).
Definition copy_backward {A} (l : list A) (inputSize : nat) : Wt (list A) :=
    W.mapM (fun i => W.at_ l (inputSize - i - 1)) (seq 0 inputSize).

  (** The body of [alpha(vec)] with its recursive call abstracted. *)
Definition alpha_vec_body (self : list Position -> list nat -> Wt double)
      (tk : TKState V M) (inputPositionsData : list Position)
      (inputTKStageIds : list nat) : Wt double :=
    (let inputSize := length inputPositionsData in
     if inputSize <? 2 then W.fail AlphaInputTooShort else
     first <- W.at_ inputPositionsData 0 ;;
     last <- W.at_ inputPositionsData (inputSize - 1) ;;
     if outOfTargetSupport first then W.ret Dbl.zero else
     if outOfTargetSupport last then W.ret Dbl.zero else
     if Dbl.inf_or_nan (logTarget first) then
       W.tell (WarnAlphaVec_first inputSize (logTarget first)
                 (vecValues first) (vecValues last)) ;;;
       W.ret Dbl.zero
     else if Dbl.inf_or_nan (logTarget last) then
       W.tell (WarnAlphaVec_last inputSize (logTarget last)
                 (vecValues first) (vecValues last)) ;;;
       W.ret Dbl.zero
     else if inputSize =? 2 then
       id0 <- W.at_ inputTKStageIds 0 ;;
       id1 <- W.at_ inputTKStageIds (inputSize - 1) ;;
       let '(a, _, cerr) := alpha_xy tk first last id0 id1 in
       Ok (a, cerr)
     else
       positionsData0 <- copy_forward inputPositionsData inputSize ;;
       backwardPositionsData0 <- copy_backward inputPositionsData inputSize ;;
       tkStageIds0 <- copy_forward inputTKStageIds inputSize ;;
       backwardTKStageIds0 <- copy_backward inputTKStageIds inputSize ;;
       let tkStageIdsLess1_0 := pop_back tkStageIds0 in
       let backwardTKStageIdsLess1_0 := pop_back backwardTKStageIds0 in
       fid <- W.at_ tkStageIds0 (inputSize - 1) ;;
       _lastTKPosition <- preComputingPosition tk fid ;;
       bid <- W.at_ backwardTKStageIds0 (inputSize - 1) ;;
       _lastBackwardTKPosition <- preComputingPosition tk bid ;;
       let numContrib := ln_conv (rvs_lnValue tk backwardTKStageIdsLess1_0 _lastBackwardTKPosition) in
       let denContrib := ln_conv (rvs_lnValue tk tkStageIdsLess1_0 _lastTKPosition) in
       let vars0 :=
         mkAlphaVars positionsData0 backwardPositionsData0
           tkStageIds0 backwardTKStageIds0
           tkStageIdsLess1_0 backwardTKStageIdsLess1_0
           (PrimFloat.add Dbl.zero numContrib) (PrimFloat.add Dbl.zero denContrib)
           Dbl.one Dbl.one in
       vars <- alpha_loop self tk inputSize (inputSize - 2) 0 vars0 ;;
       bfirst <- W.at_ (backwardPositionsData vars) 0 ;;
       ffirst <- W.at_ (positionsData vars) 0 ;;
       let numeratorLogTargetToUse := logTarget bfirst in
       let logNumerator' := PrimFloat.add (logNumerator vars) numeratorLogTargetToUse in
       let logDenominator' := PrimFloat.add (logDenominator vars) (logTarget ffirst) in
       W.ret (Dbl.std_min Dbl.one
                (PrimFloat.mul
                   (PrimFloat.div (alphasNumerator vars) (alphasDenominator vars))
                   (std_exp (PrimFloat.sub logNumerator' logDenominator')))))%W.

  (** The recursion is on strictly shorter vectors; [fuel] bounds its depth. *)
Fixpoint alpha_vec_fuel (fuel : nat) (tk : TKState V M)
      (inputPositionsData : list Position) (inputTKStageIds : list nat) : Wt double :=
    match fuel with
    | O => W.fail RecursionBudget
    | S fuel' =>
        alpha_vec_body (alpha_vec_fuel fuel' tk) tk inputPositionsData inputTKStageIds
    end.

Definition alpha_vec (tk : TKState V M) (inputPositionsData : list Position)
      (inputTKStageIds : list nat) : Wt double :=
    alpha_vec_fuel (S (length inputPositionsData)) tk inputPositionsData inputTKStageIds.

End Alpha.

(** ** Collaborators of the driver *)

(** The target pdf: the membership test of its domain set and the call
    through [m_targetPdfSynchronizer] on a position, which returns a value
    and stores the log-prior and the log-likelihood through its last two
    arguments.  The triple is (returned value, log-prior, log-likelihood). *)
Class TargetPdf (V : Type) := {
  contains : V -> bool;
  callFunction : V -> double * double * double
}.

(** The vector space: the vector and matrix operations the sampler uses,
    the plain mean of a sequence, the Cholesky factorisation (its return
    code) and the return code for a matrix that is not positive definite. *)
Class VectorSpace (V M : Type) := {
  zeroVector : V;
  newVector : V;
  newMatrix : M;
  newDiagMatrix : double -> M;
  numOfProcsForStorage : V -> nat;
  vec_sub : V -> V -> V;
  vec_add : V -> V -> V;
  vec_scale : double -> V -> V;
  matrixProduct : V -> V -> M;
  mat_add : M -> M -> M;
  mat_scale : double -> M -> M;
  mat_div : M -> double -> M;
  subMeanPlain : list V -> V;
  chol : M -> Z;
  UQ_MATRIX_IS_NOT_POS_DEFINITE_RC : Z
}.

(** What the driver reads of the environment. *)
Class BaseEnvironment := {
  numSubEnvironments : nat;
  fullComm_NumProc : nat;
  subRank : nat
}.

(** The options the driver reads. *)
Record MhOptionsValues : Type := mkOptions {
  m_drMaxNumExtraStages : nat;
  m_drDuringAmNonAdaptiveInt : bool;
  m_tkUseLocalHessian : bool;
  m_amInitialNonAdaptInterval : nat;
  m_amAdaptInterval : nat;
  m_amEta : double;
  m_amEpsilon : double;
  m_putOutOfBoundsInChain : bool
}.

(** ** Run-info counters *)

Definition uint_incr (n : N) : N := ((n + 1) mod 2 ^ 32)%N.

Record MHRawChainInfoStruct : Type := mkInfo {
  numTargetCalls : N;
  numDRs : N;
  numOutOfTargetSupport : N;
  numOutOfTargetSupportInDR : N;
  numRejections : N
}.

Definition info_reset : MHRawChainInfoStruct := mkInfo 0 0 0 0 0.

(** ** The sampler and its driver *)

Section Sampler.
Context {V M Rng : Type}.

(** What the driver did during a run, most recent first: draws with their
    support test, target evaluations, candidate records
    ([currentCandidateData.set]), DR stages begun, rejections counted, calls
    of [updateAdaptedCovMatrix], Cholesky attempts and covariance updates of
    the kernel. *)
Inductive Event : Type :=
| EvRealization (v : V) (outOfSupport : bool)
| EvTargetCall (v : V)
| EvCandidate (inDR : bool) (c : MarkovChainPositionData V)
| EvDRStage (stageId : nat)
| EvRejection (positionId : nat)
| EvAdapt (positionId idOfFirstPositionInSubChain : nat) (partialChain : list V)
| EvChol (positionId : nat) (m : M) (iRC : Z)
| EvUpdateLawCov (positionId : nat) (c : M).

(** The members of [MetropolisHastingsSG] the driver works on, the three
    sequences it is handed, [std::cerr] and the event log. *)
Record Sampler : Type := mkSampler {
  m_rng : Rng;
  m_tk : TKState V M;
  m_rawChainInfo : MHRawChainInfoStruct;
  m_lastChainSize : double;
  m_lastMean : option V;
  m_lastAdaptedCovMatrix : option M;
  workingChain : list (option V);
  workingLogLikelihoodValues : option (list double);
  workingLogTargetValues : option (list double);
  cerr : list (Warning V);
  events : list Event
}.

(** A run of sampler code ends normally, is aborted by a fatal test, or is
    still redrawing candidates when its redraw budget is used up. *)
Inductive Outcome (A : Type) : Type :=
| Returns (a : A) (s : Sampler)
| Aborts (e : FatalError) (s : Sampler)
| OutOfFuel.
End Sampler.
Arguments Event : clear implicits.
Arguments Sampler : clear implicits.
Arguments Outcome : clear implicits.
Arguments Returns {V M Rng A} a s.
Arguments Aborts {V M Rng A} e s.
Arguments OutOfFuel {V M Rng A}.

(** Field updates of the sampler. *)
Section Setters.
Context {V M Rng : Type}.
Local Abbreviation St := (Sampler V M Rng).
Definition set_rng (r : Rng) (s : St) : St :=
  mkSampler r (m_tk s) (m_rawChainInfo s) (m_lastChainSize s) (m_lastMean s)
    (m_lastAdaptedCovMatrix s) (workingChain s) (workingLogLikelihoodValues s)
    (workingLogTargetValues s) (cerr s) (events s).
Definition set_tk (tk : TKState V M) (s : St) : St :=
  mkSampler (m_rng s) tk (m_rawChainInfo s) (m_lastChainSize s) (m_lastMean s)
    (m_lastAdaptedCovMatrix s) (workingChain s) (workingLogLikelihoodValues s)
    (workingLogTargetValues s) (cerr s) (events s).
Definition set_info (i : MHRawChainInfoStruct) (s : St) : St :=
  mkSampler (m_rng s) (m_tk s) i (m_lastChainSize s) (m_lastMean s)
    (m_lastAdaptedCovMatrix s) (workingChain s) (workingLogLikelihoodValues s)
    (workingLogTargetValues s) (cerr s) (events s).
Definition set_am (n : double) (mean : option V) (cov : option M) (s : St) : St :=
  mkSampler (m_rng s) (m_tk s) (m_rawChainInfo s) n mean cov
    (workingChain s) (workingLogLikelihoodValues s)
    (workingLogTargetValues s) (cerr s) (events s).
Definition set_chain (c : list (option V)) (s : St) : St :=
  mkSampler (m_rng s) (m_tk s) (m_rawChainInfo s) (m_lastChainSize s) (m_lastMean s)
    (m_lastAdaptedCovMatrix s) c (workingLogLikelihoodValues s)
    (workingLogTargetValues s) (cerr s) (events s).
Definition set_logs (ll lt : option (list double)) (s : St) : St :=
  mkSampler (m_rng s) (m_tk s) (m_rawChainInfo s) (m_lastChainSize s) (m_lastMean s)
    (m_lastAdaptedCovMatrix s) (workingChain s) ll lt (cerr s) (events s).
Definition add_cerr (w : list (Warning V)) (s : St) : St :=
  mkSampler (m_rng s) (m_tk s) (m_rawChainInfo s) (m_lastChainSize s) (m_lastMean s)
    (m_lastAdaptedCovMatrix s) (workingChain s) (workingLogLikelihoodValues s)
    (workingLogTargetValues s) (cerr s ++ w) (events s).
Definition set_events (l : list (Event V M)) (s : St) : St :=
  mkSampler (m_rng s) (m_tk s) (m_rawChainInfo s) (m_lastChainSize s) (m_lastMean s)
    (m_lastAdaptedCovMatrix s) (workingChain s) (workingLogLikelihoodValues s)
    (workingLogTargetValues s) (cerr s) l.
Definition add_event (e : Event V M) (s : St) : St :=
  mkSampler (m_rng s) (m_tk s) (m_rawChainInfo s) (m_lastChainSize s) (m_lastMean s)
    (m_lastAdaptedCovMatrix s) (workingChain s) (workingLogLikelihoodValues s)
    (workingLogTargetValues s) (cerr s) (e :: events s).
End Setters.

Module S.
Section Defs.
Context {V M Rng : Type}.
Definition t (A : Type) : Type := Sampler V M Rng -> Outcome V M Rng A.
Definition ret {A} (a : A) : t A := fun s => Returns a s.
Definition bind {A B} (m : t A) (k : A -> t B) : t B :=
  fun s =>
    match m s with
    | Returns a s' => k a s'
    | Aborts e s' => Aborts e s'
    | OutOfFuel => OutOfFuel
    end.
Definition get : t (Sampler V M Rng) := fun s => Returns s s.
Definition modify (f : Sampler V M Rng -> Sampler V M Rng) : t unit :=
  fun s => Returns tt (f s).
(** [UQ_FATAL_TEST_MACRO(test, ...)]. *)
Definition fatal_test (test : bool) (e : FatalError) : t unit :=
  fun s => if test then Aborts e s else Returns tt s.
Definition abort {A} (e : FatalError) : t A := fun s => Aborts e s.
(** A call of one of the acceptance functions: its warnings go to
    [std::cerr], its fatal error aborts. *)
Definition lift_w {A} (m : W.t (V:=V) A) : t A :=
  fun s =>
    match m with
    | Ok (a, w) => Returns a (add_cerr w s)
    | Fatal e => Aborts e s
    end.
Definition lift_res {A} (m : Res A) : t A :=
  fun s => match m with Ok a => Returns a s | Fatal e => Aborts e s end.
End Defs.
End S.

Declare Scope s_scope.
Delimit Scope s_scope with S.
Notation "x <- m ;; k" := (S.bind m (fun x => k))
  (at level 100, m at next level, right associativity) : s_scope.
Notation "m ;;; k" := (S.bind m (fun _ => k))
  (at level 100, right associativity) : s_scope.

(** [updateAdaptedCovMatrix(partialChain, idOfFirstPositionInSubChain,
    lastChainSize, lastMean, lastAdaptedCovMatrix)]: the three reference
    arguments are returned. *)
Section UpdateAdaptedCovMatrix.
Context {V M : Type} {space : VectorSpace V M}.

(** One turn of the incremental branch's loop, at index [i] of the partial
    chain. *)
Definition adapt_step (idOfFirstPositionInSubChain : nat)
    (acc : V * M) (i_tmpVec : nat * V) : V * M :=
  let '(lastMean, lastAdaptedCovMatrix) := acc in
  let '(i, tmpVec) := i_tmpVec in
  let doubleCurrentId := Dbl.of_nat (idOfFirstPositionInSubChain + i) in
  let diffVec := vec_sub tmpVec lastMean in
  let ratio1 := PrimFloat.sub Dbl.one (PrimFloat.div Dbl.one doubleCurrentId) in
  let ratio2 := PrimFloat.div Dbl.one (PrimFloat.add Dbl.one doubleCurrentId) in
  let lastAdaptedCovMatrix' :=
    mat_add (mat_scale ratio1 lastAdaptedCovMatrix)
            (mat_scale ratio2 (matrixProduct diffVec diffVec)) in
  let lastMean' := vec_add lastMean (vec_scale ratio2 diffVec) in
  (lastMean', lastAdaptedCovMatrix').

Definition updateAdaptedCovMatrix (partialChain : list V)
    (idOfFirstPositionInSubChain : nat) (lastChainSize : double)
    (lastMean : V) (lastAdaptedCovMatrix : M) : Res (double * V * M) :=
  let subSequenceSize := length partialChain in
  let doubleSubChainSize := Dbl.of_nat subSequenceSize in
  let updated :=
    if PrimFloat.eqb lastChainSize Dbl.zero then
      if subSequenceSize <? 2 then Fatal PartialChainTooShort
      else
        let lastMean' := subMeanPlain partialChain in
        let cov0 := mat_scale (PrimFloat.opp doubleSubChainSize)
                      (matrixProduct lastMean' lastMean') in
        let cov1 := fold_left (fun c tmpVec => mat_add c (matrixProduct tmpVec tmpVec))
                      partialChain cov0 in
        Ok (lastMean', mat_div cov1 (PrimFloat.sub doubleSubChainSize Dbl.one))
    else
      if subSequenceSize <? 1 then Fatal PartialChainTooShort
      else if idOfFirstPositionInSubChain <? 1 then Fatal FirstPositionIdTooSmall
      else
        Ok (fold_left (adapt_step idOfFirstPositionInSubChain)
              (zip (seq 0 subSequenceSize) partialChain)
              (lastMean, lastAdaptedCovMatrix)) in
  match updated with
  | Ok (lastMean', lastAdaptedCovMatrix') =>
      Ok (PrimFloat.add lastChainSize doubleSubChainSize, lastMean', lastAdaptedCovMatrix')
  | Fatal e => Fatal e
  end.
End UpdateAdaptedCovMatrix.

Section Driver.
Context {V M Rng : Type} {libm : LibM} {build : BuildConfig}
  {tkg : BaseTKGroup V M Rng} {rngb : RngBase Rng} {target : TargetPdf V}
  {space : VectorSpace V M} {env : BaseEnvironment}.
Variable opts : MhOptionsValues.

Local Abbreviation Position := (MarkovChainPositionData V).
Local Abbreviation St := (Sampler V M Rng).
Local Abbreviation Mt := (S.t (V:=V) (M:=M) (Rng:=Rng)).

(** *** Counters *)

Definition incr_numTargetCalls : Mt unit :=
  S.modify (fun s => let i := m_rawChainInfo s in
    set_info (mkInfo (uint_incr (numTargetCalls i)) (numDRs i) (numOutOfTargetSupport i)
                (numOutOfTargetSupportInDR i) (numRejections i)) s).
Definition incr_numDRs : Mt unit :=
  S.modify (fun s => let i := m_rawChainInfo s in
    set_info (mkInfo (numTargetCalls i) (uint_incr (numDRs i)) (numOutOfTargetSupport i)
                (numOutOfTargetSupportInDR i) (numRejections i)) s).
Definition incr_numOutOfTargetSupport : Mt unit :=
  S.modify (fun s => let i := m_rawChainInfo s in
    set_info (mkInfo (numTargetCalls i) (numDRs i) (uint_incr (numOutOfTargetSupport i))
                (numOutOfTargetSupportInDR i) (numRejections i)) s).
Definition incr_numOutOfTargetSupportInDR : Mt unit :=
  S.modify (fun s => let i := m_rawChainInfo s in
    set_info (mkInfo (numTargetCalls i) (numDRs i) (numOutOfTargetSupport i)
                (uint_incr (numOutOfTargetSupportInDR i)) (numRejections i)) s).
Definition incr_numRejections : Mt unit :=
  S.modify (fun s => let i := m_rawChainInfo s in
    set_info (mkInfo (numTargetCalls i) (numDRs i) (numOutOfTargetSupport i)
                (numOutOfTargetSupportInDR i) (uint_incr (numRejections i))) s).

(** *** Proposing and evaluating a candidate *)

(** The target call with its counter (lines 806-815, 1029-1036 and
    1202-1209); the pair returned is (logLikelihood, logTarget). *)
Definition evaluate_target (v : V) : Mt (double * double) :=
  (let '(value, _, logLikelihood) := callFunction v in
   let logTarget := ln_conv value in
   S.modify (add_event (EvTargetCall v)) ;;;
   incr_numTargetCalls ;;;
   S.ret (logLikelihood, logTarget))%S.

(** [while (keepGeneratingCandidates)] (lines 980-1001 and 1164-1174):
    [realizer] is the draw from [m_tk->rv(...)]; [fuel] bounds the number of
    draws. *)
Fixpoint generate_candidate (fuel : nat) (realizer : TKState V M -> Rng -> V * Rng)
    : Mt (V * bool) :=
  match fuel with
  | O => fun _ => OutOfFuel
  | S fuel' =>
      (s <- S.get ;;
       let '(tmpVecValues, rng') := realizer (m_tk s) (m_rng s) in
       S.modify (set_rng rng') ;;;
       let outOfTargetSupport := negb (contains tmpVecValues) in
       S.modify (add_event (EvRealization tmpVecValues outOfTargetSupport)) ;;;
       let keepGeneratingCandidates :=
         if m_putOutOfBoundsInChain opts then false else outOfTargetSupport in
       if keepGeneratingCandidates then generate_candidate fuel' realizer
       else S.ret (tmpVecValues, outOfTargetSupport))%S
  end.

(** Lines 980-1052 (main step, [inDR = false]) and 1164-1226 (a DR stage,
    [inDR = true]): the same code at both sites but for the realizer and the
    counter.  Draw a candidate, register it as pre-computing position
    [stageId+1], evaluate it or count it as out of support, and set
    [currentCandidateData].  Returns the candidate and
    [validPreComputingPosition]. *)
Definition candidate_for_stage (fuel : nat)
    (realizer : TKState V M -> Rng -> V * Rng) (inDR : bool) (stageId : nat)
    : Mt (Position * bool) :=
  (c <- generate_candidate fuel realizer ;;
   let '(tmpVecValues, outOfTargetSupport) := c in
   s <- S.get ;;
   let '(tk', validPreComputingPosition) :=
     setPreComputingPosition (m_tk s) tmpVecValues (stageId + 1) in
   S.modify (set_tk tk') ;;;
   ll_lt <- (if outOfTargetSupport then
               (if inDR then incr_numOutOfTargetSupportInDR
                else incr_numOutOfTargetSupport) ;;;
               S.ret (neg_infinity, neg_infinity)
             else evaluate_target tmpVecValues) ;;
   let currentCandidateData :=
     mkPosition tmpVecValues outOfTargetSupport (fst ll_lt) (snd ll_lt) in
   S.modify (add_event (EvCandidate inDR currentCandidateData)) ;;;
   S.ret (currentCandidateData, validPreComputingPosition))%S.

(** [acceptAlpha] on the sampler's generator. *)
Definition accept_with_rng (alpha : double) : Mt bool :=
  fun s => let '(b, rng') := acceptAlpha alpha (m_rng s) in Returns b (set_rng rng' s).

(** *** Delayed rejection *)

(** The variables the DR loop reads and writes. *)
Record DRVars : Type := mkDR {
  dr_stageId : nat;
  dr_validPreComputingPosition : bool;
  dr_accept : bool;
  dr_currentCandidateData : Position;
  dr_positionsData : list Position;
  dr_tkStageIds : list nat
}.

Definition dr_condition (d : DRVars) : bool :=
  dr_validPreComputingPosition d && negb (dr_accept d)
  && (dr_stageId d <? m_drMaxNumExtraStages opts).

(** One turn of the DR loop (lines 1152-1252). *)
Definition dr_stage (fuel : nat) (d : DRVars) : Mt DRVars :=
  (incr_numDRs ;;;
   let stageId := S (dr_stageId d) in
   S.modify (add_event (EvDRStage stageId)) ;;;
   cv <- candidate_for_stage fuel (fun tk => rvs_realization tk (dr_tkStageIds d))
           true stageId ;;
   let '(currentCandidateData, validPreComputingPosition) := cv in
   let drPositionsData := dr_positionsData d ++ [currentCandidateData] in
   let tkStageIds := dr_tkStageIds d ++ [stageId + 1] in
   accept <- (if outOfTargetSupport currentCandidateData then S.ret (dr_accept d)
              else
                s <- S.get ;;
                alphaDR <- S.lift_w (alpha_vec (m_tk s) drPositionsData tkStageIds) ;;
                accept_with_rng alphaDR) ;;
   S.ret (mkDR stageId validPreComputingPosition accept currentCandidateData
            drPositionsData tkStageIds))%S.

(** The loop at lines 1141-1253.  [stageId] grows by one each turn and the
    loop stops at [m_drMaxNumExtraStages] at the latest, so [turns], the
    number of turns left up to that bound, is its measure. *)
Fixpoint dr_loop (fuel turns : nat) (d : DRVars) : Mt DRVars :=
  match turns with
  | O => S.ret d
  | S turns' =>
      if dr_condition d then (d' <- dr_stage fuel d ;; dr_loop fuel turns' d')%S
      else S.ret d
  end.

(** The test at lines 1125-1129. *)
Definition avoid_dr_now (positionId : nat) : bool :=
  negb (m_drDuringAmNonAdaptiveInt opts)
  && negb (m_tkUseLocalHessian opts)
  && (0 <? m_amInitialNonAdaptInterval opts)
  && (0 <? m_amAdaptInterval opts)
  && (positionId <=? m_amInitialNonAdaptInterval opts).

(** Point 3/6 (lines 1120-1261); returns [accept] and
    [currentCandidateData]. *)
Definition delayed_rejection (fuel positionId : nat)
    (currentPositionData currentCandidateData : Position)
    (validPreComputingPosition accept : bool) : Mt (bool * Position) :=
  if negb accept && negb (outOfTargetSupport currentCandidateData)
     && (0 <? m_drMaxNumExtraStages opts)
  then
    if avoid_dr_now positionId then S.ret (accept, currentCandidateData)
    else
      (d <- dr_loop fuel (m_drMaxNumExtraStages opts)
              (mkDR 0 validPreComputingPosition accept currentCandidateData
                 [currentPositionData; currentCandidateData] [0; 1]) ;;
       S.ret (dr_accept d, dr_currentCandidateData d))%S
  else S.ret (accept, currentCandidateData).

(** *** Updating the chain *)

(** [workingChain.setPositionValues(posId, v)]; a position id outside the
    sequence is a bad access. *)
Definition setPositionValues (posId : nat) (v : V) : Mt unit :=
  fun s =>
    if posId <? length (workingChain s)
    then Returns tt (set_chain (<[posId := Some v]> (workingChain s)) s)
    else Aborts BadAccess s.

(** [workingChain.getPositionValues(posId, v)]. *)
Definition getPositionValues (posId : nat) : Mt V :=
  fun s =>
    match workingChain s !! posId with
    | Some (Some v) => Returns v s
    | _ => Aborts BadAccess s
    end.

(** The stores into the two optional scalar sequences (lines 890-891 and
    1323-1324); they have the chain's size and follow a successful
    [setPositionValues] at the same id. *)
Definition store_log_values (posId : nat) (p : Position) : Mt unit :=
  S.modify (fun s =>
    set_logs (option_map (fun l => <[posId := logLikelihood p]> l)
                (workingLogLikelihoodValues s))
             (option_map (fun l => <[posId := logTarget p]> l)
                (workingLogTargetValues s)) s).

(** Point 4/6 (lines 1267-1324); returns [currentPositionData]. *)
Definition update_chain (positionId : nat) (accept : bool)
    (currentPositionData currentCandidateData : Position) : Mt Position :=
  (current' <- (if accept then
                  setPositionValues positionId (vecValues currentCandidateData) ;;;
                  S.ret currentCandidateData
                else
                  setPositionValues positionId (vecValues currentPositionData) ;;;
                  incr_numRejections ;;;
                  S.modify (add_event (EvRejection positionId)) ;;;
                  S.ret currentPositionData) ;;
   store_log_values positionId current' ;;;
   S.ret current')%S.

(** *** Adaptive Metropolis *)

(** The guard at lines 1350-1352. *)
Definition am_enabled : bool :=
  negb (m_tkUseLocalHessian opts)
  && (0 <? m_amInitialNonAdaptInterval opts)
  && (0 <? m_amAdaptInterval opts).

(** Lines 1356-1383: [idOfFirstPositionInSubChain], the size given to
    [partialChain], and whether [m_lastMean] and [m_lastAdaptedCovMatrix]
    are allocated. *)
Definition am_schedule (positionId : nat) : nat * nat * bool :=
  if positionId <? m_amInitialNonAdaptInterval opts then (0, 0, false)
  else if positionId =? m_amInitialNonAdaptInterval opts then
    (0, m_amInitialNonAdaptInterval opts + 1, true)
  else
    let interval := positionId - m_amInitialNonAdaptInterval opts in
    if interval mod m_amAdaptInterval opts =? 0 then
      (positionId - m_amAdaptInterval opts, m_amAdaptInterval opts, false)
    else (0, 0, false).

(** [*p] on one of the two AM pointers. *)
Definition deref {A} (p : option A) : Mt A :=
  match p with
  | Some a => S.ret a
  | None => S.abort BadAccess
  end.

Fixpoint mapM_S {A B} (f : A -> Mt B) (l : list A) : Mt (list B) :=
  match l with
  | [] => S.ret []
  | a :: l' => (b <- f a ;; bs <- mapM_S f l' ;; S.ret (b :: bs))%S
  end.

Definition chol_event (positionId : nat) (m : M) : Mt Z :=
  (let iRC := chol m in
   S.modify (add_event (EvChol positionId m iRC)) ;;;
   S.ret iRC)%S.

(** Lines 1421-1530: the two Cholesky attempts and the update of the
    kernel's covariance. *)
Definition refresh_proposal_covariance (positionId : nat)
    (lastAdaptedCovMatrix : M) : Mt unit :=
  (let tmpChol := lastAdaptedCovMatrix in
   let attemptedMatrix := tmpChol in
   iRC <- chol_event positionId tmpChol ;;
   r <- (if negb (iRC =? 0)%Z then
           S.fatal_test (negb (iRC =? UQ_MATRIX_IS_NOT_POS_DEFINITE_RC)%Z)
             InvalidCholRC1 ;;;
           let tmpDiag := newDiagMatrix (m_amEpsilon opts) in
           let tmpChol := mat_add lastAdaptedCovMatrix tmpDiag in
           let attemptedMatrix := tmpChol in
           iRC <- chol_event positionId tmpChol ;;
           if negb (iRC =? 0)%Z then
             S.fatal_test (negb (iRC =? UQ_MATRIX_IS_NOT_POS_DEFINITE_RC)%Z)
               InvalidCholRC2 ;;;
             S.ret (false, attemptedMatrix)
           else S.ret (true, attemptedMatrix)
         else S.ret (true, attemptedMatrix)) ;;
   let '(tmpCholIsPositiveDefinite, attemptedMatrix) := r in
   if tmpCholIsPositiveDefinite then
     let c := mat_scale (m_amEta opts) attemptedMatrix in
     S.modify (fun s => add_event (EvUpdateLawCov positionId c)
                          (set_tk (updateLawCovMatrix (m_tk s) c) s))
   else S.ret tt)%S.

(** Point 5/6 (lines 1350-1538). *)
Definition adaptive_metropolis (positionId : nat) : Mt unit :=
  if am_enabled then
    (let '(idOfFirstPositionInSubChain, partialSize, allocate) := am_schedule positionId in
     (if allocate then
        S.modify (fun s => set_am (m_lastChainSize s) (Some newVector) (Some newMatrix) s)
      else S.ret tt) ;;;
     if 0 <? partialSize then
       partialChain <- mapM_S (fun i => getPositionValues (idOfFirstPositionInSubChain + i))
                         (seq 0 partialSize) ;;
       s <- S.get ;;
       lastMean <- deref (m_lastMean s) ;;
       lastAdaptedCovMatrix <- deref (m_lastAdaptedCovMatrix s) ;;
       S.modify (add_event (EvAdapt positionId idOfFirstPositionInSubChain partialChain)) ;;;
       r <- S.lift_res (updateAdaptedCovMatrix partialChain idOfFirstPositionInSubChain
                          (m_lastChainSize s) lastMean lastAdaptedCovMatrix) ;;
       let '(lastChainSize', lastMean', lastAdaptedCovMatrix') := r in
       S.modify (set_am lastChainSize' (Some lastMean') (Some lastAdaptedCovMatrix')) ;;;
       refresh_proposal_covariance positionId lastAdaptedCovMatrix'
     else S.ret tt)%S
  else S.ret tt.

(** *** One chain position (the body of the loop at line 933) *)

Definition chain_position (fuel positionId : nat) (currentPositionData : Position)
    : Mt Position :=
  (let stageId := 0 in
   S.modify (fun s => set_tk (clearPreComputingPositions (m_tk s)) s) ;;;
   s <- S.get ;;
   let '(tk', validPreComputingPosition) :=
     setPreComputingPosition (m_tk s) (vecValues currentPositionData) 0 in
   S.modify (set_tk tk') ;;;
   S.fatal_test (negb validPreComputingPosition) InvalidPreComputingPosition ;;;
   cv <- candidate_for_stage fuel (fun tk => rv_realization tk 0) false stageId ;;
   let '(currentCandidateData, validPreComputingPosition) := cv in
   accept <- (if outOfTargetSupport currentCandidateData then S.ret false
              else
                s <- S.get ;;
                let '(alphaFirstCandidate, _, w) :=
                  alpha_xy (m_tk s) currentPositionData currentCandidateData 0 1 in
                S.modify (add_cerr w) ;;;
                accept_with_rng alphaFirstCandidate) ;;
   ac <- delayed_rejection fuel positionId currentPositionData currentCandidateData
           validPreComputingPosition accept ;;
   let '(accept, currentCandidateData) := ac in
   current' <- update_chain positionId accept currentPositionData currentCandidateData ;;
   adaptive_metropolis positionId ;;;
   S.ret current')%S.

(** [turns] turns of [for (positionId = ...; positionId <
    workingChain.subSequenceSize(); ++positionId)], started with [turns]
    equal to the number of ids left below the size. *)
Fixpoint chain_loop (fuel turns positionId : nat) (currentPositionData : Position)
    : Mt Position :=
  match turns with
  | O => S.ret currentPositionData
  | S turns' =>
      (current' <- chain_position fuel positionId currentPositionData ;;
       chain_loop fuel turns' (S positionId) current')%S
  end.

(** The loop at lines 926-931, run by the ranks that only wait at the
    barrier. *)
Fixpoint barrier_loop (turns positionId : nat) (currentPositionData : Position)
    : Mt unit :=
  match turns with
  | O => S.ret tt
  | S turns' =>
      (setPositionValues positionId
         (vec_scale (Dbl.of_nat positionId) (vecValues currentPositionData)) ;;;
       incr_numRejections ;;;
       S.modify (add_event (EvRejection positionId)) ;;;
       barrier_loop turns' (S positionId) currentPositionData)%S
  end.

(** The test at lines 913-915. *)
Definition waits_at_barrier (valuesOf1stPosition : V) : bool :=
  (numSubEnvironments <? fullComm_NumProc)
  && (numOfProcsForStorage valuesOf1stPosition =? 1)
  && negb (subRank =? 0).

(** [std::vector::resize(n, NULL)] on the chain, [resize(n)] on a scalar
    sequence. *)
Definition resizeSequence {A} (fill : A) (n : nat) (l : list A) : list A :=
  take n l ++ replicate (n - length l) fill.

(** Lines 806-1573 of [generateFullChain]: what follows the test of the
    initial position.  On a rank that waits at the barrier, the call of the
    synchronizer with null arguments (lines 917-924), whose code is not
    among the sources, is not represented: that branch holds the driver's
    own steps, those of a run in which the call returns. *)
Definition generate_from_initial_position (fuel : nat) (valuesOf1stPosition : V)
    (chainSize : nat) : Mt unit :=
  (let outOfTargetSupport := negb (contains valuesOf1stPosition) in
   ll_lt <- evaluate_target valuesOf1stPosition ;;
   let currentPositionData :=
     mkPosition valuesOf1stPosition outOfTargetSupport (fst ll_lt) (snd ll_lt) in
   S.modify (fun s =>
     set_logs (option_map (resizeSequence Dbl.zero chainSize) (workingLogLikelihoodValues s))
              (option_map (resizeSequence Dbl.zero chainSize) (workingLogTargetValues s))
              (set_chain (resizeSequence None chainSize (workingChain s)) s)) ;;;
   setPositionValues 0 (vecValues currentPositionData) ;;;
   store_log_values 0 currentPositionData ;;;
   if waits_at_barrier valuesOf1stPosition then
     barrier_loop (chainSize - 1) 1 currentPositionData
   else
     chain_loop fuel (chainSize - 1) 1 currentPositionData ;;; S.ret tt)%S.

(** [generateFullChain(valuesOf1stPosition, chainSize, workingChain,
    workingLogLikelihoodValues, workingLogTargetValues)].  The event log is
    the log of the run: it starts empty, as the counters do
    ([m_rawChainInfo.reset()]). *)
Definition generateFullChain (fuel : nat) (valuesOf1stPosition : V) (chainSize : nat)
    : Mt unit :=
  (S.modify (fun s => set_events [] (set_info info_reset s)) ;;;
   let outOfTargetSupport := negb (contains valuesOf1stPosition) in
   S.fatal_test outOfTargetSupport InvalidInitialPoint ;;;
   generate_from_initial_position fuel valuesOf1stPosition chainSize)%S.

End Driver.

(** ** The multi-stage acceptance ratio in closed form *)

Section DramFormula.
Context {V M Rng : Type} {libm : LibM} {build : BuildConfig}
  {tkg : BaseTKGroup V M Rng}.

Local Abbreviation Position := (MarkovChainPositionData V).

(** The stage ids match the positions when the kernel's table holds, under
    each id, the values of the position at the same index. *)
Definition stage_ids_match (tk : TKState V M) (ps : list Position) (ids : list nat) : Prop :=
  Forall2 (fun p id => preComputingPositions tk !! id = Some (vecValues p)) ps ids.

(** The log-density of the stage proposal at position [k]: the kernel's
    [rv] for the first [k] stage ids, at the values of [ps[k]]. *)
Definition stage_log_density (tk : TKState V M) (ps : list Position) (ids : list nat)
    (k : nat) : double :=
  match ps !! k with
  | Some p => ln_conv (rvs_lnValue tk (take k ids) (vecValues p))
  | None => nan
  end.

(** The sum of the stage log-densities at the positions [ks], taken in the
    order of the list, from 0. *)
Definition log_sum (tk : TKState V M) (ps : list Position) (ids : list nat)
    (ks : list nat) : double :=
  fold_left (fun acc k => PrimFloat.add acc (stage_log_density tk ps ids k)) ks Dbl.zero.

(** The product of [1 - self(prefix of length len)] over [lens], taken in
    the order of the list, from 1. *)
Definition complement_product (self : list Position -> list nat -> W.t (V:=V) double)
    (ps : list Position) (ids : list nat) (lens : list nat) : double :=
  fold_left
    (fun acc len =>
       PrimFloat.mul acc
         (PrimFloat.sub Dbl.one (W.value (self (take len ps) (take len ids)))))
    lens Dbl.one.

Definition first_logTarget (ps : list Position) : double :=
  match head ps with
  | Some p => logTarget p
  | None => nan
  end.

(** [min(1, (P_num / P_den) * exp(log_num - log_den))] with the log-density
    sums over the positions [ks] and the products over the prefix lengths
    [lens], of the reversed list for the numerators and of the list itself
    for the denominators. *)
Definition dram_ratio (self : list Position -> list nat -> W.t (V:=V) double)
    (tk : TKState V M) (ps : list Position) (ids : list nat) (ks lens : list nat)
    : double :=
  let rps := reverse ps in
  let rids := reverse ids in
  let log_num := PrimFloat.add (log_sum tk rps rids ks) (first_logTarget rps) in
  let log_den := PrimFloat.add (log_sum tk ps ids ks) (first_logTarget ps) in
  let P_num := complement_product self rps rids lens in
  let P_den := complement_product self ps ids lens in
  Dbl.std_min Dbl.one
    (PrimFloat.mul (PrimFloat.div P_num P_den)
       (std_exp (PrimFloat.sub log_num log_den))).

(** [lo + count - 1, ..., lo + 1, lo]. *)
Definition descending (lo count : nat) : list nat := reverse (seq lo count).

(** What the code computes for [m + 1] positions: the stage log-densities at
    the positions [m, ..., 1] (every position but the first, the last one
    included) and the complements for the prefix lengths [m, ..., 2]. *)
Definition alpha_vec_closed (tk : TKState V M) (ps : list Position) (ids : list nat)
    : double :=
  let m := length ps - 1 in
  dram_ratio (alpha_vec tk) tk ps ids (descending 1 m) (descending 2 (m - 1)).

(** The ratio as the specification words it: the stage log-densities at the
    intermediate positions [m-1, ..., 1] only. *)
Definition alpha_vec_intermediate_only (tk : TKState V M) (ps : list Position)
    (ids : list nat) : double :=
  let m := length ps - 1 in
  dram_ratio (alpha_vec tk) tk ps ids (descending 1 (m - 1)) (descending 2 (m - 1)).

(** The endpoint test of [alpha(vec)] (lines 2106-2144). *)
Definition degenerate_endpoints (first last : Position) : bool :=
  outOfTargetSupport first || outOfTargetSupport last
  || Dbl.inf_or_nan (logTarget first) || Dbl.inf_or_nan (logTarget last).
End DramFormula.

(** ** Vocabulary of the statements *)

(** [m] returns [a], with some warnings. *)
Definition w_returns {V A : Type} (m : W.t (V:=V) A) (a : A) : Prop :=
  exists w, m = Ok (a, w).

Section AlphaLoopVocabulary.
Context {V M Rng : Type} {libm : LibM} {build : BuildConfig}
  {tkg : BaseTKGroup V M Rng}.
Local Abbreviation Position := (MarkovChainPositionData V).

(** The variables of the loop of [alpha(vec)] after [i] turns. *)
Definition vars_at (self : list Position -> list nat -> W.t (V:=V) double)
    (tk : TKState V M) (ps : list Position) (ids : list nat) (i : nat) : AlphaVars :=
  let n := length ps in
  let m := n - 1 in
  let rps := reverse ps in
  let rids := reverse ids in
  mkAlphaVars (take (n - i) ps) (take (n - i) rps) (take (n - i) ids) (take (n - i) rids)
    (take (n - 1 - i) ids) (take (n - 1 - i) rids)
    (log_sum tk rps rids (descending (m - i) (S i)))
    (log_sum tk ps ids (descending (m - i) (S i)))
    (complement_product self rps rids (descending (S (m - i)) i))
    (complement_product self ps ids (descending (S (m - i)) i)).

(** The recursive call returns on every proper prefix of length at least 2
    of the list and of its reverse. *)
Definition self_returns (self : list Position -> list nat -> W.t (V:=V) double)
    (ps : list Position) (ids : list nat) : Prop :=
  forall len, 2 <= len < length ps ->
    (exists a, w_returns (self (take len ps) (take len ids)) a)
    /\ (exists a, w_returns (self (take len (reverse ps)) (take len (reverse ids))) a).
End AlphaLoopVocabulary.

(** The acceptance rule as the specification words it: draw [u], accept if
    and only if [u <= alpha]. *)
Definition accept_by_draw {Rng : Type} {rngb : RngBase Rng} (alpha : double) (rng : Rng)
    : bool * Rng :=
  let '(u, rng') := uniformSample rng in (PrimFloat.leb u alpha, rng').

Section EventVocabulary.
Context {V M : Type}.
Local Abbreviation Ev := (Event V M).

Definition is_target_call (e : Ev) : bool :=
  match e with EvTargetCall _ => true | _ => false end.
Definition is_dr_stage (e : Ev) : bool :=
  match e with EvDRStage _ => true | _ => false end.
Definition is_rejection (e : Ev) : bool :=
  match e with EvRejection _ => true | _ => false end.
(** A candidate record of the main step ([inDR = false]) or of a DR stage
    whose [out_of_support] flag is set. *)
Definition is_oos_candidate (inDR : bool) (e : Ev) : bool :=
  match e with
  | EvCandidate d c => Bool.eqb d inDR && outOfTargetSupport c
  | _ => false
  end.
(** A draw that fell outside the support. *)
Definition is_oos_draw (e : Ev) : bool :=
  match e with EvRealization _ oos => oos | _ => false end.
Definition is_am_event (e : Ev) : bool :=
  match e with
  | EvAdapt _ _ _ | EvChol _ _ _ | EvUpdateLawCov _ _ => true
  | _ => false
  end.

Definition count_events (p : Ev -> bool) (l : list Ev) : nat :=
  length (List.filter p l).

(** The counters after the events [delta]: each counter is incremented once
    for each event of its kind. *)
Definition bump (k : nat) (n : N) : N := Nat.iter k uint_incr n.
Definition bump_info (i : MHRawChainInfoStruct) (delta : list Ev) : MHRawChainInfoStruct :=
  mkInfo (bump (count_events is_target_call delta) (numTargetCalls i))
         (bump (count_events is_dr_stage delta) (numDRs i))
         (bump (count_events (is_oos_candidate false) delta) (numOutOfTargetSupport i))
         (bump (count_events (is_oos_candidate true) delta) (numOutOfTargetSupportInDR i))
         (bump (count_events is_rejection delta) (numRejections i)).
End EventVocabulary.

Section RunVocabulary.
Context {V M Rng : Type} {libm : LibM} {build : BuildConfig}
  {tkg : BaseTKGroup V M Rng} {rngb : RngBase Rng} {target : TargetPdf V}
  {space : VectorSpace V M} {env : BaseEnvironment}.
Variable opts : MhOptionsValues.
Local Abbreviation St := (Sampler V M Rng).

(** The sampler once [generateFullChain] has reset the counters (line 786);
    the log of the run starts empty. *)
Definition reset_state (s : St) : St := set_events [] (set_info info_reset s).

(** The adaptive state and the kernel's covariance. *)
Definition am_view (s : St) : double * option V * option M * M :=
  (m_lastChainSize s, m_lastMean s, m_lastAdaptedCovMatrix s, lawCovMatrix (m_tk s)).

(** An event the driver may produce: a target call is on a point of the
    support; a candidate record carries the support test of its values, has
    log-target [-inf] when it is out of the support, and is in the support
    when out-of-support draws are redrawn; an adaptation event needs
    adaptation to be enabled. *)
Definition event_ok (e : Event V M) : Prop :=
  match e with
  | EvTargetCall v => contains v = true
  | EvCandidate _ c =>
      outOfTargetSupport c = negb (contains (vecValues c))
      /\ (outOfTargetSupport c = true -> logTarget c = neg_infinity)
      /\ (m_putOutOfBoundsInChain opts = false -> outOfTargetSupport c = false)
  | EvAdapt _ _ _ | EvChol _ _ _ | EvUpdateLawCov _ _ => am_enabled opts = true
  | _ => True
  end.

(** An event that no counter counts. *)
Definition plain (e : Event V M) : Prop :=
  match e with
  | EvRealization _ _ => True
  | EvCandidate _ c => outOfTargetSupport c = false
  | _ => False
  end.

(** Events of draws only, and of the adaptation only. *)
Definition draws_only (d : list (Event V M)) : Prop :=
  Forall (fun e => exists v o, e = EvRealization v o) d.
Definition am_only (d : list (Event V M)) : Prop :=
  Forall (fun e => is_am_event e = true) d.

(** The events of a call of [candidate_for_stage] that set the candidate
    [c]: its draws, its target call when it is in the support, and its
    record. *)
Definition candidate_events (inDR : bool) (c : MarkovChainPositionData V)
    (d : list (Event V M)) : Prop :=
  exists dd, draws_only dd
    /\ d = EvCandidate inDR c
           :: (if outOfTargetSupport c then [] else [EvTargetCall (vecValues c)]) ++ dd.

(** The counts of the events of the DR loop after at most [k] stages, and
    of [n] chain positions. *)
Definition dr_counts (d : list (Event V M)) (k : nat) : Prop :=
  count_events is_dr_stage d <= k
  /\ count_events (is_oos_candidate true) d <= count_events is_dr_stage d
  /\ count_events (is_oos_candidate false) d = 0
  /\ count_events is_rejection d = 0.
Definition position_counts (d : list (Event V M)) (n : nat) : Prop :=
  count_events is_rejection d <= n
  /\ count_events (is_oos_candidate false) d <= count_events is_rejection d
  /\ count_events (is_oos_candidate true) d <= count_events is_dr_stage d
  /\ count_events is_dr_stage d <= m_drMaxNumExtraStages opts * n.

(** The joint count of the out-of-support candidates of [n] chain
    positions: a position counts one for its rejection and at most
    [m_drMaxNumExtraStages - 1] more, since the DR loop is entered only after
    a candidate of the support was rejected and a position that ends
    accepted ends on a candidate of the support. *)
Definition joint_counts (d : list (Event V M)) (n : nat) : Prop :=
  count_events (is_oos_candidate false) d + count_events (is_oos_candidate true) d
  <= count_events is_rejection d + (m_drMaxNumExtraStages opts - 1) * n.

(** What every piece of the driver guarantees between the state it starts
    in and the state it ends in, [delta] being the events it adds. *)
Definition step (s s' : St) (delta : list (Event V M)) : Prop :=
  events s' = delta ++ events s
  /\ Forall event_ok delta
  /\ (am_enabled opts = false -> am_view s' = am_view s)
  /\ m_rawChainInfo s' = bump_info (m_rawChainInfo s) delta.

(** [m], run from [s], keeps to [step], whether it returns or aborts, and
    [post] holds of what it returns and of the events it added. *)
Definition run_ok {A} (m : S.t (V:=V) (M:=M) (Rng:=Rng) A) (s : St)
    (post : A -> list (Event V M) -> Prop) : Prop :=
  match m s with
  | Returns a s' => exists delta, step s s' delta /\ post a delta
  | Aborts _ s' => exists delta, step s s' delta
  | OutOfFuel => True
  end.

(** The refresh of the proposal covariance as the specification words it:
    factorise [C_new = eta * last_cov]; on failure factorise
    [last_cov + epsilon * I]; if one of the two succeeds replace the
    kernel's covariance by [C_new], else leave it. *)
Definition refresh_as_specified (lastAdaptedCovMatrix : M) (tk : TKState V M)
    : TKState V M :=
  let c_new := mat_scale (m_amEta opts) lastAdaptedCovMatrix in
  if (chol c_new =? 0)%Z then updateLawCovMatrix tk c_new
  else if (chol (mat_add lastAdaptedCovMatrix (newDiagMatrix (m_amEpsilon opts))) =? 0)%Z
       then updateLawCovMatrix tk c_new
       else tk.
End RunVocabulary.

(** ** Vocabulary of the statements about whole runs

    The relations and invariants in which the further properties of the
    driver are stated and proved. *)

Section ChainVocabulary.
Context {V M Rng : Type} {libm : LibM} {build : BuildConfig}
  {tkg : BaseTKGroup V M Rng} {rngb : RngBase Rng} {target : TargetPdf V}
  {space : VectorSpace V M} {env : BaseEnvironment}.
Local Abbreviation St := (Sampler V M Rng).
Local Abbreviation Position := (MarkovChainPositionData V).
Local Abbreviation Mt := (S.t (V:=V) (M:=M) (Rng:=Rng)).

(** [m], run from [s], returns only values and states that satisfy [post]. *)
Definition returns_with {A} (m : Mt A) (s : St) (post : A -> St -> Prop) : Prop :=
  match m s with
  | Returns a s' => post a s'
  | _ => True
  end.

(** The position ids of the rejections in a log. *)
Definition rejection_ids (d : list (Event V M)) : list nat :=
  omap (fun e => match e with EvRejection i => Some i | _ => None end) d.

(** The calls of [updateAdaptedCovMatrix] in a log: the step, the id of the
    first position of the partial chain, and the partial chain. *)
Definition adapt_records (d : list (Event V M)) : list (nat * nat * list V) :=
  omap (fun e => match e with EvAdapt p f l => Some (p, f, l) | _ => None end) d.

(** [s'] comes after [s] in a run that, in between, wrote to none of the
    three sequences, counted no rejection and adapted nothing. *)
Definition quiet (s s' : St) : Prop :=
  workingChain s' = workingChain s
  /\ workingLogLikelihoodValues s' = workingLogLikelihoodValues s
  /\ workingLogTargetValues s' = workingLogTargetValues s
  /\ exists delta, events s' = delta ++ events s
       /\ rejection_ids delta = [] /\ adapt_records delta = [].

(** The partial chain [part] is what the chain holds from position [first]
    on. *)
Definition window_read (chain : list (option V)) (first : nat) (part : list V) : Prop :=
  forall j v, part !! j = Some v -> chain !! (first + j) = Some (Some v).

(** The position data of a point of the support on which the target was
    evaluated. *)
Definition evaluated_in_support (c : Position) : Prop :=
  outOfTargetSupport c = false
  /\ contains (vecValues c) = true
  /\ logLikelihood c = (callFunction (vecValues c)).2
  /\ logTarget c = ln_conv (callFunction (vecValues c)).1.1.

(** [c] was recorded as a candidate. *)
Definition recorded (c : Position) (d : list (Event V M)) : Prop :=
  exists inDR, EvCandidate inDR c ∈ d.

(** The entry of an optional scalar sequence at [i] is [x]. *)
Definition stored_at (l : option (list double)) (i : nat) (x : double) : Prop :=
  match l with
  | Some l => l !! i = Some x
  | None => True
  end.

(** What holds of the positions below [n] of the three sequences and of the
    log: each position is a point of the support, stored with the
    likelihood and target values the evaluator gave for it; from position 1
    on, it either was rejected and repeats the position before, or was not
    and holds a recorded candidate; no other rejection is in the log. *)
Definition chain_upto (s : St) (n : nat) : Prop :=
  (forall i, i < n ->
     exists v, workingChain s !! i = Some (Some v)
       /\ contains v = true
       /\ stored_at (workingLogLikelihoodValues s) i (callFunction v).2
       /\ stored_at (workingLogTargetValues s) i (ln_conv (callFunction v).1.1)
       /\ (0 < i ->
           ((i ∈ rejection_ids (events s)) /\ workingChain s !! (i - 1) = Some (Some v))
           \/ ((i ∉ rejection_ids (events s))
               /\ exists c, recorded c (events s)
                    /\ outOfTargetSupport c = false /\ vecValues c = v)))
  /\ (forall i, (i ∈ rejection_ids (events s)) -> 0 < i < n)
  /\ NoDup (rejection_ids (events s)).
End ChainVocabulary.

Section ChainInvariants.
Context {V M Rng : Type} {libm : LibM} {build : BuildConfig}
  {tkg : BaseTKGroup V M Rng} {rngb : RngBase Rng} {target : TargetPdf V}
  {space : VectorSpace V M} {env : BaseEnvironment}.
Variable opts : MhOptionsValues.
Local Abbreviation St := (Sampler V M Rng).
Local Abbreviation Position := (MarkovChainPositionData V).

(** What the DR loop keeps: an accepted candidate is a recorded, evaluated
    point of the support. *)
Definition dr_accepted_ok (d : DRVars (V:=V)) (s : St) : Prop :=
  dr_accept d = true ->
  evaluated_in_support (dr_currentCandidateData d)
  /\ recorded (dr_currentCandidateData d) (events s).

(** The record [r] of an adaptation obeys the schedule of its step, its
    window ends at its step at the latest, and its partial chain is what
    [chain] holds in the window. *)
Definition adaptation_ok (chain : list (option V)) (r : nat * nat * list V) : Prop :=
  am_enabled opts = true
  /\ (exists allocate, am_schedule opts r.1.1 = (r.1.2, length r.2, allocate))
  /\ 0 < length r.2
  /\ r.1.2 + length r.2 <= r.1.1 + 1
  /\ window_read chain r.1.2 r.2.

(** What one turn of the chain loop does to the sequences and to the log. *)
Definition position_written (positionId : nat) (cur cur' : Position) (s s' : St) : Prop :=
  positionId < length (workingChain s)
  /\ workingChain s' = <[positionId := Some (vecValues cur')]> (workingChain s)
  /\ workingLogLikelihoodValues s'
     = option_map (fun l => <[positionId := logLikelihood cur']> l)
         (workingLogLikelihoodValues s)
  /\ workingLogTargetValues s'
     = option_map (fun l => <[positionId := logTarget cur']> l)
         (workingLogTargetValues s)
  /\ exists delta, events s' = delta ++ events s
       /\ ((cur' = cur /\ rejection_ids delta = [positionId])
           \/ (rejection_ids delta = []
               /\ evaluated_in_support cur' /\ recorded cur' (events s')))
       /\ Forall (fun r => r.1.1 = positionId /\ adaptation_ok (workingChain s') r)
            (adapt_records delta).

(** The invariant of the chain loop at the head of turn [pos], for
    sequences of length [n]. *)
Definition loop_inv (x0 : V) (n pos : nat) (cur : Position) (s : St) : Prop :=
  length (workingChain s) = n
  /\ workingChain s !! 0 = Some (Some x0)
  /\ (forall l, workingLogLikelihoodValues s = Some l -> length l = n)
  /\ (forall l, workingLogTargetValues s = Some l -> length l = n)
  /\ chain_upto s pos
  /\ 0 < pos
  /\ workingChain s !! (pos - 1) = Some (Some (vecValues cur))
  /\ evaluated_in_support cur
  /\ Forall (fun r => r.1.1 < pos /\ adaptation_ok (workingChain s) r)
       (adapt_records (events s)).
End ChainInvariants.

Section TallyVocabulary.
Context {V M : Type}.
Local Abbreviation Ev := (Event V M).

(** A candidate record of the main step ([inDR = false]) or of a DR stage. *)
Definition is_candidate (inDR : bool) (e : Ev) : bool :=
  match e with
  | EvCandidate d _ => Bool.eqb d inDR
  | _ => false
  end.

(** The events [d] hold [k] candidates of the main step, one DR candidate
    for each DR stage, and for each candidate either one target call or one
    out-of-support count. *)
Definition tally (d : list Ev) (k : nat) : Prop :=
  count_events (is_candidate false) d = k
  /\ count_events (is_candidate true) d = count_events is_dr_stage d
  /\ count_events is_target_call d
     + count_events (is_oos_candidate false) d
     + count_events (is_oos_candidate true) d
     = count_events (is_candidate false) d + count_events (is_candidate true) d.
End TallyVocabulary.

Section TerminationVocabulary.
Context {V M Rng : Type}.
(** Whether a run was still redrawing candidates when its budget ended. *)
Definition ran_out {A} (o : Outcome V M Rng A) : bool :=
  match o with
  | OutOfFuel => true
  | _ => false
  end.

(** [m] never runs out of its redraw budget. *)
Definition finishes {A} (m : S.t (V:=V) (M:=M) (Rng:=Rng) A) : Prop :=
  forall s, ran_out (m s) = false.
End TerminationVocabulary.

Import String.StringSyntax.
Local Delimit Scope string_scope with string.

(** ** Writing the sequences to the output files

    The [subWriteContents] calls of a completed [generateSequence] that
    generates its chain (no input file is named).  [generateFullChain]
    counts in [m_numPositionsNotSubWritten] the positions set since the last
    write and, each time a whole output period is complete, asks the three
    sequences to write a block (lines 855-887 and 1277-1320); in its
    adaptation step it asks the adapted matrix to write itself (lines
    1398-1412); [generateSequence] asks for the remainder of the raw chain
    (lines 387-419) and, when the chain is filtered, for the filtered
    sequences (lines 619-650).  The calls are recorded in the order they are
    made; the sequence and matrix classes themselves, and so what a call
    writes, are outside the sources at hand. *)

Section RawChainOutput.

Record RawChainOutputOptions : Type := mkOutputOptions {
  m_rawChainSize : N;
  m_rawChainDataOutputPeriod : N;
  m_rawChainDataOutputFileName : String.string;
  m_totallyMute : bool;
  m_amAdaptedMatricesDataOutputPeriod : nat;
  m_amAdaptedMatricesDataOutputFileName : String.string;
  m_filteredChainGenerate : bool;
  m_filteredChainDataOutputFileName : String.string
}.

Inductive WrittenSequence : Type :=
  | WorkingChain
  | WorkingLogLikelihoodValues
  | WorkingLogTargetValues.

(** One call [subWriteContents(initialPos, numPos, fileName, ...)] on a
    sequence. *)
Record SubWrite : Type := mkSubWrite {
  sw_sequence : WrittenSequence;
  sw_initialPos : N;
  sw_numPos : N;
  sw_fileName : String.string
}.

(** A call of [subWriteContents]: on one of the three sequences, before or
    after [generateSequence] filtered them, or on [m_lastAdaptedCovMatrix]
    at step [positionId] (the variable is named [mat_am<positionId>] and the
    file [fileName_am<positionId>]). *)
Inductive SubWriteCall : Type :=
  | OnSequence (filtered : bool) (w : SubWrite)
  | OnAdaptedMatrix (positionId : N) (fileName : String.string).

(** [unsigned int] arithmetic. *)
Definition uint_add (a b : N) : N := ((a + b) mod 2 ^ 32)%N.
Definition uint_sub (a b : N) : N := ((a + 2 ^ 32 - b mod 2 ^ 32) mod 2 ^ 32)%N.

Variable ov : RawChainOutputOptions.
Variable opts : MhOptionsValues.
(** Whether the caller passed a sequence for the log-likelihood and the
    log-target values (the pointers may be null). *)
Variables workingLogLikelihoodValues_given workingLogTargetValues_given : bool.
(** The value of the macro [UQ_MH_SG_FILENAME_FOR_NO_FILE]. *)
Variable UQ_MH_SG_FILENAME_FOR_NO_FILE : String.string.
(** [workingChain.subSequenceSize()] after [workingChain.filter(...)]. *)
Variable filteredSize : N.

(** The calls on the chain and on the sequences of log values that are
    given, in the order of the source. *)
Definition subWriteContents_calls (filtered : bool) (fileName : String.string)
    (chainInitialPos otherInitialPos numPos : N) : list SubWriteCall :=
  [OnSequence filtered (mkSubWrite WorkingChain chainInitialPos numPos fileName)]
  ++ (if workingLogLikelihoodValues_given
      then [OnSequence filtered
              (mkSubWrite WorkingLogLikelihoodValues otherInitialPos numPos
                 (String.append fileName "_likelihood"%string))]
      else [])
  ++ (if workingLogTargetValues_given
      then [OnSequence filtered
              (mkSubWrite WorkingLogTargetValues otherInitialPos numPos
                 (String.append fileName "_target"%string))]
      else []).

(** What follows [setPositionValues(positionId, ...)] (lines 854-887 and
    1276-1320): the counter is incremented and, at the end of a period, a
    block is written and the counter reset.  The state is the counter and
    the calls made so far, oldest first. *)
Definition count_position (positionId : N) (st : N * list SubWriteCall)
    : N * list SubWriteCall :=
  let '(numPositionsNotSubWritten, written) := st in
  let numPositionsNotSubWritten := uint_incr numPositionsNotSubWritten in
  let period := m_rawChainDataOutputPeriod ov in
  if (0 <? period)%N
     && (uint_add positionId 1 mod period =? 0)%N
     && negb (String.eqb (m_rawChainDataOutputFileName ov) "."%string)
  then (0%N,
        written ++ subWriteContents_calls false (m_rawChainDataOutputFileName ov)
                     (uint_sub (uint_add positionId 1) period)
                     (uint_sub (uint_add 0 1) period)
                     period)
  else (numPositionsNotSubWritten, written).

(** [printAdaptedMatrix] (lines 1360-1383). *)
Definition printAdaptedMatrix (positionId : nat) : bool :=
  if positionId <? m_amInitialNonAdaptInterval opts then false
  else if positionId =? m_amInitialNonAdaptInterval opts then true
  else
    let interval := positionId - m_amInitialNonAdaptInterval opts in
    if interval mod m_amAdaptInterval opts =? 0 then
      (0 <? m_amAdaptedMatricesDataOutputPeriod ov)
      && (interval mod m_amAdaptedMatricesDataOutputPeriod ov =? 0)
    else false.

(** The write of the adapted matrix in the adaptation step (lines 1350-1412),
    made when the step adapts. *)
Definition adapted_matrix_write (positionId : N) (written : list SubWriteCall)
    : list SubWriteCall :=
  if am_enabled opts then
    let '(_, partialSize, _) := am_schedule opts (N.to_nat positionId) in
    if (0 <? partialSize)
       && printAdaptedMatrix (N.to_nat positionId)
       && negb (String.eqb (m_amAdaptedMatricesDataOutputFileName ov) "."%string)
    then written ++ [OnAdaptedMatrix positionId
                       (m_amAdaptedMatricesDataOutputFileName ov)]
    else written
  else written.

(** [turns] turns of the loop over the positions, from [positionId] on. *)
Fixpoint count_positions (turns : nat) (positionId : N)
    (st : N * list SubWriteCall) : N * list SubWriteCall :=
  match turns with
  | O => st
  | S turns' =>
      let '(numPositionsNotSubWritten, written) := count_position positionId st in
      count_positions turns' (uint_add positionId 1)
        (numPositionsNotSubWritten, adapted_matrix_write positionId written)
  end.

(** The counter and the calls at the end of a completed
    [generateFullChain]; on a rank that waits at the barrier only position 0
    is counted and no step adapts. *)
Definition generateFullChain_writes (waits : bool) (chainSize : N)
    : N * list SubWriteCall :=
  let st := count_position 0 (0%N, []) in
  if waits then st
  else count_positions (N.to_nat chainSize - 1) 1 st.

(** Lines 370-419 of [generateSequence]: the positions of the raw chain not
    yet written. *)
Definition generateSequence_final_write (st : N * list SubWriteCall)
    : N * list SubWriteCall :=
  let '(numPositionsNotSubWritten, written) := st in
  if negb (String.eqb (m_rawChainDataOutputFileName ov) UQ_MH_SG_FILENAME_FOR_NO_FILE)
     && negb (m_totallyMute ov)
  then
    if (0 <? numPositionsNotSubWritten)%N
       && negb (String.eqb (m_rawChainDataOutputFileName ov) "."%string)
    then
      let initialPos := uint_sub (m_rawChainSize ov) numPositionsNotSubWritten in
      (0%N, written ++ subWriteContents_calls false (m_rawChainDataOutputFileName ov)
                         initialPos initialPos numPositionsNotSubWritten)
    else st
  else st.

(** Lines 589-650 of [generateSequence]: the filtered sequences. *)
Definition generateSequence_filtered_write (st : N * list SubWriteCall)
    : N * list SubWriteCall :=
  let '(numPositionsNotSubWritten, written) := st in
  if m_filteredChainGenerate ov then
    if negb (String.eqb (m_filteredChainDataOutputFileName ov)
               UQ_MH_SG_FILENAME_FOR_NO_FILE)
       && negb (m_totallyMute ov)
    then
      (numPositionsNotSubWritten,
       written ++ subWriteContents_calls true (m_filteredChainDataOutputFileName ov)
                    0 0 filteredSize)
    else st
  else st.

(** The [subWriteContents] calls of [generateSequence] when no input file is
    named: the chain is generated with [m_rawChainSize] positions, the
    remainder of the raw chain is written, then the filtered sequences. *)
Definition generateSequence_writes (waits : bool) : N * list SubWriteCall :=
  generateSequence_filtered_write
    (generateSequence_final_write
       (generateFullChain_writes waits (m_rawChainSize ov))).

(** The calls on the sequences before they were filtered, the calls after,
    and the steps at which the adapted matrix was written. *)
Definition raw_calls (written : list SubWriteCall) : list SubWrite :=
  omap (fun c => match c with OnSequence false w => Some w | _ => None end) written.
Definition filtered_calls (written : list SubWriteCall) : list SubWrite :=
  omap (fun c => match c with OnSequence true w => Some w | _ => None end) written.
Definition matrix_calls (written : list SubWriteCall) : list N :=
  omap (fun c => match c with OnAdaptedMatrix p _ => Some p | _ => None end) written.

(** The positions [initialPos, initialPos + numPos) a call asks for. *)
Definition positions_of (w : SubWrite) : list N :=
  map (fun k => (sw_initialPos w + N.of_nat k)%N) (seq 0 (N.to_nat (sw_numPos w))).

Definition is_sequence (q : WrittenSequence) (w : SubWrite) : bool :=
  match q, sw_sequence w with
  | WorkingChain, WorkingChain => true
  | WorkingLogLikelihoodValues, WorkingLogLikelihoodValues => true
  | WorkingLogTargetValues, WorkingLogTargetValues => true
  | _, _ => false
  end.

(** The calls on the raw (not yet filtered) sequence [q], and the positions
    they ask for. *)
Definition calls_on (q : WrittenSequence) (written : list SubWriteCall)
    : list SubWrite :=
  List.filter (is_sequence q) (raw_calls written).

Definition positions_written (q : WrittenSequence) (written : list SubWriteCall)
    : list N :=
  concat (map positions_of (calls_on q written)).

Definition first_positions (n : N) : list N := map N.of_nat (seq 0 (N.to_nat n)).

(** The state after [d] positions have been counted. *)
Definition counted (d : N) (st : N * list SubWriteCall) : Prop :=
  let period := m_rawChainDataOutputPeriod ov in
  let periodic :=
    (0 <? period)%N && negb (String.eqb (m_rawChainDataOutputFileName ov) "."%string) in
  st.1 = (if periodic then d mod period else d)%N
  /\ positions_written WorkingChain st.2 = first_positions (d - st.1)
  /\ filtered_calls st.2 = [].

(** The blocks asked for after [d] positions have been counted: the chain's
    start at the multiples of the period, those of the two sequences of log
    values at [0 + 1 - period]. *)
Definition chain_block (k : nat) : SubWrite :=
  mkSubWrite WorkingChain (N.of_nat k * m_rawChainDataOutputPeriod ov)
    (m_rawChainDataOutputPeriod ov) (m_rawChainDataOutputFileName ov).

Definition log_block (q : WrittenSequence) (suffix : String.string) : SubWrite :=
  mkSubWrite q (uint_sub 1 (m_rawChainDataOutputPeriod ov))
    (m_rawChainDataOutputPeriod ov)
    (String.append (m_rawChainDataOutputFileName ov) suffix).

Definition blocks (d : N) (written : list SubWriteCall) : Prop :=
  let n := N.to_nat (d / m_rawChainDataOutputPeriod ov) in
  calls_on WorkingChain written = map chain_block (seq 0 n)
  /\ calls_on WorkingLogLikelihoodValues written
     = (if workingLogLikelihoodValues_given
        then replicate n (log_block WorkingLogLikelihoodValues "_likelihood"%string)
        else [])
  /\ calls_on WorkingLogTargetValues written
     = (if workingLogTargetValues_given
        then replicate n (log_block WorkingLogTargetValues "_target"%string)
        else []).

(** The calls that write the filtered sequences. *)
Definition filtered_blocks : list SubWrite :=
  let fileName := m_filteredChainDataOutputFileName ov in
  [mkSubWrite WorkingChain 0 filteredSize fileName]
  ++ (if workingLogLikelihoodValues_given
      then [mkSubWrite WorkingLogLikelihoodValues 0 filteredSize
              (String.append fileName "_likelihood"%string)]
      else [])
  ++ (if workingLogTargetValues_given
      then [mkSubWrite WorkingLogTargetValues 0 filteredSize
              (String.append fileName "_target"%string)]
      else []).
End RawChainOutput.

(** ** A one-dimensional instance

    Vectors and matrices are single doubles, the generator replays a script
    of doubles (proposal increments and uniform samples, in the order they
    are asked for), the kernel proposes the stage's centre plus the next
    increment.  It is used to run the sampler on concrete inputs. *)

Module Toy.

(** [std::exp] at the arguments where its value is exact and fixed by
    IEEE 754 / C Annex F: [exp(+-0) = 1], [exp(-inf) = +0],
    [exp(+inf) = +inf], [exp(NaN) = NaN].  The runs below only call it
    there; elsewhere it answers NaN. *)
Definition exp_at_special (x : double) : double :=
  if PrimFloat.eqb x 0%float then 1%float
  else if PrimFloat.eqb x infinity then infinity
  else if PrimFloat.eqb x neg_infinity then 0%float
  else nan.

#[export] Instance libm : LibM := {| std_exp := exp_at_special |}.
#[export] Instance build : BuildConfig := {| expects_ln_likelihood := true |}.

Definition next (script : list double) : double * list double :=
  match script with
  | [] => (0%float, [])
  | z :: script' => (z, script')
  end.

#[export] Instance rng : RngBase (list double) := {| uniformSample := next |}.

Definition centre (tk : TKState double double) (stageId : nat) : double :=
  default 0%float (preComputingPositions tk !! stageId).

Definition propose (tk : TKState double double) (stageId : nat) (script : list double)
  : double * list double :=
  let '(z, script') := next script in (PrimFloat.add (centre tk stageId) z, script').

(** A symmetric kernel whose log-densities are all 0. *)
#[export] Instance tk_flat : BaseTKGroup double double (list double) := {|
  symmetric := true;
  preComputingPositionIsValid _ _ _ := true;
  rv_lnValue _ _ _ := 0%float;
  rvs_lnValue _ _ _ := 0%float;
  rv_realization tk stageId := propose tk stageId;
  rvs_realization tk stageIds := propose tk (default 0 (head stageIds))
|}.

(** The same kernel, but for one stage-2 density: the proposal for the stage
    ids [2; 1] has density 0 (log-density [-inf]) everywhere. *)
Definition tk_blocked : BaseTKGroup double double (list double) := {|
  symmetric := true;
  preComputingPositionIsValid _ _ _ := true;
  rv_lnValue _ _ _ := 0%float;
  rvs_lnValue _ stageIds _ :=
    if decide (stageIds = [2; 1]) then neg_infinity else 0%float;
  rv_realization tk stageId := propose tk stageId;
  rvs_realization tk stageIds := propose tk (default 0 (head stageIds))
|}.

Definition NOT_POS_DEFINITE : Z := (-9)%Z.

#[export] Instance space : VectorSpace double double := {|
  zeroVector := 0%float;
  newVector := 0%float;
  newMatrix := 0%float;
  newDiagMatrix eps := eps;
  numOfProcsForStorage _ := 1;
  vec_sub := PrimFloat.sub;
  vec_add := PrimFloat.add;
  vec_scale := PrimFloat.mul;
  matrixProduct := PrimFloat.mul;
  mat_add := PrimFloat.add;
  mat_scale := PrimFloat.mul;
  mat_div := PrimFloat.div;
  subMeanPlain l := PrimFloat.div (fold_left PrimFloat.add l 0%float) (Dbl.of_nat (length l));
  chol c := if PrimFloat.ltb 0%float c then 0%Z else NOT_POS_DEFINITE;
  UQ_MATRIX_IS_NOT_POS_DEFINITE_RC := NOT_POS_DEFINITE
|}.

#[export] Instance env : BaseEnvironment := {|
  numSubEnvironments := 1;
  fullComm_NumProc := 1;
  subRank := 0
|}.

(** Targets.  [everywhere]: the support is the whole line, log-target 0.
    The others are on the half line [x >= 0].  [flat]: log-target 0.
    [nan_at_5]: the evaluator answers NaN at 5.  [zero_density_above_1]:
    log-target [-inf] above 1. *)
Definition nonneg (x : double) : bool := PrimFloat.leb 0%float x.

Definition flat : TargetPdf double := {|
  contains := nonneg;
  callFunction _ := (0%float, 0%float, 0%float)
|}.

Definition everywhere : TargetPdf double := {|
  contains _ := true;
  callFunction _ := (0%float, 0%float, 0%float)
|}.

Definition nan_at_5 : TargetPdf double := {|
  contains := nonneg;
  callFunction x :=
    if PrimFloat.eqb x 5%float then (nan, 0%float, nan) else (0%float, 0%float, 0%float)
|}.

Definition zero_density_above_1 : TargetPdf double := {|
  contains := nonneg;
  callFunction x :=
    if PrimFloat.ltb 1%float x then (neg_infinity, 0%float, neg_infinity)
    else (0%float, 0%float, 0%float)
|}.

(** A freshly constructed sampler (the constructor's initialisers at lines
    1725-1733) with the kernel's initial covariance, the generator's script
    and an empty chain. *)
Definition fresh (cov : double) (script : list double)
  : Sampler double double (list double) :=
  mkSampler script (mkTK cov ∅) info_reset 0%float None None [] None None [] [].

(** Options: plain Metropolis-Hastings (no DR, no AM). *)
Definition mh_options (putOutOfBoundsInChain : bool) : MhOptionsValues :=
  mkOptions 0 false false 0 0 1%float 0%float putOutOfBoundsInChain.

(** Options: DR with [K] extra stages, AM off. *)
Definition dr_options (K : nat) (putOutOfBoundsInChain : bool) : MhOptionsValues :=
  mkOptions K false false 0 0 1%float 0%float putOutOfBoundsInChain.

(** Options: AM with the given intervals, [eta] and [epsilon], no DR. *)
Definition am_options (init adapt : nat) (eta eps : double) : MhOptionsValues :=
  mkOptions 0 false false init adapt eta eps false.

(** Three positions in the support, at 10, 11 and 12, registered under the
    stage ids 0, 1 and 2; the log-target is 0 at the two ends and [-inf] in
    the middle. *)
Definition in_support_at (x logTarget : double) : MarkovChainPositionData double :=
  mkPosition x false 0%float logTarget.
Definition three_positions : list (MarkovChainPositionData double) :=
  [in_support_at 10%float 0%float; in_support_at 11%float neg_infinity;
   in_support_at 12%float 0%float].
Definition three_registered : TKState double double :=
  mkTK 1%float (<[0 := 10%float]> (<[1 := 11%float]> (<[2 := 12%float]> ∅))).

(** What is observed of a run: the chain, the counters, the warnings, the
    kernel's covariance and the events in the order they happened; or the
    fatal error. *)
Definition observe {A} (o : Outcome double double (list double) A)
  : option (list (option double) * MHRawChainInfoStruct * list (Warning double)
            * double * list (Event double double) + FatalError) :=
  match o with
  | Returns _ s =>
      Some (inl (workingChain s, m_rawChainInfo s, cerr s, lawCovMatrix (m_tk s),
                 reverse (events s)))
  | Aborts e _ => Some (inr e)
  | OutOfFuel => None
  end.

(** The counters of a run that returned, the log of a run in the order the
    events happened, and the adaptation events in it. *)
Definition counters {A} (o : Outcome double double (list double) A)
  : option MHRawChainInfoStruct :=
  match o with
  | Returns _ s => Some (m_rawChainInfo s)
  | _ => None
  end.
Definition log {A} (o : Outcome double double (list double) A)
  : list (Event double double) :=
  match o with
  | Returns _ s | Aborts _ s => reverse (events s)
  | OutOfFuel => []
  end.
Definition adaptations {A} (o : Outcome double double (list double) A)
  : list (Event double double) :=
  List.filter (fun e => match e with EvAdapt _ _ _ => true | _ => false end) (log o).

(** Runs of the driver from the initial point 0.
    [nan_run]: three positions on [nan_at_5], the first proposal at 5.
    [dr_run]: three positions with three extra stages, out-of-bounds
    candidates kept; each main candidate is at 2, where the density is 0,
    and each stage candidate is at -5, out of the support.
    [redraw_run]: two positions, out-of-bounds candidates not kept; the
    first draw is at -1, the second at 1.
    [plain_run]: ten positions, every proposal one step to the right.
    [am_run]: seven positions, adaptation seeded at step 2 and updated
    every 2 steps, with [eta = 2] and [epsilon = 2^-20]. *)
Definition nan_run : Outcome double double (list double) unit :=
  generateFullChain (target := nan_at_5) (mh_options false) 5 0%float 3
    (fresh 1%float [5%float; 1%float]).
Definition dr_run : Outcome double double (list double) unit :=
  generateFullChain (target := zero_density_above_1) (dr_options 3 true) 5 0%float 3
    (fresh 1%float
       [2%float; (-5)%float; (-5)%float; (-5)%float;
        2%float; (-5)%float; (-5)%float; (-5)%float]).
Definition redraw_run : Outcome double double (list double) unit :=
  generateFullChain (target := flat) (mh_options false) 5 0%float 2
    (fresh 1%float [(-1)%float; 1%float]).
Definition plain_run : Outcome double double (list double) unit :=
  generateFullChain (target := everywhere) (mh_options false) 1 0%float 10
    (fresh 1%float (replicate 9 1%float)).
Definition am_run : Outcome double double (list double) unit :=
  generateFullChain (target := flat) (am_options 2 2 2%float 0x1p-20%float) 5 0%float 7
    (fresh 1%float (replicate 6 1%float)).

(** The refresh of the proposal covariance at step 4, from the adapted
    covariance 0 (a chain that has not moved), with [eta = 2] and
    [epsilon = 2^-20]. *)
Definition refresh_run : Outcome double double (list double) unit :=
  refresh_proposal_covariance (am_options 2 2 2%float 0x1p-20%float) 4 0%float
    (fresh 1%float []).

(** A rank that waits at the barrier: more processors than
    sub-environments, and a sub-rank other than 0. *)
Definition helper_env : BaseEnvironment := {|
  numSubEnvironments := 1;
  fullComm_NumProc := 2;
  subRank := 1
|}.

(** A kernel that proposes -1 whatever its state and the generator's. *)
Definition tk_stuck : BaseTKGroup double double (list double) := {|
  symmetric := true;
  preComputingPositionIsValid _ _ _ := true;
  rv_lnValue _ _ _ := 0%float;
  rvs_lnValue _ _ _ := 0%float;
  rv_realization _ _ script := ((-1)%float, script);
  rvs_realization _ _ script := ((-1)%float, script)
|}.

(** The state a run ended in. *)
Definition final {A} (o : Outcome double double (list double) A)
  : Sampler double double (list double) :=
  match o with
  | Returns _ s | Aborts _ s => s
  | OutOfFuel => fresh 0%float []
  end.

(** A sampler that is handed the two optional scalar sequences. *)
Definition with_logs (s : Sampler double double (list double))
  : Sampler double double (list double) :=
  set_logs (Some []) (Some []) s.

(** [logged_run]: [nan_run] with the two scalar sequences.
    [barrier_run]: four positions on a rank that waits at the barrier.
    [stuck_run]: three positions with the kernel [tk_stuck], out-of-bounds
    candidates not kept. *)
Definition logged_run : Outcome double double (list double) unit :=
  generateFullChain (target := nan_at_5) (mh_options false) 5 0%float 3
    (with_logs (fresh 1%float [5%float; 1%float])).
Definition barrier_run : Outcome double double (list double) unit :=
  generateFullChain (env := helper_env) (target := flat) (mh_options false) 0 2%float 4
    (fresh 1%float []).
Definition stuck_run (fuel : nat) : Outcome double double (list double) unit :=
  generateFullChain (tkg := tk_stuck) (target := flat) (mh_options false) fuel 0%float 3
    (fresh 1%float []).


(** A chain of ten positions written every [period] positions; the adapted
    matrices are written every two adaptations and the chain is filtered. *)
Definition output_options (period : N) (fileName : String.string) (mute : bool)
    : RawChainOutputOptions :=
  mkOutputOptions 10 period fileName mute 2 "mat"%string true "filt"%string.
End Toy.

(** * Facts about the acceptance functions *)

Section WFacts.
Context {V : Type}.
Local Abbreviation Wt := (W.t (V:=V)).

Lemma w_returns_ret {A} (a : A) : w_returns (V:=V) (W.ret a) a.
Proof. by exists []. Qed.

Lemma w_returns_bind {A B} (m : Wt A) (k : A -> Wt B) a b :
  w_returns m a -> w_returns (k a) b -> w_returns (W.bind m k) b.
Proof.
  intros [w ->] [w' Hk]. exists (w ++ w'). unfold W.bind. by rewrite Hk.
Qed.

Lemma w_returns_value (m : Wt double) a : w_returns m a -> W.value m = a.
Proof. by intros [w ->]. Qed.

Lemma w_bind_ok_inv {A B} (m : Wt A) (k : A -> Wt B) b w :
  W.bind m k = Ok (b, w) ->
  exists a w1 w2, m = Ok (a, w1) /\ k a = Ok (b, w2) /\ w = w1 ++ w2.
Proof.
  unfold W.bind. destruct m as [[a w1]|e]; [|done].
  destruct (k a) as [[b' w2]|e] eqn:Hk; [|done].
  intros [= <- <-]. by exists a, w1, w2.
Qed.

Lemma w_bind_congr {A B} (m : Wt A) (k1 k2 : A -> Wt B) :
  (forall a w, m = Ok (a, w) -> k1 a = k2 a) -> W.bind m k1 = W.bind m k2.
Proof.
  intros Hk. unfold W.bind. destruct m as [[a w]|e]; [|done].
  by rewrite (Hk a w).
Qed.

Lemma w_at_returns {A} (l : list A) i a :
  l !! i = Some a -> w_returns (V:=V) (W.at_ l i) a.
Proof. intros Hl. unfold W.at_. rewrite Hl. apply w_returns_ret. Qed.

Lemma w_mapM_returns {A B} (f : A -> Wt B) (g : A -> B) (l : list A) :
  (forall a, a ∈ l -> w_returns (f a) (g a)) -> w_returns (W.mapM f l) (g <$> l).
Proof.
  induction l as [|a l IH]; intros Hf; simpl.
  - apply w_returns_ret.
  - eapply w_returns_bind; [apply Hf; left|].
    eapply w_returns_bind; [apply IH; intros; apply Hf; by right|].
    apply w_returns_ret.
Qed.
End WFacts.

Section CopyFacts.
Context {V B : Type}.
Local Abbreviation Wt := (W.t (V:=V)).

Lemma w_mapM_seq_returns (f : nat -> Wt B) (l : list B) lo :
  (forall i x, l !! i = Some x -> w_returns (f (lo + i)) x) ->
  w_returns (W.mapM f (seq lo (length l))) l.
Proof.
  revert lo. induction l as [|b l IH]; intros lo Hf; simpl.
  - apply w_returns_ret.
  - eapply w_returns_bind.
    { specialize (Hf 0 b eq_refl). by rewrite Nat.add_0_r in Hf. }
    eapply w_returns_bind; [|apply w_returns_ret].
    apply IH. intros i x Hx. replace (S lo + i) with (lo + S i) by lia. by apply Hf.
Qed.

Lemma copy_forward_returns (l : list B) :
  w_returns (V:=V) (copy_forward l (length l)) l.
Proof.
  unfold copy_forward. apply w_mapM_seq_returns.
  intros i x Hx. by apply w_at_returns.
Qed.

Lemma copy_backward_returns (l : list B) :
  w_returns (V:=V) (copy_backward l (length l)) (reverse l).
Proof.
  unfold copy_backward.
  pose proof (w_mapM_seq_returns (fun i => W.at_ l (length l - i - 1)) (reverse l) 0) as H.
  rewrite length_reverse in H. apply H. intros i x Hx. apply w_at_returns.
  apply reverse_lookup_Some in Hx as [Hx Hi]. simpl.
  replace (length l - i - 1) with (length l - S i) by lia. done.
Qed.
End CopyFacts.

Section AlphaVecFacts.
Context {V M Rng : Type} {libm : LibM} {build : BuildConfig}
  {tkg : BaseTKGroup V M Rng}.

Local Abbreviation Position := (MarkovChainPositionData V).
Local Abbreviation Wt := (W.t (V:=V)).

Lemma pop_back_take {A} (l : list A) n :
  n <= length l -> pop_back (take n l) = take (n - 1) l.
Proof.
  intros Hn. unfold pop_back. rewrite take_take, length_take. f_equal. lia.
Qed.

Lemma pop_back_full {A} (l : list A) : pop_back l = take (length l - 1) l.
Proof. done. Qed.

Lemma preComputingPosition_returns (tk : TKState V M) id v :
  preComputingPositions tk !! id = Some v ->
  w_returns (preComputingPosition tk id) v.
Proof. intros Hv. unfold preComputingPosition. rewrite Hv. apply w_returns_ret. Qed.

Lemma descending_snoc lo c : descending lo (S c) = descending (S lo) c ++ [lo].
Proof. unfold descending. simpl. apply reverse_cons. Qed.

Lemma log_sum_snoc (tk : TKState V M) ps ids ks k :
  log_sum tk ps ids (ks ++ [k])
  = PrimFloat.add (log_sum tk ps ids ks) (stage_log_density tk ps ids k).
Proof. unfold log_sum. by rewrite fold_left_app. Qed.

Lemma complement_product_snoc (self : list Position -> list nat -> Wt double)
    ps ids lens len :
  complement_product self ps ids (lens ++ [len])
  = PrimFloat.mul (complement_product self ps ids lens)
      (PrimFloat.sub Dbl.one (W.value (self (take len ps) (take len ids)))).
Proof. unfold complement_product. by rewrite fold_left_app. Qed.

Lemma alpha_loop_body_step self tk ps ids i :
  length ids = length ps -> stage_ids_match tk ps ids -> S (S i) < length ps ->
  self_returns self ps ids ->
  w_returns (alpha_loop_body self tk (length ps) i (vars_at self tk ps ids i))
            (vars_at self tk ps ids (S i)).
Proof.
  intros Hlen Hmatch Hi Hself.
  set (n := length ps) in *.
  assert (Hrmatch : stage_ids_match tk (reverse ps) (reverse ids))
    by (by apply Forall2_reverse).
  destruct (lookup_lt_is_Some_2 ps (n - 2 - i)) as [pf Hpf]; [lia|].
  destruct (lookup_lt_is_Some_2 (reverse ps) (n - 2 - i)) as [pb Hpb];
    [rewrite length_reverse; lia|].
  destruct (Forall2_lookup_l _ _ _ _ _ Hmatch Hpf) as (fid & Hfid & Hf).
  destruct (Forall2_lookup_l _ _ _ _ _ Hrmatch Hpb) as (bid & Hbid & Hb).
  destruct (Hself (n - 1 - i)) as [[af Haf] [ab Hab]]; [lia|].
  unfold alpha_loop_body.
  eapply w_returns_bind.
  { apply w_at_returns. simpl. fold n. rewrite lookup_take_lt by lia. exact Hfid. }
  eapply w_returns_bind. { apply preComputingPosition_returns. exact Hf. }
  eapply w_returns_bind.
  { apply w_at_returns. simpl. fold n. rewrite lookup_take_lt by lia. exact Hbid. }
  eapply w_returns_bind. { apply preComputingPosition_returns. exact Hb. }
  simpl. fold n.
  rewrite !pop_back_take by (rewrite ?length_reverse; lia).
  replace (n - i - 1) with (n - 1 - i) by lia.
  eapply w_returns_bind; [exact Hab|].
  eapply w_returns_bind; [exact Haf|].
  match goal with |- w_returns (W.ret ?x) ?y => replace y with x; [apply w_returns_ret|] end.
  unfold vars_at. fold n.
  replace (n - 1 - S i) with (n - 1 - i - 1) by lia.
  replace (n - S i) with (n - 1 - i) by lia.
  replace (descending (n - 1 - i - 1) (S (S i)))
    with (descending (n - 1 - i) (S i) ++ [n - 2 - i]).
  2: { rewrite (descending_snoc (n - 1 - i - 1)). do 2 f_equal; lia. }
  replace (descending (S (n - 1 - i - 1)) (S i))
    with (descending (S (n - 1 - i)) i ++ [n - 1 - i]).
  2: { rewrite (descending_snoc (S (n - 1 - i - 1))). do 2 f_equal; lia. }
  rewrite !log_sum_snoc, !complement_product_snoc.
  rewrite (w_returns_value _ _ Hab), (w_returns_value _ _ Haf).
  unfold stage_log_density. rewrite Hpf, Hpb.
  replace (n - 1 - i - 1) with (n - 2 - i) by lia.
  reflexivity.
Qed.

Lemma alpha_loop_returns self tk ps ids turns i :
  length ids = length ps -> stage_ids_match tk ps ids ->
  self_returns self ps ids ->
  2 + i + turns = length ps ->
  w_returns (alpha_loop self tk (length ps) turns i (vars_at self tk ps ids i))
            (vars_at self tk ps ids (i + turns)).
Proof.
  intros Hlen Hmatch Hself. revert i.
  induction turns as [|turns IH]; intros i Hi; simpl.
  - rewrite Nat.add_0_r. apply w_returns_ret.
  - eapply w_returns_bind.
    + apply alpha_loop_body_step; [done..|lia|done].
    + replace (i + S turns) with (S i + turns) by lia. apply IH. lia.
Qed.

Lemma degenerate_endpoints_false (first last : Position) :
  degenerate_endpoints first last = false ->
  outOfTargetSupport first = false /\ outOfTargetSupport last = false
  /\ Dbl.inf_or_nan (logTarget first) = false /\ Dbl.inf_or_nan (logTarget last) = false.
Proof.
  unfold degenerate_endpoints. intros Hd.
  apply orb_false_elim in Hd as [Hd Hd4]. apply orb_false_elim in Hd as [Hd Hd3].
  apply orb_false_elim in Hd as [Hd1 Hd2]. done.
Qed.

Lemma alpha_vec_body_short self (tk : TKState V M) ps ids :
  length ps < 2 -> alpha_vec_body self tk ps ids = Fatal AlphaInputTooShort.
Proof.
  intros Hn. unfold alpha_vec_body.
  destruct (Nat.ltb_spec (length ps) 2); [done|lia].
Qed.

Lemma alpha_vec_body_degenerate self (tk : TKState V M) ps ids first last :
  2 <= length ps ->
  ps !! 0 = Some first -> ps !! (length ps - 1) = Some last ->
  degenerate_endpoints first last = true ->
  w_returns (alpha_vec_body self tk ps ids) Dbl.zero.
Proof.
  intros Hn Hfirst Hl Hdeg. unfold alpha_vec_body.
  destruct (Nat.ltb_spec (length ps) 2); [lia|].
  eapply w_returns_bind; [by apply w_at_returns|].
  eapply w_returns_bind; [by apply w_at_returns|].
  unfold degenerate_endpoints in Hdeg.
  destruct (outOfTargetSupport first); [apply w_returns_ret|].
  destruct (outOfTargetSupport last); [apply w_returns_ret|].
  destruct (Dbl.inf_or_nan (logTarget first)).
  { eapply w_returns_bind; [by eexists|apply w_returns_ret]. }
  destruct (Dbl.inf_or_nan (logTarget last)); [|done].
  eapply w_returns_bind; [by eexists|apply w_returns_ret].
Qed.

Lemma alpha_vec_body_two self (tk : TKState V M) ps ids first last id0 id1 :
  length ps = 2 ->
  ps !! 0 = Some first -> ps !! 1 = Some last ->
  ids !! 0 = Some id0 -> ids !! 1 = Some id1 ->
  degenerate_endpoints first last = false ->
  alpha_vec_body self tk ps ids
  = Ok ((alpha_xy tk first last id0 id1).1.1, (alpha_xy tk first last id0 id1).2).
Proof.
  intros Hn Hfirst Hl Hi0 Hi1 Hdeg.
  apply degenerate_endpoints_false in Hdeg as (Ho1 & Ho2 & Hb1 & Hb2).
  unfold alpha_vec_body. rewrite Hn. simpl.
  unfold W.at_. rewrite Hfirst, Hl, Hi0, Hi1. simpl.
  rewrite Ho1, Ho2, Hb1, Hb2.
  destruct (alpha_xy tk first last id0 id1) as [[a q] w]. done.
Qed.

Lemma alpha_vec_body_general self (tk : TKState V M) ps ids first last :
  3 <= length ps -> length ids = length ps ->
  ps !! 0 = Some first -> ps !! (length ps - 1) = Some last ->
  degenerate_endpoints first last = false ->
  stage_ids_match tk ps ids -> self_returns self ps ids ->
  w_returns (alpha_vec_body self tk ps ids)
    (dram_ratio self tk ps ids (descending 1 (length ps - 1))
       (descending 2 (length ps - 2))).
Proof.
  intros Hn Hlen Hfirst Hl Hdeg Hmatch Hself.
  apply degenerate_endpoints_false in Hdeg as (Ho1 & Ho2 & Hb1 & Hb2).
  assert (Hrmatch : stage_ids_match tk (reverse ps) (reverse ids))
    by (by apply Forall2_reverse).
  assert (Hr0 : reverse ps !! 0 = Some last).
  { apply reverse_lookup_Some. split; [|lia].
    by replace (length ps - 1) with (length ps - 1) by lia. }
  assert (Hrl : reverse ps !! (length ps - 1) = Some first).
  { apply reverse_lookup_Some. split; [|lia].
    by replace (length ps - S (length ps - 1)) with 0 by lia. }
  destruct (Forall2_lookup_l _ _ _ _ _ Hmatch Hl) as (fid & Hfid & Hf).
  destruct (Forall2_lookup_l _ _ _ _ _ Hrmatch Hrl) as (bid & Hbid & Hb).
  unfold alpha_vec_body.
  destruct (Nat.ltb_spec (length ps) 2); [lia|].
  eapply w_returns_bind; [by apply w_at_returns|].
  eapply w_returns_bind; [by apply w_at_returns|].
  rewrite Ho1, Ho2, Hb1, Hb2.
  destruct (Nat.eqb_spec (length ps) 2); [lia|].
  eapply w_returns_bind; [apply copy_forward_returns|].
  eapply w_returns_bind; [apply copy_backward_returns|].
  eapply w_returns_bind; [rewrite <- Hlen; apply copy_forward_returns|].
  eapply w_returns_bind; [rewrite <- Hlen; apply copy_backward_returns|].
  eapply w_returns_bind; [by apply w_at_returns|].
  eapply w_returns_bind; [by apply preComputingPosition_returns|].
  eapply w_returns_bind; [by apply w_at_returns|].
  eapply w_returns_bind; [by apply preComputingPosition_returns|].
  eapply w_returns_bind.
  { match goal with |- w_returns (alpha_loop _ _ _ _ _ ?v) _ =>
      replace v with (vars_at self tk ps ids 0) end.
    - apply (alpha_loop_returns self tk ps ids (length ps - 2) 0); [done..|lia].
    - unfold vars_at. rewrite !pop_back_full, length_reverse, Hlen.
      rewrite !Nat.sub_0_r.
      rewrite !(take_ge _ (length ps)) by (rewrite ?length_reverse; lia).
      unfold descending, log_sum, complement_product, stage_log_density. simpl.
      rewrite Hl, Hrl. done. }
  simpl.
  replace (length ps - (length ps - 2)) with 2 by lia.
  eapply w_returns_bind.
  { apply w_at_returns. rewrite lookup_take_lt by lia. exact Hr0. }
  eapply w_returns_bind.
  { apply w_at_returns. rewrite lookup_take_lt by lia. exact Hfirst. }
  match goal with |- w_returns (W.ret ?x) ?y => replace y with x; [apply w_returns_ret|] end.
  unfold dram_ratio, first_logTarget. rewrite !head_lookup, Hfirst, Hr0.
  replace (length ps - 1 - (length ps - 2)) with 1 by lia.
  replace (S (length ps - 2)) with (length ps - 1) by lia.
  done.
Qed.

(** *** The recursion budget is enough *)

Lemma alpha_loop_body_inv self (tk : TKState V M) n i a a' w :
  alpha_loop_body self tk n i a = Ok (a', w) ->
  positionsData a' = pop_back (positionsData a)
  /\ backwardPositionsData a' = pop_back (backwardPositionsData a).
Proof.
  unfold alpha_loop_body. intros Hb.
  repeat (apply w_bind_ok_inv in Hb as (? & ? & ? & ? & Hb & ?)).
  unfold W.ret in Hb. injection Hb as <- _. done.
Qed.

Lemma length_pop_back {A} (l : list A) : length (pop_back l) = length l - 1.
Proof. unfold pop_back. rewrite length_take. lia. Qed.

Lemma alpha_loop_body_congr self1 self2 (tk : TKState V M) n i a b :
  1 <= b -> length (positionsData a) <= b -> length (backwardPositionsData a) <= b ->
  (forall l ids, length l < b -> self1 l ids = self2 l ids) ->
  alpha_loop_body self1 tk n i a = alpha_loop_body self2 tk n i a.
Proof.
  intros Hb Hf Hbk Hself. unfold alpha_loop_body.
  do 4 (apply w_bind_congr; intros ? ? _).
  rewrite Hself by (rewrite length_pop_back; lia).
  apply w_bind_congr; intros ? ? _.
  rewrite Hself by (rewrite length_pop_back; lia).
  done.
Qed.

Lemma alpha_loop_congr self1 self2 (tk : TKState V M) n turns i a b :
  1 <= b -> length (positionsData a) <= b -> length (backwardPositionsData a) <= b ->
  (forall l ids, length l < b -> self1 l ids = self2 l ids) ->
  alpha_loop self1 tk n turns i a = alpha_loop self2 tk n turns i a.
Proof.
  intros Hb Hf Hbk Hself. revert i a Hf Hbk.
  induction turns as [|turns IH]; intros i a Hf Hbk; simpl; [done|].
  rewrite (alpha_loop_body_congr self1 self2 tk n i a b) by done.
  apply w_bind_congr. intros a' w Ha'.
  apply alpha_loop_body_inv in Ha' as [E1 E2].
  apply IH; [rewrite E1|rewrite E2]; rewrite length_pop_back; lia.
Qed.

Lemma w_returns_inj {A} (m : Wt A) a a' w :
  w_returns m a -> m = Ok (a', w) -> a' = a.
Proof. intros [w' ->] [= -> _]. done. Qed.

Lemma alpha_vec_body_congr self1 self2 (tk : TKState V M) ps ids :
  (3 <= length ps -> forall l ids', length l < length ps -> self1 l ids' = self2 l ids') ->
  alpha_vec_body self1 tk ps ids = alpha_vec_body self2 tk ps ids.
Proof.
  intros Hself. unfold alpha_vec_body.
  destruct (Nat.ltb_spec (length ps) 2); [done|].
  do 2 (apply w_bind_congr; intros ? ? _).
  do 4 match goal with |- (if ?c then _ else _) = _ => destruct c; [done|] end.
  destruct (Nat.eqb_spec (length ps) 2); [done|].
  apply w_bind_congr; intros pf wf Hpf.
  apply (w_returns_inj _ _ _ _ (copy_forward_returns ps)) in Hpf as ->.
  apply w_bind_congr; intros pb wb Hpb.
  apply (w_returns_inj _ _ _ _ (copy_backward_returns ps)) in Hpb as ->.
  do 6 (apply w_bind_congr; intros ? ? _).
  erewrite (alpha_loop_congr self1 self2 tk _ _ _ _ (length ps)); [done|lia|simpl..].
  - lia.
  - rewrite length_reverse. lia.
  - apply Hself. lia.
Qed.

Lemma alpha_vec_fuel_irrel f1 f2 (tk : TKState V M) ps ids :
  length ps <= f1 -> length ps <= f2 -> 1 <= f1 -> 1 <= f2 ->
  alpha_vec_fuel f1 tk ps ids = alpha_vec_fuel f2 tk ps ids.
Proof.
  revert f2 ps ids. induction f1 as [|g1 IH]; intros f2 ps ids H1 H2 Hf1 Hf2; [lia|].
  destruct f2 as [|g2]; [lia|]. simpl.
  apply alpha_vec_body_congr. intros Hn l ids' Hl. apply IH; lia.
Qed.

(** [alpha_vec] satisfies the recursive equation of the source. *)
Lemma alpha_vec_unfold (tk : TKState V M) ps ids :
  alpha_vec tk ps ids = alpha_vec_body (alpha_vec tk) tk ps ids.
Proof.
  unfold alpha_vec at 1. simpl.
  apply alpha_vec_body_congr. intros Hn l ids' Hl.
  unfold alpha_vec. apply alpha_vec_fuel_irrel; lia.
Qed.

Lemma lookup_first_last {A} (l : list A) :
  2 <= length l ->
  exists first last, l !! 0 = Some first /\ l !! (length l - 1) = Some last.
Proof.
  intros Hn.
  destruct (lookup_lt_is_Some_2 l 0) as [x Hx]; [lia|].
  destruct (lookup_lt_is_Some_2 l (length l - 1)) as [y Hy]; [lia|].
  by exists x, y.
Qed.

(** With matching stage ids the function returns on every input of size at
    least 2. *)
Lemma alpha_vec_returns (tk : TKState V M) ps ids :
  2 <= length ps -> length ids = length ps -> stage_ids_match tk ps ids ->
  exists a, w_returns (alpha_vec tk ps ids) a.
Proof.
  remember (length ps) as n eqn:Hn. revert ps ids Hn.
  induction (lt_wf n) as [n _ IH]. intros ps ids -> Hn Hlen Hmatch.
  rewrite alpha_vec_unfold.
  destruct (lookup_first_last ps Hn) as (first & last & Hfirst & Hlast).
  destruct (degenerate_endpoints first last) eqn:Hdeg.
  { eexists. by eapply alpha_vec_body_degenerate. }
  destruct (decide (length ps = 2)) as [H2|H2].
  { destruct (lookup_lt_is_Some_2 ids 0) as [id0 Hid0]; [lia|].
    destruct (lookup_lt_is_Some_2 ids 1) as [id1 Hid1]; [lia|].
    rewrite H2 in Hlast.
    erewrite alpha_vec_body_two by done. eexists. by eexists. }
  eexists. eapply alpha_vec_body_general; [lia|done..|].
  intros len Hlen'. split.
  - apply (IH len); [lia|by rewrite length_take_le by lia|lia| |by apply Forall2_take].
    rewrite !length_take_le by lia. done.
  - apply (IH len); [lia|by rewrite length_take_le by (rewrite length_reverse; lia)|lia| |].
    + rewrite !length_take_le by (rewrite length_reverse; lia). done.
    + apply Forall2_take. by apply Forall2_reverse.
Qed.

Lemma alpha_vec_self_returns (tk : TKState V M) ps ids :
  length ids = length ps -> stage_ids_match tk ps ids ->
  self_returns (alpha_vec tk) ps ids.
Proof.
  intros Hlen Hmatch len Hl. split.
  - apply alpha_vec_returns; [rewrite length_take_le by lia; lia| |by apply Forall2_take].
    rewrite !length_take_le by lia. done.
  - apply alpha_vec_returns;
      [rewrite length_take_le by (rewrite length_reverse; lia); lia| |].
    + rewrite !length_take_le by (rewrite length_reverse; lia). done.
    + apply Forall2_take. by apply Forall2_reverse.
Qed.
End AlphaVecFacts.

Section AlphaTheorems.
Context {V M Rng : Type} {libm : LibM} {build : BuildConfig}
  {tkg : BaseTKGroup V M Rng} {rngb : RngBase Rng}.
Local Abbreviation Position := (MarkovChainPositionData V).

(** C1, as the code has it.  For [m + 1 >= 2] positions with as many stage
    ids, [alpha(vec)] returns 0 when an endpoint is out of the support or has
    an infinite or NaN log-target; for two positions it is the single-stage
    [alpha(x, y)] of the endpoints; for three or more, with the stage ids
    registered for the positions, it returns
    [min(1, (P_num / P_den) * exp(log_num - log_den))] where the products
    run over the prefix lengths [m, ..., 2] and the log sums take the stage
    log-densities at the positions [m, ..., 1] of the reversed and of the
    forward list, the last position included, plus the log-target of the
    first position. *)
Theorem alpha_vec_dram_ratio (tk : TKState V M) (ps : list Position) (ids : list nat)
    (first last : Position) :
  2 <= length ps -> length ids = length ps ->
  ps !! 0 = Some first -> ps !! (length ps - 1) = Some last ->
  (degenerate_endpoints first last = true ->
     w_returns (alpha_vec tk ps ids) Dbl.zero)
  /\ (degenerate_endpoints first last = false -> length ps = 2 ->
      exists id0 id1, ids !! 0 = Some id0 /\ ids !! 1 = Some id1 /\
        alpha_vec tk ps ids
        = Ok ((alpha_xy tk first last id0 id1).1.1, (alpha_xy tk first last id0 id1).2))
  /\ (degenerate_endpoints first last = false -> 3 <= length ps ->
      stage_ids_match tk ps ids ->
      w_returns (alpha_vec tk ps ids) (alpha_vec_closed tk ps ids)).
Proof.
  intros Hn Hlen Hfirst Hlast. rewrite alpha_vec_unfold. split; [|split].
  - intros Hdeg. by eapply alpha_vec_body_degenerate.
  - intros Hdeg H2.
    destruct (lookup_lt_is_Some_2 ids 0) as [id0 Hid0]; [lia|].
    destruct (lookup_lt_is_Some_2 ids 1) as [id1 Hid1]; [lia|].
    exists id0, id1. split; [done|]. split; [done|].
    rewrite H2 in Hlast. by apply alpha_vec_body_two.
  - intros Hdeg H3 Hmatch. unfold alpha_vec_closed.
    replace (length ps - 1 - 1) with (length ps - 2) by lia.
    eapply alpha_vec_body_general; [done..|].
    by apply alpha_vec_self_returns.
Qed.

(** C2, as the code has it.  [alpha(x, y)] is 0 with no diagnostic when one
    of the two positions is out of the support; it is 0 with one diagnostic
    (for [x] if its log-target is infinite or NaN, else for [y]) when both
    are in the support and a log-target is infinite or NaN; otherwise, for a
    symmetric kernel, it is [min(1, exp(logTarget(y) - logTarget(x)))].  It
    never aborts: the function is total. *)
Theorem alpha_xy_cases (tk : TKState V M) (x y : Position) (xStageId yStageId : nat) :
  (outOfTargetSupport x || outOfTargetSupport y = true ->
     alpha_xy tk x y xStageId yStageId = (Dbl.zero, Dbl.zero, []))
  /\ (outOfTargetSupport x || outOfTargetSupport y = false ->
      Dbl.inf_or_nan (logTarget x) = true ->
      alpha_xy tk x y xStageId yStageId
      = (Dbl.zero, Dbl.zero, [WarnAlphaXY_x (logTarget x) (vecValues x) (vecValues y)]))
  /\ (outOfTargetSupport x || outOfTargetSupport y = false ->
      Dbl.inf_or_nan (logTarget x) = false ->
      Dbl.inf_or_nan (logTarget y) = true ->
      alpha_xy tk x y xStageId yStageId
      = (Dbl.zero, Dbl.zero, [WarnAlphaXY_y (logTarget y) (vecValues x) (vecValues y)]))
  /\ (outOfTargetSupport x || outOfTargetSupport y = false ->
      Dbl.inf_or_nan (logTarget x) || Dbl.inf_or_nan (logTarget y) = false ->
      symmetric = true ->
      alpha_xy tk x y xStageId yStageId
      = (Dbl.std_min Dbl.one (std_exp (PrimFloat.sub (logTarget y) (logTarget x))),
         std_exp (PrimFloat.sub (logTarget y) (logTarget x)), [])).
Proof.
  unfold alpha_xy.
  destruct (outOfTargetSupport x), (outOfTargetSupport y); simpl;
    repeat split; try done; intros _.
  - by intros ->.
  - by intros -> ->.
  - intros Hb. apply orb_false_elim in Hb as [-> ->]. by intros ->.
Qed.

(** C3, as the code has it.  [acceptAlpha] rejects without a draw when
    [alpha <= 0], accepts without a draw when [alpha >= 1], and otherwise
    draws one uniform sample [u] and accepts exactly when [u <= alpha]; the
    generator advances only in the last case. *)
Theorem acceptAlpha_cases (alpha : double) (rng : Rng) :
  (PrimFloat.leb alpha Dbl.zero = true -> acceptAlpha alpha rng = (false, rng))
  /\ (PrimFloat.leb alpha Dbl.zero = false -> PrimFloat.leb Dbl.one alpha = true ->
      acceptAlpha alpha rng = (true, rng))
  /\ (PrimFloat.leb alpha Dbl.zero = false -> PrimFloat.leb Dbl.one alpha = false ->
      acceptAlpha alpha rng
      = (PrimFloat.leb (uniformSample rng).1 alpha, (uniformSample rng).2)).
Proof.
  unfold acceptAlpha. repeat split.
  - by intros ->.
  - by intros -> ->.
  - intros -> ->. destruct (uniformSample rng) as [u rng']. simpl.
    by destruct (PrimFloat.leb u alpha).
Qed.
End AlphaTheorems.

(** * Facts about the driver *)

Section EventFacts.
Context {V M : Type}.
Local Abbreviation Ev := (Event V M).

Lemma count_events_app (p : Ev -> bool) l1 l2 :
  count_events p (l1 ++ l2) = count_events p l1 + count_events p l2.
Proof. unfold count_events. by rewrite List.filter_app, length_app. Qed.

Lemma count_events_cons (p : Ev -> bool) e l :
  count_events p (e :: l) = (if p e then 1 else 0) + count_events p l.
Proof. unfold count_events. simpl. by destruct (p e). Qed.

Lemma count_events_zero (p : Ev -> bool) l :
  Forall (fun e => p e = false) l -> count_events p l = 0.
Proof.
  induction 1 as [|e l He _ IH]; [done|].
  rewrite count_events_cons, He, IH. done.
Qed.

Lemma bump_add a b n : bump (a + b) n = bump a (bump b n).
Proof. unfold bump. apply Nat.iter_add. Qed.

Lemma bump_info_nil (i : MHRawChainInfoStruct) : bump_info i ([] : list Ev) = i.
Proof. by destruct i. Qed.

Lemma bump_info_app (i : MHRawChainInfoStruct) (d1 d2 : list Ev) :
  bump_info i (d2 ++ d1) = bump_info (bump_info i d1) d2.
Proof.
  unfold bump_info. simpl. rewrite !count_events_app, !bump_add. done.
Qed.

(** Without wrap-around a counter that started at 0 is the number of its
    events. *)
Lemma bump_zero k : (N.of_nat k < 2 ^ 32)%N -> bump k 0%N = N.of_nat k.
Proof.
  induction k as [|k IH]; intros Hk; [done|].
  unfold bump in *. simpl. rewrite IH by lia. unfold uint_incr.
  rewrite N.mod_small by lia. lia.
Qed.
End EventFacts.

Section StepFacts.
Context {V M Rng : Type} {libm : LibM} {build : BuildConfig}
  {tkg : BaseTKGroup V M Rng} {rngb : RngBase Rng} {target : TargetPdf V}
  {space : VectorSpace V M} {env : BaseEnvironment}.
Variable opts : MhOptionsValues.
Local Abbreviation St := (Sampler V M Rng).
Local Abbreviation Mt := (S.t (V:=V) (M:=M) (Rng:=Rng)).
Local Abbreviation Position := (MarkovChainPositionData V).

Lemma step_refl (s : St) : step opts s s [].
Proof.
  unfold step. rewrite bump_info_nil. repeat split; auto.
Qed.

Lemma step_trans (s s' s'' : St) d1 d2 :
  step opts s s' d1 -> step opts s' s'' d2 -> step opts s s'' (d2 ++ d1).
Proof.
  intros (E1 & F1 & A1 & I1) (E2 & F2 & A2 & I2).
  unfold step. rewrite bump_info_app, <- I1, <- I2, E2, E1.
  repeat split; auto.
  - by rewrite app_assoc.
  - by apply Forall_app.
  - intros Ham. rewrite A2, A1; auto.
Qed.

(** A change of the state that adds no event and touches neither the
    counters nor the adaptive state. *)
Lemma step_frame (s s' : St) :
  events s' = events s -> am_view s' = am_view s ->
  m_rawChainInfo s' = m_rawChainInfo s ->
  step opts s s' [].
Proof.
  intros E A I. unfold step. rewrite bump_info_nil. repeat split; auto.
Qed.

Lemma run_ok_ret {A} (a : A) (s : St) (post : A -> list (Event V M) -> Prop) :
  post a [] -> run_ok opts (S.ret a) s post.
Proof. intros Hp. exists []. split; [apply step_refl|done]. Qed.

Lemma run_ok_get (s : St) (post : St -> list (Event V M) -> Prop) :
  post s [] -> run_ok opts S.get s post.
Proof. intros Hp. exists []. split; [apply step_refl|done]. Qed.

Lemma run_ok_modify (f : St -> St) (s : St) d (post : unit -> list (Event V M) -> Prop) :
  step opts s (f s) d -> post tt d -> run_ok opts (S.modify f) s post.
Proof. intros Hs Hp. by exists d. Qed.

Lemma run_ok_bind {A B} (m : Mt A) (k : A -> Mt B) (s : St)
    (P : A -> list (Event V M) -> Prop) (Q : B -> list (Event V M) -> Prop) :
  run_ok opts m s P ->
  (forall a s' d1, m s = Returns a s' -> step opts s s' d1 -> P a d1 ->
     run_ok opts (k a) s' (fun b d2 => Q b (d2 ++ d1))) ->
  run_ok opts (S.bind m k) s Q.
Proof.
  unfold run_ok, S.bind. destruct (m s) as [a s'|e s'|]; [|done..].
  intros (d1 & Hs & HP) Hk. specialize (Hk a s' d1 eq_refl Hs HP).
  destruct (k a s') as [b s''|e s''|]; [| |done].
  - destruct Hk as (d2 & Hs2 & HQ). exists (d2 ++ d1). split; [|done].
    by eapply step_trans.
  - destruct Hk as (d2 & Hs2). exists (d2 ++ d1). by eapply step_trans.
Qed.

Lemma run_ok_conseq {A} (m : Mt A) (s : St) (P Q : A -> list (Event V M) -> Prop) :
  run_ok opts m s P -> (forall a d, P a d -> Q a d) -> run_ok opts m s Q.
Proof.
  unfold run_ok. destruct (m s) as [a s'|e s'|]; [|done..].
  intros (d & Hs & HP) HPQ. exists d. auto.
Qed.

Lemma run_ok_fatal_test (test : bool) e (s : St) (post : unit -> list (Event V M) -> Prop) :
  (test = false -> post tt []) -> run_ok opts (S.fatal_test test e) s post.
Proof.
  intros Hp. unfold run_ok, S.fatal_test. destruct test.
  - exists []. apply step_refl.
  - exists []. split; [apply step_refl|auto].
Qed.

Lemma run_ok_abort {A} e (s : St) (post : A -> list (Event V M) -> Prop) :
  run_ok opts (S.abort e) s post.
Proof. exists []. apply step_refl. Qed.

Lemma run_ok_lift_w {A} (m : W.t (V:=V) A) (s : St) (post : A -> list (Event V M) -> Prop) :
  (forall a w, m = Ok (a, w) -> post a []) -> run_ok opts (S.lift_w m) s post.
Proof.
  intros Hp. unfold run_ok, S.lift_w. destruct m as [[a w]|e].
  - exists []. split; [by apply step_frame|eauto].
  - exists []. apply step_refl.
Qed.

Lemma run_ok_lift_res {A} (m : Res A) (s : St) (post : A -> list (Event V M) -> Prop) :
  (forall a, m = Ok a -> post a []) -> run_ok opts (S.lift_res m) s post.
Proof.
  intros Hp. unfold run_ok, S.lift_res. destruct m as [a|e].
  - exists []. split; [apply step_refl|eauto].
  - exists []. apply step_refl.
Qed.

Lemma step_add_plain (s : St) e :
  plain e -> event_ok opts e -> step opts s (add_event e s) [e].
Proof.
  intros He Hok. unfold step. repeat split; auto.
  destruct e as [| |d c| | | | |]; try done; simpl in *.
    + by destruct (m_rawChainInfo s).
    + unfold bump_info. simpl. rewrite !count_events_cons. simpl.
      rewrite He, !andb_false_r. by destruct (m_rawChainInfo s).
Qed.

Lemma run_ok_ext {A} (m : Mt A) (s : St) (P Q : A -> list (Event V M) -> Prop) :
  run_ok opts m s P -> (forall a d, P a d -> Q a d) -> run_ok opts m s Q.
Proof. apply run_ok_conseq. Qed.

Lemma run_ok_bind_get {B} (k : St -> Mt B) (s : St) (Q : B -> list (Event V M) -> Prop) :
  run_ok opts (k s) s Q -> run_ok opts (S.bind S.get k) s Q.
Proof. done. Qed.

Lemma run_ok_bind_modify {B} (f : St -> St) (k : unit -> Mt B) (s : St) d
    (Q : B -> list (Event V M) -> Prop) :
  step opts s (f s) d ->
  run_ok opts (k tt) (f s) (fun b d2 => Q b (d2 ++ d)) ->
  run_ok opts (S.bind (S.modify f) k) s Q.
Proof.
  intros Hs Hk. eapply run_ok_bind; [by eapply (run_ok_modify f s d (fun _ d' => d' = d))|].
  intros [] s' d1 [= <-] _ ->. done.
Qed.

Lemma run_ok_bind_frame {B} (f : St -> St) (k : unit -> Mt B) (s : St)
    (Q : B -> list (Event V M) -> Prop) :
  events (f s) = events s -> am_view (f s) = am_view s ->
  m_rawChainInfo (f s) = m_rawChainInfo s ->
  run_ok opts (k tt) (f s) Q ->
  run_ok opts (S.bind (S.modify f) k) s Q.
Proof.
  intros E A I Hk. eapply run_ok_bind_modify; [by apply step_frame|].
  eapply run_ok_conseq; [exact Hk|]. intros b d. by rewrite app_nil_r.
Qed.

Lemma run_ok_bind_fatal_test {B} (test : bool) e (k : unit -> Mt B) (s : St)
    (Q : B -> list (Event V M) -> Prop) :
  (test = false -> run_ok opts (k tt) s Q) ->
  run_ok opts (S.bind (S.fatal_test test e) k) s Q.
Proof.
  intros Hk. unfold S.bind, S.fatal_test, run_ok. destruct test.
  - exists []. apply step_refl.
  - by apply Hk.
Qed.

Lemma draws_only_count (p : Event V M -> bool) d :
  (forall v o, p (EvRealization v o) = false) -> draws_only d -> count_events p d = 0.
Proof.
  intros Hp Hd. apply count_events_zero. eapply Forall_impl; [|exact Hd].
  intros e (v & o & ->). apply Hp.
Qed.

Lemma generate_candidate_ok fuel realizer (s : St) :
  run_ok opts (generate_candidate opts fuel realizer) s
    (fun c d => c.2 = negb (contains c.1) /\ draws_only d
                /\ (m_putOutOfBoundsInChain opts = false -> c.2 = false)).
Proof.
  revert s. induction fuel as [|fuel IH]; intros s; [done|].
  simpl. apply run_ok_bind_get.
  destruct (realizer (m_tk s) (m_rng s)) as [v r] eqn:Er.
  apply run_ok_bind_frame; [done..|].
  eapply run_ok_bind_modify.
  { by apply (step_add_plain _ (EvRealization v (negb (contains v)))). }
  assert (Hd : draws_only (M:=M) [EvRealization v (negb (contains v))]).
  { repeat constructor. by eexists _, _. }
  destruct (m_putOutOfBoundsInChain opts) eqn:Eput.
  - apply run_ok_ret. simpl. done.
  - destruct (negb (contains v)) eqn:Ec.
    + eapply run_ok_conseq; [apply IH|].
      intros [v' o'] d (E1 & E2 & E3). repeat split; [done| |done].
      by apply Forall_app.
    + apply run_ok_ret. simpl. by rewrite Ec.
Qed.

Lemma evaluate_target_ok v (s : St) :
  contains v = true ->
  run_ok opts (evaluate_target v) s (fun _ d => d = [EvTargetCall v]).
Proof.
  intros Hv. unfold run_ok, evaluate_target.
  destruct (callFunction v) as [[value lp] ll].
  unfold S.bind, S.modify, incr_numTargetCalls, S.ret. simpl.
  exists [EvTargetCall v]. split; [|done].
  unfold step. simpl. repeat split; auto.
Qed.

Lemma candidate_for_stage_ok fuel realizer inDR stageId (s : St) :
  run_ok opts (candidate_for_stage opts fuel realizer inDR stageId) s
    (fun cv d =>
       outOfTargetSupport cv.1 = negb (contains (vecValues cv.1))
       /\ (m_putOutOfBoundsInChain opts = false -> outOfTargetSupport cv.1 = false)
       /\ candidate_events inDR cv.1 d).
Proof.
  unfold candidate_for_stage.
  eapply run_ok_bind; [apply generate_candidate_ok|].
  intros [v oos] s1 d1 _ _ (E1 & Hd & Hput). simpl in E1, Hput. subst oos.
  apply run_ok_bind_get.
  unfold setPreComputingPosition.
  apply run_ok_bind_frame; [done..|].
  destruct (negb (contains v)) eqn:Ec.
  - unfold run_ok, S.bind, S.modify, S.ret,
      incr_numOutOfTargetSupportInDR, incr_numOutOfTargetSupport.
    destruct inDR; simpl.
    + eexists [_]. split.
      * unfold step. simpl. repeat split; auto. by repeat constructor.
      * simpl. rewrite Ec. repeat split; [done|]. by exists d1.
    + eexists [_]. split.
      * unfold step. simpl. repeat split; auto. by repeat constructor.
      * simpl. rewrite Ec. repeat split; [done|]. by exists d1.
  - eapply run_ok_bind.
    { apply evaluate_target_ok. by apply negb_false_iff. }
    intros [ll lt] s2 d2 _ _ ->. simpl.
    eapply run_ok_bind_modify; [by apply step_add_plain|].
    apply run_ok_ret. simpl. rewrite Ec. repeat split; try done.
    by exists d1.
Qed.

Lemma run_ok_bind_modify2 {B} (f g : St -> St) (k : unit -> Mt B) (s : St) d
    (Q : B -> list (Event V M) -> Prop) :
  step opts s (g (f s)) d ->
  run_ok opts (k tt) (g (f s)) (fun b d2 => Q b (d2 ++ d)) ->
  run_ok opts (S.bind (S.modify f) (fun _ => S.bind (S.modify g) k)) s Q.
Proof.
  intros Hs Hk. unfold run_ok, S.bind, S.modify in *. simpl.
  destruct (k tt (g (f s))) as [b s''|e s''|]; [| |done].
  - destruct Hk as (d2 & Hs2 & HQ). exists (d2 ++ d). split; [|done].
    by eapply step_trans.
  - destruct Hk as (d2 & Hs2). exists (d2 ++ d). by eapply step_trans.
Qed.

Lemma accept_with_rng_ok alpha (s : St) :
  run_ok opts (accept_with_rng alpha) s (fun _ d => d = []).
Proof.
  unfold run_ok, accept_with_rng. destruct (acceptAlpha alpha (m_rng s)) as [b r].
  exists []. split; [by apply step_frame|done].
Qed.

Lemma setPositionValues_ok posId v (s : St) :
  run_ok opts (setPositionValues posId v) s (fun _ d => d = []).
Proof.
  unfold run_ok, setPositionValues. destruct (posId <? length (workingChain s)).
  - exists []. split; [|done]. by apply step_frame.
  - exists []. apply step_refl.
Qed.

Lemma am_only_count (p : Event V M -> bool) d :
  (forall e, is_am_event e = true -> p e = false) -> am_only d -> count_events p d = 0.
Proof.
  intros Hp Hd. apply count_events_zero. eapply Forall_impl; [|exact Hd]. done.
Qed.

Lemma am_only_bump (i : MHRawChainInfoStruct) (d : list (Event V M)) :
  am_only d -> bump_info i d = i.
Proof.
  intros Hd. unfold bump_info.
  rewrite !(am_only_count _ d) by (done || by intros []). by destruct i.
Qed.

(** A change made with adaptation enabled that adds adaptation events only
    and does not touch the counters. *)
Lemma step_am (s s' : St) d :
  am_enabled opts = true -> events s' = d ++ events s -> am_only d ->
  m_rawChainInfo s' = m_rawChainInfo s ->
  step opts s s' d.
Proof.
  intros Ham E Hd I. unfold step. rewrite am_only_bump by done.
  repeat split; auto.
  - eapply Forall_impl; [|exact Hd]. intros [] He; try done; simpl; done.
  - intros Hf. congruence.
Qed.

Lemma dr_counts_nil k : dr_counts (V:=V) (M:=M) [] k.
Proof. unfold dr_counts, count_events. simpl. lia. Qed.

Lemma dr_counts_app (d1 d2 : list (Event V M)) k1 k2 :
  dr_counts d1 k1 -> dr_counts d2 k2 -> dr_counts (d2 ++ d1) (k2 + k1).
Proof.
  unfold dr_counts. rewrite !count_events_app. lia.
Qed.

Lemma candidate_events_counts inDR (c : Position) (d : list (Event V M)) :
  candidate_events inDR c d ->
  count_events is_dr_stage d = 0 /\ count_events is_rejection d = 0
  /\ count_events is_target_call d = (if outOfTargetSupport c then 0 else 1)
  /\ forall b, count_events (is_oos_candidate b) d
                = (if Bool.eqb inDR b && outOfTargetSupport c then 1 else 0).
Proof.
  intros (dd & Hdd & ->).
  split; [|split; [|split]]; [| | |intros b];
    rewrite count_events_cons, count_events_app, (draws_only_count _ dd) by done;
    simpl; destruct (outOfTargetSupport c); simpl; try done;
    rewrite ?andb_false_r, ?andb_true_r; try done; by destruct (Bool.eqb inDR b).
Qed.

Lemma dr_stage_ok fuel d0 (s : St) :
  run_ok opts (dr_stage opts fuel d0) s
    (fun d' d => dr_counts d 1).
Proof.
  unfold dr_stage, incr_numDRs.
  eapply (run_ok_bind_modify2 _ _ _ _ [EvDRStage (S (dr_stageId d0))]).
  { unfold step. simpl. repeat split; auto. by repeat constructor. }
  eapply run_ok_bind; [apply candidate_for_stage_ok|].
  intros [c valid] s1 d1 _ _ (Hc & _ & Hev). simpl in Hc, Hev.
  apply candidate_events_counts in Hev as (C1 & C2 & _ & C4).
  assert (Hcounts : dr_counts (d1 ++ [EvDRStage (S (dr_stageId d0))]) 1).
  { unfold dr_counts. rewrite !count_events_app, C1, C2, !C4.
    unfold count_events. simpl. destruct (outOfTargetSupport c); simpl; lia. }
  eapply run_ok_bind with (P := fun _ d => d = []).
  { destruct (outOfTargetSupport c).
    - by apply run_ok_ret.
    - apply run_ok_bind_get.
      eapply run_ok_bind with (P := fun _ d => d = []).
      + by apply run_ok_lift_w.
      + intros a s2 d2 _ _ ->. eapply run_ok_conseq; [apply accept_with_rng_ok|].
        by intros _ d ->. }
  intros acc s2 d2 _ _ ->. by apply run_ok_ret.
Qed.

Lemma dr_loop_ok fuel turns d0 (s : St) :
  run_ok opts (dr_loop opts fuel turns d0) s (fun d' d => dr_counts d turns).
Proof.
  revert d0 s. induction turns as [|turns IH]; intros d0 s; simpl.
  - apply run_ok_ret, dr_counts_nil.
  - destruct (dr_condition opts d0); [|apply run_ok_ret, dr_counts_nil].
    eapply run_ok_bind; [apply dr_stage_ok|].
    intros d1 s1 dd1 _ _ Hc1. eapply run_ok_conseq; [apply IH|].
    intros d2 dd2 Hc2. replace (S turns) with (turns + 1) by lia.
    by apply dr_counts_app.
Qed.

Lemma delayed_rejection_ok fuel positionId cur cand valid accept (s : St) :
  run_ok opts (delayed_rejection opts fuel positionId cur cand valid accept) s
    (fun ac d => dr_counts d (m_drMaxNumExtraStages opts)
                 /\ (outOfTargetSupport cand = true -> ac.1 = accept)).
Proof.
  unfold delayed_rejection.
  destruct (negb accept && negb (outOfTargetSupport cand)
            && (0 <? m_drMaxNumExtraStages opts)) eqn:Ec.
  - destruct (avoid_dr_now opts positionId).
    + apply run_ok_ret. split; [apply dr_counts_nil|done].
    + eapply run_ok_bind; [apply dr_loop_ok|].
      intros d1 s1 dd1 _ _ Hc1. apply run_ok_ret. rewrite app_nil_l. split; [done|].
      intros Hoos. rewrite Hoos, andb_false_r in Ec. done.
  - apply run_ok_ret. split; [apply dr_counts_nil|done].
Qed.

Lemma update_chain_ok positionId accept cur cand (s : St) :
  run_ok opts (update_chain positionId accept cur cand) s
    (fun _ d => d = if accept then [] else [EvRejection positionId]).
Proof.
  unfold update_chain.
  eapply run_ok_bind
    with (P := fun _ d => d = if accept then [] else [EvRejection positionId]).
  - destruct accept.
    + eapply run_ok_bind; [apply setPositionValues_ok|].
      intros _ s1 d1 _ _ ->. by apply run_ok_ret.
    + eapply run_ok_bind; [apply setPositionValues_ok|].
      intros _ s1 d1 _ _ ->. unfold incr_numRejections.
      eapply (run_ok_bind_modify2 _ _ _ _ [EvRejection positionId]).
      { unfold step. simpl. repeat split; auto. by repeat constructor. }
      by apply run_ok_ret.
  - intros cur' s1 d1 _ _ ->. unfold store_log_values.
    apply run_ok_bind_frame; [done..|]. apply run_ok_ret. done.
Qed.

Lemma getPositionValues_ok posId (s : St) :
  run_ok opts (getPositionValues posId) s (fun _ d => d = []).
Proof.
  unfold run_ok, getPositionValues.
  destruct (workingChain s !! posId) as [[v|]|]; exists []; try apply step_refl.
  split; [apply step_refl|done].
Qed.

Lemma mapM_S_ok {A B} (f : A -> Mt B) (l : list A) (s : St) :
  (forall a s', run_ok opts (f a) s' (fun _ d => d = [])) ->
  run_ok opts (mapM_S f l) s (fun _ d => d = []).
Proof.
  intros Hf. revert s. induction l as [|a l IH]; intros s; simpl.
  - by apply run_ok_ret.
  - eapply run_ok_bind; [apply Hf|]. intros b s1 d1 _ _ ->.
    eapply run_ok_bind; [apply IH|]. intros bs s2 d2 _ _ ->.
    by apply run_ok_ret.
Qed.

Lemma deref_ok {A} (p : option A) (s : St) :
  run_ok opts (deref p) s (fun _ d => d = []).
Proof.
  destruct p; simpl; [by apply run_ok_ret|apply run_ok_abort].
Qed.

Lemma chol_event_ok positionId m (s : St) :
  am_enabled opts = true ->
  run_ok opts (chol_event positionId m) s (fun _ d => am_only d).
Proof.
  intros Ham. unfold chol_event.
  eapply (run_ok_bind_modify _ _ _ [EvChol positionId m (chol m)]).
  { apply step_am; try done. by repeat constructor. }
  apply run_ok_ret. by repeat constructor.
Qed.

Lemma am_only_app (d1 d2 : list (Event V M)) :
  am_only d1 -> am_only d2 -> am_only (d2 ++ d1).
Proof. intros. by apply Forall_app. Qed.

Ltac am_solve :=
  cbv beta in *; unfold am_only in *; simpl; rewrite ?app_nil_r;
  repeat first [ assumption | reflexivity | apply Forall_nil_2
               | apply Forall_cons_2 | apply Forall_app_2 ].

Lemma refresh_proposal_covariance_ok positionId c (s : St) :
  am_enabled opts = true ->
  run_ok opts (refresh_proposal_covariance opts positionId c) s (fun _ d => am_only d).
Proof.
  intros Ham. unfold refresh_proposal_covariance.
  eapply run_ok_bind; [by apply chol_event_ok|].
  intros iRC s1 d1 _ _ Hd1.
  eapply run_ok_bind with (P := fun _ d => am_only d).
  { destruct (negb (iRC =? 0)%Z).
    - apply run_ok_bind_fatal_test. intros _.
      eapply run_ok_bind; [by apply chol_event_ok|].
      intros iRC2 s2 d2 _ _ Hd2.
      destruct (negb (iRC2 =? 0)%Z).
      + apply run_ok_bind_fatal_test. intros _. apply run_ok_ret.
        am_solve.
      + apply run_ok_ret. am_solve.
    - apply run_ok_ret. constructor. }
  intros [pd attempted] s2 d2 _ _ Hd2.
  destruct pd.
  - eapply (run_ok_modify _ _ [EvUpdateLawCov positionId _]).
    + apply step_am; try done. by repeat constructor.
    + am_solve.
  - apply run_ok_ret. am_solve.
Qed.

Lemma adaptive_metropolis_ok positionId (s : St) :
  run_ok opts (adaptive_metropolis opts positionId) s (fun _ d => am_only d).
Proof.
  unfold adaptive_metropolis. destruct (am_enabled opts) eqn:Ham.
  2: { apply run_ok_ret. constructor. }
  destruct (am_schedule opts positionId) as [[idf size] allocate].
  eapply run_ok_bind with (P := fun _ d => d = []).
  { destruct allocate.
    - eapply (run_ok_modify _ _ []); [|done]. apply step_am; try done. constructor.
    - by apply run_ok_ret. }
  intros _ s1 d1 _ _ ->.
  destruct (0 <? size); [|apply run_ok_ret; constructor].
  eapply run_ok_bind.
  { apply mapM_S_ok. intros. apply getPositionValues_ok. }
  intros partialChain s2 d2 _ _ ->.
  apply run_ok_bind_get.
  eapply run_ok_bind; [apply deref_ok|]. intros lastMean s3 d3 _ _ ->.
  eapply run_ok_bind; [apply deref_ok|]. intros lastCov s4 d4 _ _ ->.
  eapply (run_ok_bind_modify _ _ _ [EvAdapt positionId idf partialChain]).
  { apply step_am; try done. by repeat constructor. }
  eapply run_ok_bind with (P := fun _ d => d = []).
  { by apply run_ok_lift_res. }
  intros [[n' mean'] cov'] s5 d5 _ _ ->.
  eapply run_ok_bind_modify with (d := []).
  { apply step_am; try done. constructor. }
  eapply run_ok_conseq; [by apply refresh_proposal_covariance_ok|].
  intros u d Hd. am_solve.
Qed.

Lemma position_counts_nil : position_counts opts (V:=V) (M:=M) [] 0.
Proof. unfold position_counts, count_events. simpl. lia. Qed.

Lemma position_counts_app (d1 d2 : list (Event V M)) n1 n2 :
  position_counts opts d1 n1 -> position_counts opts d2 n2 ->
  position_counts opts (d2 ++ d1) (n2 + n1).
Proof. unfold position_counts. rewrite !count_events_app. nia. Qed.

Lemma chain_position_ok fuel positionId cur (s : St) :
  run_ok opts (chain_position opts fuel positionId cur) s
    (fun _ d => position_counts opts d 1).
Proof.
  unfold chain_position.
  apply run_ok_bind_frame; [done..|].
  apply run_ok_bind_get. unfold setPreComputingPosition.
  apply run_ok_bind_frame; [done..|].
  apply run_ok_bind_fatal_test. intros _.
  eapply run_ok_bind; [apply candidate_for_stage_ok|].
  intros [c valid] s1 d1 _ _ (Hc & _ & Hev). simpl in Hc, Hev.
  apply candidate_events_counts in Hev as (C1 & C2 & _ & C4).
  eapply run_ok_bind
    with (P := fun a d => d = [] /\ (outOfTargetSupport c = true -> a = false)).
  { destruct (outOfTargetSupport c).
    - by apply run_ok_ret.
    - apply run_ok_bind_get.
      destruct (alpha_xy _ cur c 0 1) as [[a q] w].
      apply run_ok_bind_frame; [done..|].
      eapply run_ok_conseq; [apply accept_with_rng_ok|]. by intros b d ->. }
  intros accept0 s2 d2 _ _ [-> Hacc0].
  eapply run_ok_bind; [apply delayed_rejection_ok|].
  intros [accept cand] s3 d3 _ _ (Hdr & Hacc). simpl in Hacc.
  eapply run_ok_bind; [apply update_chain_ok|].
  intros cur' s4 d4 _ _ ->.
  eapply run_ok_bind; [apply adaptive_metropolis_ok|].
  intros u s5 d5 _ _ Ham.
  apply run_ok_ret.
  destruct Hdr as (D1 & D2 & D3 & D4).
  unfold position_counts. simpl. rewrite ?app_nil_r, !count_events_app.
  rewrite !(am_only_count _ d5) by (done || by intros []).
  rewrite C1, C2, !C4, D3, D4. simpl.
  destruct (outOfTargetSupport c).
  - rewrite Hacc, Hacc0 by done. unfold count_events in *. simpl. lia.
  - destruct accept; unfold count_events in *; simpl; lia.
Qed.

Lemma chain_loop_ok fuel turns positionId cur (s : St) :
  run_ok opts (chain_loop opts fuel turns positionId cur) s
    (fun _ d => position_counts opts d turns).
Proof.
  revert positionId cur s. induction turns as [|turns IH]; intros positionId cur s; simpl.
  - apply run_ok_ret, position_counts_nil.
  - eapply run_ok_bind; [apply chain_position_ok|].
    intros cur' s1 d1 _ _ H1. eapply run_ok_conseq; [apply IH|].
    intros cur'' d2 H2. rewrite ?app_nil_r. replace (S turns) with (turns + 1) by lia.
    by apply position_counts_app.
Qed.

Lemma barrier_loop_ok turns positionId cur (s : St) :
  run_ok opts (barrier_loop turns positionId cur) s
    (fun _ d => position_counts opts d turns).
Proof.
  revert positionId s. induction turns as [|turns IH]; intros positionId s; simpl.
  - apply run_ok_ret, position_counts_nil.
  - eapply run_ok_bind; [apply setPositionValues_ok|].
    intros u s1 d1 _ _ ->. unfold incr_numRejections.
    eapply (run_ok_bind_modify2 _ _ _ _ [EvRejection positionId]).
    { unfold step. simpl. repeat split; auto. by repeat constructor. }
    eapply run_ok_conseq; [apply IH|].
    intros u' d2 H2. rewrite ?app_nil_r. replace (S turns) with (turns + 1) by lia.
    apply position_counts_app; [|done].
    unfold position_counts, count_events. simpl. lia.
Qed.

Lemma generate_from_initial_position_ok fuel x0 chainSize (s : St) :
  contains x0 = true ->
  run_ok opts (generate_from_initial_position opts fuel x0 chainSize) s
    (fun _ d => exists d', d = d' ++ [EvTargetCall x0]
                           /\ position_counts opts d' (chainSize - 1)).
Proof.
  intros Hx0. unfold generate_from_initial_position.
  eapply run_ok_bind; [by apply evaluate_target_ok|].
  intros ll_lt s1 d1 _ _ ->.
  apply run_ok_bind_frame; [done..|].
  eapply run_ok_bind; [apply setPositionValues_ok|].
  intros u s2 d2 _ _ ->.
  unfold store_log_values. apply run_ok_bind_frame; [done..|].
  destruct (waits_at_barrier x0).
  - eapply run_ok_conseq; [apply barrier_loop_ok|].
    intros u' d Hd. exists d. by rewrite ?app_nil_l, ?app_nil_r.
  - eapply run_ok_bind; [apply chain_loop_ok|].
    intros cur s3 d3 _ _ Hd. apply run_ok_ret. exists d3.
    by rewrite ?app_nil_l, ?app_nil_r.
Qed.

(** What holds of the state a run ends in, whether it returned or was
    aborted. *)
Lemma generateFullChain_safe fuel x0 chainSize (s : St) :
  match generateFullChain opts fuel x0 chainSize s with
  | Returns _ s' | Aborts _ s' =>
      Forall (event_ok opts) (events s')
      /\ (am_enabled opts = false -> am_view s' = am_view s)
      /\ m_rawChainInfo s' = bump_info info_reset (events s')
  | OutOfFuel => True
  end.
Proof.
  unfold generateFullChain, S.bind, S.modify, S.fatal_test. simpl.
  destruct (contains x0) eqn:Hx0; simpl; [|by repeat split].
  pose proof (generate_from_initial_position_ok fuel x0 chainSize
                (set_events [] (set_info info_reset s)) Hx0) as Hrun.
  unfold run_ok in Hrun.
  destruct (generate_from_initial_position opts fuel x0 chainSize _) as [u s'|e s'|];
    [| |done].
  - destruct Hrun as (d & (E & F & A & I) & _). simpl in E, I.
    rewrite app_nil_r in E. rewrite E. repeat split; try done;
      try (intros Ham; by rewrite A).
  - destruct Hrun as (d & (E & F & A & I)). simpl in E, I.
    rewrite app_nil_r in E. rewrite E. repeat split; try done;
      try (intros Ham; by rewrite A).
Qed.

(** The counts of the events of a completed run. *)
Lemma generateFullChain_counts fuel x0 chainSize (s : St) :
  match generateFullChain opts fuel x0 chainSize s with
  | Returns _ s' =>
      exists d', events s' = d' ++ [EvTargetCall x0]
                 /\ position_counts opts d' (chainSize - 1)
  | _ => True
  end.
Proof.
  unfold generateFullChain, S.bind, S.modify, S.fatal_test. simpl.
  destruct (contains x0) eqn:Hx0; simpl; [|done].
  pose proof (generate_from_initial_position_ok fuel x0 chainSize
                (set_events [] (set_info info_reset s)) Hx0) as Hrun.
  unfold run_ok in Hrun.
  destruct (generate_from_initial_position opts fuel x0 chainSize _) as [u s'|e s'|];
    [|done..].
  destruct Hrun as (d & (E & F & A & I) & (d' & -> & Hc)). simpl in E.
  rewrite app_nil_r in E. by exists d'.
Qed.
End StepFacts.

Section JointFacts.
Context {V M Rng : Type} {libm : LibM} {build : BuildConfig}
  {tkg : BaseTKGroup V M Rng} {rngb : RngBase Rng} {target : TargetPdf V}
  {space : VectorSpace V M} {env : BaseEnvironment}.
Variable opts : MhOptionsValues.
Local Abbreviation St := (Sampler V M Rng).
Local Abbreviation Position := (MarkovChainPositionData V).
Local Abbreviation Mt := (S.t (V:=V) (M:=M) (Rng:=Rng)).

(** The counts of the events of the DR loop that the joint bound needs:
    [k] bounds the out-of-support candidates of the stages, plus one when
    the loop ends accepted. *)
Local Abbreviation dr_joint := (fun (d : list (Event V M)) (accepted : bool) (k : nat) =>
  count_events (is_oos_candidate false) d = 0
  /\ count_events is_rejection d = 0
  /\ count_events (is_oos_candidate true) d + Nat.b2n accepted <= k).

Lemma joint_counts_nil : joint_counts opts (V:=V) (M:=M) [] 0.
Proof. unfold joint_counts, count_events. simpl. lia. Qed.

Lemma joint_counts_app (d1 d2 : list (Event V M)) n1 n2 :
  joint_counts opts d1 n1 -> joint_counts opts d2 n2 ->
  joint_counts opts (d2 ++ d1) (n2 + n1).
Proof. unfold joint_counts. rewrite !count_events_app. nia. Qed.

Lemma dr_stage_joint fuel d0 (s : St) :
  dr_accept d0 = false ->
  run_ok opts (dr_stage opts fuel d0) s (fun d' d => dr_joint d (dr_accept d') 1).
Proof.
  intros Hacc0. unfold dr_stage, incr_numDRs.
  eapply (run_ok_bind_modify2 _ _ _ _ _ [EvDRStage (S (dr_stageId d0))]).
  { unfold step. simpl. repeat split; auto. by repeat constructor. }
  eapply run_ok_bind; [apply candidate_for_stage_ok|].
  intros [c valid] s1 d1 _ _ (Hc & _ & Hev). simpl in Hc, Hev.
  apply candidate_events_counts in Hev as (C1 & C2 & _ & C4).
  eapply run_ok_bind
    with (P := fun a d => d = [] /\ (outOfTargetSupport c = true -> a = false)).
  { destruct (outOfTargetSupport c).
    - by apply run_ok_ret.
    - apply run_ok_bind_get.
      eapply run_ok_bind with (P := fun _ d => d = []).
      + by apply run_ok_lift_w.
      + intros a s2 d2 _ _ ->. eapply run_ok_conseq; [apply accept_with_rng_ok|].
        by intros b d ->. }
  intros acc s2 d2 _ _ [-> Hacc]. apply run_ok_ret. simpl.
  rewrite ?app_nil_l, !count_events_app, C2, !C4. simpl.
  destruct (outOfTargetSupport c).
  - rewrite Hacc by done. unfold count_events. simpl. lia.
  - destruct acc; unfold count_events; simpl; lia.
Qed.

Lemma dr_loop_joint fuel turns d0 (s : St) :
  run_ok opts (dr_loop opts fuel turns d0) s
    (fun d' d => dr_joint d (dr_accept d') (turns + Nat.b2n (dr_accept d0))).
Proof.
  revert d0 s. induction turns as [|turns IH]; intros d0 s; simpl.
  - apply run_ok_ret. unfold count_events. simpl. lia.
  - destruct (dr_condition opts d0) eqn:Ec.
    2:{ apply run_ok_ret. unfold count_events. simpl. lia. }
    assert (Hacc0 : dr_accept d0 = false).
    { unfold dr_condition in Ec. by destruct (dr_accept d0); rewrite ?andb_false_r in Ec. }
    eapply run_ok_bind; [by apply dr_stage_joint|].
    intros d1 s1 dd1 _ _ (A1 & A2 & A3). eapply run_ok_conseq; [apply IH|].
    intros d2 dd2 (B1 & B2 & B3). rewrite !count_events_app, Hacc0. simpl. lia.
Qed.

Lemma delayed_rejection_joint fuel positionId cur cand valid accept (s : St) :
  run_ok opts (delayed_rejection opts fuel positionId cur cand valid accept) s
    (fun ac d =>
       dr_joint d ac.1
         ((if negb accept && negb (outOfTargetSupport cand)
           then m_drMaxNumExtraStages opts else 0) + Nat.b2n accept)).
Proof.
  unfold delayed_rejection.
  destruct (negb accept && negb (outOfTargetSupport cand)) eqn:Ec; simpl.
  - destruct (0 <? m_drMaxNumExtraStages opts).
    2:{ apply run_ok_ret. unfold count_events. simpl. lia. }
    destruct (avoid_dr_now opts positionId).
    + apply run_ok_ret. unfold count_events. simpl. lia.
    + assert (accept = false) as -> by (by destruct accept).
      eapply run_ok_bind; [apply dr_loop_joint|].
      intros d1 s1 dd1 _ _ H1. apply run_ok_ret. rewrite app_nil_l. simpl in *. done.
  - apply run_ok_ret. unfold count_events. simpl. lia.
Qed.

Lemma chain_position_joint fuel positionId cur (s : St) :
  run_ok opts (chain_position opts fuel positionId cur) s
    (fun _ d => joint_counts opts d 1).
Proof.
  unfold chain_position.
  apply run_ok_bind_frame; [done..|].
  apply run_ok_bind_get. unfold setPreComputingPosition.
  apply run_ok_bind_frame; [done..|].
  apply run_ok_bind_fatal_test. intros _.
  eapply run_ok_bind; [apply candidate_for_stage_ok|].
  intros [c valid] s1 d1 _ _ (Hc & _ & Hev). simpl in Hc, Hev.
  apply candidate_events_counts in Hev as (C1 & C2 & _ & C4).
  eapply run_ok_bind
    with (P := fun a d => d = [] /\ (outOfTargetSupport c = true -> a = false)).
  { destruct (outOfTargetSupport c).
    - by apply run_ok_ret.
    - apply run_ok_bind_get.
      destruct (alpha_xy _ cur c 0 1) as [[a q] w].
      apply run_ok_bind_frame; [done..|].
      eapply run_ok_conseq; [apply accept_with_rng_ok|]. by intros b d ->. }
  intros accept0 s2 d2 _ _ [-> Hacc0].
  eapply run_ok_bind; [apply delayed_rejection_joint|].
  intros [accept cand] s3 d3 _ _ (D1 & D2 & D3). simpl in D3.
  eapply run_ok_bind; [apply update_chain_ok|].
  intros cur' s4 d4 _ _ ->.
  eapply run_ok_bind; [apply adaptive_metropolis_ok|].
  intros u s5 d5 _ _ Ham.
  apply run_ok_ret.
  unfold joint_counts. simpl. rewrite ?app_nil_r, !count_events_app.
  rewrite !(am_only_count _ d5) by (done || by intros []).
  rewrite C2, !C4, D1, D2. simpl.
  destruct (outOfTargetSupport c).
  - rewrite Hacc0 in D3 by done. simpl in D3.
    destruct accept; simpl in D3; unfold count_events in *; simpl; lia.
  - destruct accept0, accept; simpl in D3; unfold count_events in *; simpl; lia.
Qed.

Lemma chain_loop_joint fuel turns positionId cur (s : St) :
  run_ok opts (chain_loop opts fuel turns positionId cur) s
    (fun _ d => joint_counts opts d turns).
Proof.
  revert positionId cur s. induction turns as [|turns IH]; intros positionId cur s; simpl.
  - apply run_ok_ret, joint_counts_nil.
  - eapply run_ok_bind; [apply chain_position_joint|].
    intros cur' s1 d1 _ _ H1. eapply run_ok_conseq; [apply IH|].
    intros cur'' d2 H2. rewrite ?app_nil_r. replace (S turns) with (turns + 1) by lia.
    by apply joint_counts_app.
Qed.

Lemma barrier_loop_joint turns positionId cur (s : St) :
  run_ok opts (barrier_loop turns positionId cur) s
    (fun _ d => joint_counts opts d turns).
Proof.
  revert positionId s. induction turns as [|turns IH]; intros positionId s; simpl.
  - apply run_ok_ret, joint_counts_nil.
  - eapply run_ok_bind; [apply setPositionValues_ok|].
    intros u s1 d1 _ _ ->. unfold incr_numRejections.
    eapply (run_ok_bind_modify2 _ _ _ _ _ [EvRejection positionId]).
    { unfold step. simpl. repeat split; auto. by repeat constructor. }
    eapply run_ok_conseq; [apply IH|].
    intros u' d2 H2. rewrite ?app_nil_r. replace (S turns) with (turns + 1) by lia.
    apply joint_counts_app; [|done].
    unfold joint_counts, count_events. simpl. lia.
Qed.

Lemma generate_from_initial_position_joint fuel x0 chainSize (s : St) :
  contains x0 = true ->
  run_ok opts (generate_from_initial_position opts fuel x0 chainSize) s
    (fun _ d => exists d', d = d' ++ [EvTargetCall x0]
                           /\ joint_counts opts d' (chainSize - 1)).
Proof.
  intros Hx0. unfold generate_from_initial_position.
  eapply run_ok_bind; [by apply evaluate_target_ok|].
  intros ll_lt s1 d1 _ _ ->.
  apply run_ok_bind_frame; [done..|].
  eapply run_ok_bind; [apply setPositionValues_ok|].
  intros u s2 d2 _ _ ->.
  unfold store_log_values. apply run_ok_bind_frame; [done..|].
  destruct (waits_at_barrier x0).
  - eapply run_ok_conseq; [apply barrier_loop_joint|].
    intros u' d Hd. exists d. by rewrite ?app_nil_l, ?app_nil_r.
  - eapply run_ok_bind; [apply chain_loop_joint|].
    intros cur s3 d3 _ _ Hd. apply run_ok_ret. exists d3.
    by rewrite ?app_nil_l, ?app_nil_r.
Qed.

(** The joint count of the out-of-support candidates of a completed run. *)
Lemma generateFullChain_joint fuel x0 chainSize (s : St) :
  match generateFullChain opts fuel x0 chainSize s with
  | Returns _ s' =>
      exists d', events s' = d' ++ [EvTargetCall x0]
                 /\ joint_counts opts d' (chainSize - 1)
  | _ => True
  end.
Proof.
  unfold generateFullChain, S.bind, S.modify, S.fatal_test. simpl.
  destruct (contains x0) eqn:Hx0; simpl; [|done].
  pose proof (generate_from_initial_position_joint fuel x0 chainSize
                (set_events [] (set_info info_reset s)) Hx0) as Hrun.
  unfold run_ok in Hrun.
  destruct (generate_from_initial_position opts fuel x0 chainSize _) as [u s'|e s'|];
    [|done..].
  destruct Hrun as (d & (E & F & A & I) & (d' & -> & Hc)). simpl in E.
  rewrite app_nil_r in E. by exists d'.
Qed.
End JointFacts.

Section RunTheorems.
Context {V M Rng : Type} {libm : LibM} {build : BuildConfig}
  {tkg : BaseTKGroup V M Rng} {rngb : RngBase Rng} {target : TargetPdf V}
  {space : VectorSpace V M} {env : BaseEnvironment}.
Variable opts : MhOptionsValues.
Local Abbreviation St := (Sampler V M Rng).
Local Abbreviation Position := (MarkovChainPositionData V).

(** C6.  When the initial point is outside the support, the run is aborted
    with [InvalidInitialPoint] in the state the reset left: the chain is
    untouched and the log of the run is empty (no position was produced).
    When it is inside, the run is what follows the test. *)
Theorem initial_position_check fuel (x0 : V) chainSize (s : St) :
  (contains x0 = false ->
     generateFullChain opts fuel x0 chainSize s
     = Aborts InvalidInitialPoint (reset_state s)
     /\ workingChain (reset_state s) = workingChain s
     /\ events (reset_state s) = [])
  /\ (contains x0 = true ->
      generateFullChain opts fuel x0 chainSize s
      = generate_from_initial_position opts fuel x0 chainSize (reset_state s)
      /\ match generateFullChain opts fuel x0 chainSize s with
         | Returns _ s' => exists d, events s' = d ++ [EvTargetCall x0]
         | _ => True
         end).
Proof.
  split; intros Hx0.
  - unfold generateFullChain, S.bind, S.modify, S.fatal_test. simpl.
    by rewrite Hx0.
  - split.
    + unfold generateFullChain, S.bind, S.modify, S.fatal_test. simpl.
      by rewrite Hx0.
    + pose proof (generateFullChain_counts opts fuel x0 chainSize s) as Hc.
      destruct (generateFullChain opts fuel x0 chainSize s); [|done..].
      destruct Hc as (d & E & _). by exists d.
Qed.

Lemma Forall_elem {A} (P : A -> Prop) (l : list A) x : Forall P l -> x ∈ l -> P x.
Proof.
  intros Hl Hx. induction Hl as [|y l Hy Hl IH]; inversion Hx; subst; auto.
Qed.

(** C7, as the code has it.  The target evaluation never fails: it returns
    the evaluator's values, NaN included, counts the call and logs it.  A
    NaN log-target at an in-support pair makes the acceptance probability 0
    with a diagnostic.  In every run, returned or aborted, the evaluator is
    called on points of the support only; a candidate out of the support
    has log-target [-inf] and no call was made on its values. *)
Theorem target_evaluation_step :
  (forall (v : V) (s : St),
     exists s',
       evaluate_target v s
       = Returns ((callFunction v).2, ln_conv (callFunction v).1.1) s'
       /\ numTargetCalls (m_rawChainInfo s')
          = uint_incr (numTargetCalls (m_rawChainInfo s))
       /\ events s' = EvTargetCall v :: events s)
  /\ (forall (tk : TKState V M) (x y : Position) xStageId yStageId,
        outOfTargetSupport x = false -> outOfTargetSupport y = false ->
        PrimFloat.is_nan (logTarget x) || PrimFloat.is_nan (logTarget y) = true ->
        (alpha_xy tk x y xStageId yStageId).1.1 = Dbl.zero
        /\ (alpha_xy tk x y xStageId yStageId).2 <> [])
  /\ (forall fuel (x0 : V) chainSize (s : St),
        match generateFullChain opts fuel x0 chainSize s with
        | Returns _ s' | Aborts _ s' =>
            (forall v, EvTargetCall v ∈ events s' -> contains v = true)
            /\ (forall inDR c, EvCandidate inDR c ∈ events s' ->
                  outOfTargetSupport c = true ->
                  logTarget c = neg_infinity
                  /\ EvTargetCall (vecValues c) ∉ events s')
        | OutOfFuel => True
        end).
Proof.
  split; [|split].
  - intros v s. unfold evaluate_target.
    destruct (callFunction v) as [[value lp] ll]. eexists. simpl.
    unfold S.bind, S.modify, incr_numTargetCalls, S.ret. simpl. done.
  - intros tk x y xs ys Hx Hy Hnan. unfold alpha_xy. rewrite Hx, Hy. simpl.
    unfold Dbl.inf_or_nan.
    destruct (PrimFloat.is_nan (logTarget x)) eqn:Ex.
    + rewrite orb_true_r. done.
    + simpl in Hnan. rewrite Hnan, !orb_true_r.
      by destruct (_ || _ || false).
  - intros fuel x0 chainSize s.
    pose proof (generateFullChain_safe opts fuel x0 chainSize s) as Hs.
    destruct (generateFullChain opts fuel x0 chainSize s) as [u s'|e s'|]; [| |done].
    all: destruct Hs as (Hok & _ & _); split.
    all: try (intros v Hv; apply (Forall_elem _ _ _ Hok Hv)).
    all: intros inDR c Hc Hoos.
    all: destruct (Forall_elem _ _ _ Hok Hc) as (E1 & E2 & _); split; [by apply E2|].
    all: intros Hin; apply (Forall_elem _ _ _ Hok) in Hin; simpl in Hin.
    all: rewrite Hoos in E1; rewrite Hin in E1; done.
Qed.

Lemma count_events_le_length (p : Event V M -> bool) l : count_events p l <= length l.
Proof.
  induction l as [|e l IH]; [done|]. rewrite count_events_cons. simpl.
  destruct (p e); lia.
Qed.

Lemma am_disabled :
  m_amInitialNonAdaptInterval opts = 0 \/ m_amAdaptInterval opts = 0
  \/ m_tkUseLocalHessian opts = true ->
  am_enabled opts = false.
Proof.
  unfold am_enabled. intros [-> | [-> | ->]]; simpl;
    rewrite ?andb_false_r; done.
Qed.

(** C8, as the code has it.  In a completed run of [chainSize] positions
    with [K] extra stages, when [chainSize * (K + 1) < 2^32] (no counter
    wraps around): [numOutOfTargetSupport + numOutOfTargetSupportInDR] is
    the number of candidate records (kept draws) whose flag is set;
    [numOutOfTargetSupport <= numRejections <= chainSize - 1];
    [numOutOfTargetSupportInDR <= numDRs <= K * (chainSize - 1)]; both
    counters are 0 when out-of-bounds candidates are not put in the chain;
    and the sum of the two is at most
    [numRejections + max(K - 1, 0) * (chainSize - 1)], hence at most
    [numRejections + chainSize] when [K <= 2]. *)
Theorem out_of_support_accounting fuel (x0 : V) chainSize (s : St) :
  (N.of_nat (chainSize * S (m_drMaxNumExtraStages opts)) < 2 ^ 32)%N ->
  match generateFullChain opts fuel x0 chainSize s with
  | Returns _ s' =>
      let i := m_rawChainInfo s' in
      (numOutOfTargetSupport i + numOutOfTargetSupportInDR i
       = N.of_nat (count_events (is_oos_candidate false) (events s')
                   + count_events (is_oos_candidate true) (events s')))%N
      /\ (numOutOfTargetSupport i <= numRejections i)%N
      /\ (numRejections i <= N.of_nat (chainSize - 1))%N
      /\ (numOutOfTargetSupportInDR i <= numDRs i)%N
      /\ (numDRs i <= N.of_nat (m_drMaxNumExtraStages opts * (chainSize - 1)))%N
      /\ (m_putOutOfBoundsInChain opts = false ->
          numOutOfTargetSupport i = 0%N /\ numOutOfTargetSupportInDR i = 0%N)
      /\ (numOutOfTargetSupport i + numOutOfTargetSupportInDR i
          <= numRejections i
             + N.of_nat ((m_drMaxNumExtraStages opts - 1) * (chainSize - 1)))%N
      /\ (m_drMaxNumExtraStages opts <= 2 ->
          (numOutOfTargetSupport i + numOutOfTargetSupportInDR i
           <= numRejections i + N.of_nat chainSize)%N)
  | _ => True
  end.
Proof.
  intros Hbound.
  pose proof (generateFullChain_safe opts fuel x0 chainSize s) as Hs.
  pose proof (generateFullChain_counts opts fuel x0 chainSize s) as Hc.
  pose proof (generateFullChain_joint opts fuel x0 chainSize s) as Hj.
  destruct (generateFullChain opts fuel x0 chainSize s) as [u s'|e s'|]; [|done..].
  destruct Hs as (Hok & _ & Hinfo). destruct Hc as (d' & Hev & C1 & C2 & C3 & C4).
  destruct Hj as (d'' & Hev' & J).
  assert (d'' = d') as -> by (rewrite Hev in Hev'; by apply app_inv_tail in Hev').
  unfold joint_counts in J.
  simpl. rewrite Hinfo. simpl.
  assert (Hput : m_putOutOfBoundsInChain opts = false ->
                 forall b, count_events (is_oos_candidate b) (events s') = 0).
  { intros Hp b. apply count_events_zero. eapply Forall_impl; [|exact Hok].
    intros [] He; try done. simpl in He. destruct He as (_ & _ & He).
    simpl. rewrite He by done. apply andb_false_r. }
  rewrite Hev in *. rewrite !count_events_app in *.
  unfold count_events at 2 4 6 8 10 12 14 16 18 20. simpl. rewrite !Nat.add_0_r in *.
  set (K := m_drMaxNumExtraStages opts) in *.
  assert (K * (chainSize - 1) <= chainSize * S K) by nia.
  assert (chainSize - 1 <= chainSize * S K) by nia.
  rewrite !bump_zero by lia.
  do 5 (split; [lia|]).
  split.
  { intros Hp. pose proof (Hput Hp false) as Hf. pose proof (Hput Hp true) as Ht.
    rewrite count_events_app in Hf, Ht. lia. }
  split; [lia|].
  intros HK. assert ((K - 1) * (chainSize - 1) <= chainSize) by nia. lia.
Qed.

(** C10.  When [m_amInitialNonAdaptInterval = 0], or
    [m_amAdaptInterval = 0], or the local-Hessian kernel is selected, a run,
    returned or aborted, logs no adaptation event, leaves [m_lastMean],
    [m_lastAdaptedCovMatrix] and [m_lastChainSize] as they were (not
    allocated, after the constructor) and leaves the kernel's covariance at
    its initial value. *)
Theorem no_adaptation_when_disabled fuel (x0 : V) chainSize (s : St) :
  m_amInitialNonAdaptInterval opts = 0 \/ m_amAdaptInterval opts = 0
  \/ m_tkUseLocalHessian opts = true ->
  match generateFullChain opts fuel x0 chainSize s with
  | Returns _ s' | Aborts _ s' =>
      count_events is_am_event (events s') = 0
      /\ m_lastMean s' = m_lastMean s
      /\ m_lastAdaptedCovMatrix s' = m_lastAdaptedCovMatrix s
      /\ m_lastChainSize s' = m_lastChainSize s
      /\ lawCovMatrix (m_tk s') = lawCovMatrix (m_tk s)
  | OutOfFuel => True
  end.
Proof.
  intros Hoff. apply am_disabled in Hoff.
  pose proof (generateFullChain_safe opts fuel x0 chainSize s) as Hs.
  destruct (generateFullChain opts fuel x0 chainSize s) as [u s'|e s'|]; [| |done].
  all: destruct Hs as (Hok & Hview & _); specialize (Hview Hoff).
  all: unfold am_view in Hview; injection Hview as -> -> -> ->.
  all: repeat split; try done.
  all: apply count_events_zero; eapply Forall_impl; [|exact Hok].
  all: intros [] He; try done; simpl in He; congruence.
Qed.

(** C5, as the code has it.  The first factorisation is attempted on the
    adapted covariance itself; if it succeeds the kernel's covariance
    becomes [eta] times it.  If it fails with a code other than "not
    positive definite" the run is aborted.  Otherwise the second
    factorisation is attempted on the adapted covariance plus
    [epsilon * I]; if it succeeds the kernel's covariance becomes [eta]
    times that matrix; if it fails as not positive definite the kernel
    keeps its covariance and the run goes on; with another code the run is
    aborted. *)
Theorem refresh_proposal_covariance_cases positionId (c : M) (s : St) :
  let rc1 := chol c in
  let c2 := mat_add c (newDiagMatrix (m_amEpsilon opts)) in
  let rc2 := chol c2 in
  let eta := m_amEta opts in
  (rc1 = 0%Z ->
     exists s', refresh_proposal_covariance opts positionId c s = Returns tt s'
       /\ m_tk s' = updateLawCovMatrix (m_tk s) (mat_scale eta c)
       /\ events s' = EvUpdateLawCov positionId (mat_scale eta c)
                       :: EvChol positionId c rc1 :: events s)
  /\ (rc1 <> 0%Z -> rc1 <> UQ_MATRIX_IS_NOT_POS_DEFINITE_RC ->
      exists s', refresh_proposal_covariance opts positionId c s = Aborts InvalidCholRC1 s')
  /\ (rc1 <> 0%Z -> rc1 = UQ_MATRIX_IS_NOT_POS_DEFINITE_RC -> rc2 = 0%Z ->
      exists s', refresh_proposal_covariance opts positionId c s = Returns tt s'
        /\ m_tk s' = updateLawCovMatrix (m_tk s) (mat_scale eta c2)
        /\ events s' = EvUpdateLawCov positionId (mat_scale eta c2)
                        :: EvChol positionId c2 rc2
                        :: EvChol positionId c rc1 :: events s)
  /\ (rc1 <> 0%Z -> rc1 = UQ_MATRIX_IS_NOT_POS_DEFINITE_RC ->
      rc2 <> 0%Z -> rc2 <> UQ_MATRIX_IS_NOT_POS_DEFINITE_RC ->
      exists s', refresh_proposal_covariance opts positionId c s = Aborts InvalidCholRC2 s')
  /\ (rc1 <> 0%Z -> rc1 = UQ_MATRIX_IS_NOT_POS_DEFINITE_RC ->
      rc2 <> 0%Z -> rc2 = UQ_MATRIX_IS_NOT_POS_DEFINITE_RC ->
      exists s', refresh_proposal_covariance opts positionId c s = Returns tt s'
        /\ m_tk s' = m_tk s
        /\ events s' = EvChol positionId c2 rc2 :: EvChol positionId c rc1 :: events s).
Proof.
  intros rc1 c2 rc2 eta.
  unfold refresh_proposal_covariance, chol_event, S.bind, S.modify, S.ret, S.fatal_test.
  simpl. fold rc1. fold c2. fold rc2.
  repeat split.
  - intros ->. simpl. eexists. repeat split.
  - intros H1 H2. apply Z.eqb_neq in H1, H2. rewrite H1, H2. simpl. by eexists.
  - intros H1 H2 ->. apply Z.eqb_neq in H1. rewrite H1. simpl.
    rewrite H2, Z.eqb_refl. simpl. eexists. repeat split.
  - intros H1 H2 H3 H4. apply Z.eqb_neq in H1, H3, H4. rewrite H1. simpl.
    rewrite H2, Z.eqb_refl. simpl. rewrite H3. simpl. rewrite H4. simpl. by eexists.
  - intros H1 H2 H3 H4. apply Z.eqb_neq in H1, H3. rewrite H1. simpl.
    rewrite H2, Z.eqb_refl. simpl. rewrite H3. simpl. rewrite H4, Z.eqb_refl. simpl.
    eexists. repeat split.
Qed.

(** C4, what the code does.  At step [positionId]: nothing is consumed
    before [m_amInitialNonAdaptInterval]; at that step the positions
    [0 .. positionId] are consumed and the two adapted quantities are
    allocated; at a later step there is an update exactly when
    [(positionId - m_amInitialNonAdaptInterval) mod m_amAdaptInterval = 0],
    and it consumes the [m_amAdaptInterval] positions starting at
    [positionId - m_amAdaptInterval], that is the positions up to
    [positionId - 1]: the position just generated is left out. *)
Theorem am_schedule_cases (positionId : nat) :
  let init := m_amInitialNonAdaptInterval opts in
  let adapt := m_amAdaptInterval opts in
  (positionId < init -> am_schedule opts positionId = (0, 0, false))
  /\ (positionId = init -> am_schedule opts positionId = (0, init + 1, true))
  /\ (init < positionId -> (positionId - init) mod adapt = 0 ->
      am_schedule opts positionId = (positionId - adapt, adapt, false))
  /\ (init < positionId -> (positionId - init) mod adapt <> 0 ->
      am_schedule opts positionId = (0, 0, false)).
Proof.
  intros init adapt. unfold am_schedule. fold init adapt. repeat split.
  - intros Hlt. by destruct (Nat.ltb_spec positionId init); [|lia].
  - intros ->. rewrite Nat.ltb_irrefl, Nat.eqb_refl. done.
  - intros Hlt Hm. destruct (Nat.ltb_spec positionId init); [lia|].
    destruct (Nat.eqb_spec positionId init); [lia|]. by rewrite Hm.
  - intros Hlt Hm. destruct (Nat.ltb_spec positionId init); [lia|].
    destruct (Nat.eqb_spec positionId init); [lia|].
    by destruct (Nat.eqb_spec ((positionId - init) mod adapt) 0).
Qed.

Section PlainMetropolis.
Hypothesis no_dr : m_drMaxNumExtraStages opts = 0.
Hypothesis no_am : am_enabled opts = false.
Hypothesis in_support : forall tk rng, contains (rv_realization tk 0 rng).1 = true.
Hypothesis valid_positions : forall tk (v : V) i, preComputingPositionIsValid tk v i = true.

Lemma generate_candidate_in_support fuel (s : St) :
  exists v rng',
    rv_realization (m_tk s) 0 (m_rng s) = (v, rng')
    /\ contains v = true
    /\ generate_candidate opts (S fuel) (fun tk => rv_realization tk 0) s
       = Returns (v, false) (add_event (EvRealization v false) (set_rng rng' s)).
Proof.
  pose proof (in_support (m_tk s) (m_rng s)) as Hin.
  destruct (rv_realization (m_tk s) 0 (m_rng s)) as [v rng'] eqn:Hdraw.
  simpl in Hin. exists v, rng'. repeat split; [done|].
  simpl. unfold S.bind, S.get, S.modify, S.ret. rewrite Hdraw. simpl.
  rewrite Hin. simpl. by destruct (m_putOutOfBoundsInChain opts).
Qed.

Lemma chain_position_plain fuel positionId (cur : Position) (s : St) :
  positionId < length (workingChain s) ->
  exists cur' s',
    chain_position opts (S fuel) positionId cur s = Returns cur' s'
    /\ length (workingChain s') = length (workingChain s)
    /\ numTargetCalls (m_rawChainInfo s')
       = uint_incr (numTargetCalls (m_rawChainInfo s)).
Proof.
  intros Hpos. unfold chain_position.
  unfold S.bind at 1. unfold S.modify at 1.
  unfold S.bind at 1. unfold S.get at 1.
  unfold setPreComputingPosition at 1. rewrite valid_positions.
  unfold S.bind at 1. unfold S.modify at 1.
  unfold S.bind at 1. unfold S.fatal_test at 1. simpl negb. cbv iota.
  unfold S.bind at 1. unfold candidate_for_stage.
  unfold S.bind at 1.
  match goal with |- context [generate_candidate opts (S fuel) _ ?s0] =>
    destruct (generate_candidate_in_support fuel s0) as (v & rng' & Hdraw & Hin & ->)
  end.
  unfold S.bind, S.get, S.modify, S.ret, evaluate_target, incr_numTargetCalls,
    setPreComputingPosition.
  simpl.
  destruct (callFunction v) as [[value g] ll]. simpl.
  match goal with |- context [alpha_xy ?a ?b ?c ?d ?e] =>
    destruct (alpha_xy a b c d e) as [[alphaFirst q] w] end.
  unfold accept_with_rng. simpl.
  match goal with |- context [acceptAlpha ?a ?r] =>
    destruct (acceptAlpha a r) as [accept rng''] end.
  unfold delayed_rejection. rewrite no_dr. simpl. rewrite andb_false_r.
  unfold update_chain, setPositionValues, S.bind, S.ret, incr_numRejections,
    S.modify, store_log_values, adaptive_metropolis.
  rewrite no_am. simpl.
  apply Nat.ltb_lt in Hpos.
  destruct accept; simpl; rewrite Hpos; simpl.
  all: eexists _, _; split; [reflexivity|]; simpl.
  all: by rewrite length_insert.
Qed.

Lemma chain_loop_plain fuel turns : forall positionId (cur : Position) (s : St),
  positionId + turns <= length (workingChain s) ->
  exists cur' s',
    chain_loop opts (S fuel) turns positionId cur s = Returns cur' s'
    /\ length (workingChain s') = length (workingChain s)
    /\ numTargetCalls (m_rawChainInfo s')
       = bump turns (numTargetCalls (m_rawChainInfo s)).
Proof.
  induction turns as [|turns IH]; intros positionId cur s Hlen.
  - by exists cur, s.
  - destruct (chain_position_plain fuel positionId cur s) as (c1 & s1 & E1 & L1 & T1);
      [lia|].
    destruct (IH (S positionId) c1 s1) as (c2 & s2 & E2 & L2 & T2); [lia|].
    exists c2, s2. cbn [chain_loop]. unfold S.bind at 1. rewrite E1.
    split; [exact E2|]. split; [congruence|].
    rewrite T2, T1. replace (S turns) with (turns + 1) by lia.
    by rewrite bump_add.
Qed.

Lemma length_resizeSequence {A} (fill : A) n l : length (resizeSequence fill n l) = n.
Proof.
  unfold resizeSequence. rewrite length_app, length_take, length_replicate. lia.
Qed.

Lemma generateFullChain_plain fuel (x0 : V) chainSize (s : St) :
  contains x0 = true ->
  waits_at_barrier x0 = false ->
  0 < chainSize ->
  exists s',
    generateFullChain opts (S fuel) x0 chainSize s = Returns tt s'
    /\ length (workingChain s') = chainSize
    /\ numTargetCalls (m_rawChainInfo s') = bump chainSize 0%N.
Proof.
  intros Hx0 Hbar Hn.
  unfold generateFullChain, generate_from_initial_position.
  unfold S.bind at 1. unfold S.modify at 1.
  unfold S.bind at 1. unfold S.fatal_test at 1. rewrite Hx0. simpl negb. cbv iota.
  rewrite Hbar.
  unfold evaluate_target, incr_numTargetCalls, store_log_values, setPositionValues.
  destruct (callFunction x0) as [[value g] ll].
  unfold S.bind, S.modify, S.ret. simpl.
  rewrite length_resizeSequence.
  destruct (Nat.ltb_spec 0 chainSize) as [_|]; [|lia].
  match goal with |- context [chain_loop opts (S fuel) ?t ?p ?c ?s0] =>
    destruct (chain_loop_plain fuel t p c s0) as (c2 & s2 & E2 & L2 & T2)
  end.
  { simpl. rewrite length_insert, length_resizeSequence. lia. }
  rewrite E2. exists s2. split; [done|].
  simpl in L2, T2. rewrite length_insert, length_resizeSequence in L2.
  split; [done|]. rewrite T2.
  replace chainSize with ((chainSize - 1) + 1) at 2 by lia.
  by rewrite bump_add.
Qed.

(** C9, as the code has it.  With no extra stage, adaptation off, every
    proposal in the support, valid pre-computing positions, an initial
    point in the support, a rank that does not wait at the barrier and
    [0 < chainSize < 2^32], the run returns with a chain of [chainSize]
    positions, [numTargetCalls = chainSize] (one call for the initial
    position and one for each of the [chainSize - 1] proposals),
    [numRejections <= chainSize - 1] and [numDRs = 0].  For
    [chainSize = 10]: 10 calls, at most 9 rejections. *)
Theorem plain_metropolis_run fuel (x0 : V) chainSize (s : St) :
  0 < fuel ->
  contains x0 = true ->
  waits_at_barrier x0 = false ->
  0 < chainSize ->
  (N.of_nat chainSize < 2 ^ 32)%N ->
  exists s',
    generateFullChain opts fuel x0 chainSize s = Returns tt s'
    /\ length (workingChain s') = chainSize
    /\ numTargetCalls (m_rawChainInfo s') = N.of_nat chainSize
    /\ (numRejections (m_rawChainInfo s') <= N.of_nat (chainSize - 1))%N
    /\ numDRs (m_rawChainInfo s') = 0%N.
Proof.
  intros Hfuel Hx0 Hbar Hn Hbound.
  destruct fuel as [|fuel]; [lia|].
  destruct (generateFullChain_plain fuel x0 chainSize s Hx0 Hbar Hn)
    as (s' & Hrun & Hlen & Hcalls).
  pose proof (generateFullChain_safe opts (S fuel) x0 chainSize s) as Hs.
  pose proof (generateFullChain_counts opts (S fuel) x0 chainSize s) as Hc.
  rewrite Hrun in Hs, Hc.
  destruct Hs as (_ & _ & Hinfo). destruct Hc as (d' & Hev & C1 & C2 & C3 & C4).
  exists s'. split; [done|]. split; [done|].
  split; [by rewrite Hcalls, bump_zero|].
  rewrite Hinfo, Hev. simpl. rewrite !count_events_app.
  unfold count_events at 2 4. simpl. rewrite !Nat.add_0_r.
  rewrite no_dr in C4. simpl in C4.
  rewrite !bump_zero by lia. split; lia.
Qed.
End PlainMetropolis.
End RunTheorems.

(** * The sampler on concrete inputs *)

Section ConcreteRuns.
Import Toy.

(** The counterexample below does not depend on the model of [std::exp]
    beyond two values fixed by IEEE 754: [exp(-inf) = 0] and [exp(0) = 1]. *)
Lemma last_stage_density_for_any_exp (L : LibM) :
  std_exp neg_infinity = 0%float -> std_exp 0%float = 1%float ->
  W.value (alpha_vec (libm := L) (tkg := Toy.tk_blocked)
             Toy.three_registered Toy.three_positions [0; 1; 2]) = 0%float
  /\ alpha_vec_intermediate_only (libm := L) (tkg := Toy.tk_blocked)
       Toy.three_registered Toy.three_positions [0; 1; 2] = 1%float.
Proof.
  destruct L as [f]. simpl. intros E1 E2. vm_compute in E1, E2. split.
  - vm_compute. rewrite E1. reflexivity.
  - vm_compute. rewrite E2. reflexivity.
Qed.

(** C1, counterexample.  Three positions in the support, log-target 0 at
    both ends, stage ids registered; the proposal density of the last stage
    seen from the reversed list is 0.  The code returns 0, because the last
    position's stage density is in the sum; the ratio with the intermediate
    positions only is 1. *)
Lemma alpha_vec_counts_last_stage_density :
  degenerate_endpoints (Toy.in_support_at 10%float 0%float)
    (Toy.in_support_at 12%float 0%float) = false
  /\ alpha_vec (tkg := Toy.tk_blocked) Toy.three_registered Toy.three_positions [0; 1; 2]
     = Ok (0%float, [WarnAlphaVec_last 2 neg_infinity 12%float 11%float;
                     WarnAlphaVec_last 2 neg_infinity 10%float 11%float])
  /\ alpha_vec_intermediate_only (tkg := Toy.tk_blocked)
       Toy.three_registered Toy.three_positions [0; 1; 2] = 1%float.
Proof. repeat split; vm_compute; reflexivity. Qed.

Lemma alpha_vec_dram_ratio_witness :
  w_returns
    (alpha_vec (tkg := Toy.tk_blocked) Toy.three_registered Toy.three_positions [0; 1; 2])
    (alpha_vec_closed (tkg := Toy.tk_blocked)
       Toy.three_registered Toy.three_positions [0; 1; 2]).
Proof.
  apply (alpha_vec_dram_ratio (tkg := Toy.tk_blocked)
           Toy.three_registered Toy.three_positions [0; 1; 2]
           (Toy.in_support_at 10%float 0%float) (Toy.in_support_at 12%float 0%float)).
  - simpl. lia.
  - reflexivity.
  - reflexivity.
  - reflexivity.
  - reflexivity.
  - simpl. lia.
  - repeat constructor.
Defined.

(** C2, counterexample.  A candidate out of the support: the result is 0 and
    no diagnostic is recorded. *)
Lemma alpha_xy_out_of_support_silent :
  alpha_xy (tkg := Toy.tk_flat) Toy.three_registered
    (Toy.in_support_at 10%float 0%float)
    (mkPosition (-5)%float true neg_infinity neg_infinity) 0 1
  = (0%float, 0%float, []).
Proof. reflexivity. Qed.

(** C3, counterexample.  At [alpha = 0] with the next uniform sample
    [u = 0]: the code rejects and leaves the generator as it was; drawing
    [u] and accepting when [u <= alpha] accepts and consumes the sample. *)
Lemma acceptAlpha_no_draw_at_zero :
  acceptAlpha 0%float [0%float] = (false, [0%float])
  /\ accept_by_draw 0%float [0%float] = (true, []).
Proof. split; reflexivity. Qed.

(** C4, the adaptation events of [am_run] (seed at step 2, update every 2
    steps): the update at step 4 consumes the positions 2 and 3, not 3 and
    4, and the one at step 6 the positions 4 and 5; position 2 is consumed
    by the seed and again by the first update, position 6 never. *)
Lemma am_run_update_windows :
  Toy.adaptations Toy.am_run
  = [EvAdapt 2 0 [0%float; 1%float; 2%float];
     EvAdapt 4 2 [2%float; 3%float];
     EvAdapt 6 4 [4%float; 5%float]]
  /\ (match Toy.am_run with Returns _ s => workingChain s | _ => [] end)
     = [Some 0%float; Some 1%float; Some 2%float; Some 3%float;
        Some 4%float; Some 5%float; Some 6%float].
Proof. split; vm_compute; reflexivity. Qed.

(** C5, counterexample.  Adapted covariance 0, [eta = 2],
    [epsilon = 2^-20]: the code factorises 0, then [0 + epsilon], and sets
    the kernel's covariance to [eta * (0 + epsilon) = 2^-19]; replacing it
    by [C_new = eta * 0] would give 0. *)
Lemma refresh_uses_regularised_matrix :
  Toy.observe Toy.refresh_run
  = Some (inl ([], info_reset, [], 0x1p-19%float,
               [EvChol 4 0%float Toy.NOT_POS_DEFINITE;
                EvChol 4 0x1p-20%float 0%Z;
                EvUpdateLawCov 4 0x1p-19%float]))
  /\ lawCovMatrix
       (refresh_as_specified (Toy.am_options 2 2 2%float 0x1p-20%float) 0%float
          (m_tk (Toy.fresh 1%float [])))
     = 0%float.
Proof. split; vm_compute; reflexivity. Qed.

(** C7, counterexample.  The evaluator answers NaN at the first proposal,
    5, which is in the support: the run returns; the call is counted, the
    proposal is rejected with a diagnostic and the chain goes on. *)
Lemma nan_target_is_not_fatal :
  Toy.observe Toy.nan_run
  = Some (inl ([Some 0%float; Some 0%float; Some 1%float],
               mkInfo 3 0 0 0 1,
               [WarnAlphaXY_y nan 0%float 5%float],
               1%float,
               [EvTargetCall 0%float;
                EvRealization 5%float false; EvTargetCall 5%float;
                EvCandidate false (mkPosition 5%float false nan nan);
                EvRejection 1;
                EvRealization 1%float false; EvTargetCall 1%float;
                EvCandidate false (mkPosition 1%float false 0%float 0%float)])).
Proof. vm_compute. reflexivity. Qed.

(** C8, counterexample.  Three positions, three extra stages, out-of-bounds
    candidates kept: every stage candidate is out of the support, so
    [numOutOfTargetSupportInDR = 6] while [numRejections + N = 2 + 3]. *)
Lemma out_of_support_bound_fails :
  Toy.counters Toy.dr_run = Some (mkInfo 3 6 0 6 2)
  /\ (0 + 6 <=? 2 + 3)%N = false.
Proof. split; vm_compute; reflexivity. Qed.

(** When out-of-bounds candidates are not kept, a draw out of the support
    is drawn again and no counter counts it. *)
Lemma redrawn_draws_are_not_counted :
  Toy.counters Toy.redraw_run = Some (mkInfo 2 0 0 0 0)
  /\ count_events is_oos_draw (Toy.log Toy.redraw_run) = 1.
Proof. split; vm_compute; reflexivity. Qed.

Lemma out_of_support_accounting_witness :
  (N.of_nat (3 * S (m_drMaxNumExtraStages (Toy.dr_options 3 true))) < 2 ^ 32)%N
  /\ match Toy.dr_run with
     | Returns _ s' =>
         let i := m_rawChainInfo s' in
         (numOutOfTargetSupport i + numOutOfTargetSupportInDR i
          = N.of_nat (count_events (is_oos_candidate false) (events s')
                      + count_events (is_oos_candidate true) (events s')))%N
         /\ (numOutOfTargetSupport i <= numRejections i)%N
         /\ (numRejections i <= N.of_nat (3 - 1))%N
         /\ (numOutOfTargetSupportInDR i <= numDRs i)%N
         /\ (numDRs i
             <= N.of_nat (m_drMaxNumExtraStages (Toy.dr_options 3 true) * (3 - 1)))%N
         /\ (m_putOutOfBoundsInChain (Toy.dr_options 3 true) = false ->
             numOutOfTargetSupport i = 0%N /\ numOutOfTargetSupportInDR i = 0%N)
         /\ (numOutOfTargetSupport i + numOutOfTargetSupportInDR i
             <= numRejections i
                + N.of_nat ((m_drMaxNumExtraStages (Toy.dr_options 3 true) - 1)
                            * (3 - 1)))%N
         /\ (m_drMaxNumExtraStages (Toy.dr_options 3 true) <= 2 ->
             (numOutOfTargetSupport i + numOutOfTargetSupportInDR i
              <= numRejections i + N.of_nat 3)%N)
     | _ => True
     end.
Proof.
  split; [reflexivity|].
  apply (out_of_support_accounting (target := Toy.zero_density_above_1)
           (Toy.dr_options 3 true)).
  reflexivity.
Defined.

(** C9, counterexample.  Scenario S1 with ten positions: the chain has
    length 10 and the evaluator was called 10 times, not 11. *)
Lemma plain_run_ten_calls :
  Toy.counters Toy.plain_run = Some (mkInfo 10 0 0 0 0)
  /\ (match Toy.plain_run with Returns _ s => length (workingChain s) | _ => 0 end) = 10
  /\ (10 =? 11)%N = false.
Proof. repeat split; vm_compute; reflexivity. Qed.

Lemma plain_metropolis_run_witness :
  exists s',
    Toy.plain_run = Returns tt s'
    /\ length (workingChain s') = 10
    /\ numTargetCalls (m_rawChainInfo s') = N.of_nat 10
    /\ (numRejections (m_rawChainInfo s') <= N.of_nat (10 - 1))%N
    /\ numDRs (m_rawChainInfo s') = 0%N.
Proof.
  apply (plain_metropolis_run (target := Toy.everywhere) (Toy.mh_options false)).
  - reflexivity.
  - reflexivity.
  - intros tk rng. reflexivity.
  - intros tk v i. reflexivity.
  - lia.
  - reflexivity.
  - reflexivity.
  - lia.
  - reflexivity.
Defined.

Lemma no_adaptation_when_disabled_witness :
  match Toy.nan_run with
  | Returns _ s' | Aborts _ s' =>
      count_events is_am_event (events s') = 0
      /\ m_lastMean s' = None
      /\ m_lastAdaptedCovMatrix s' = None
      /\ m_lastChainSize s' = 0%float
      /\ lawCovMatrix (m_tk s') = 1%float
  | OutOfFuel => True
  end.
Proof.
  apply (no_adaptation_when_disabled (target := Toy.nan_at_5) (Toy.mh_options false)
           5 0%float 3 (Toy.fresh 1%float [5%float; 1%float])).
  left. reflexivity.
Defined.
End ConcreteRuns.

(** * Further properties of the sampler *)

Section ChainFacts.
Context {V M Rng : Type} {libm : LibM} {build : BuildConfig}
  {tkg : BaseTKGroup V M Rng} {rngb : RngBase Rng} {target : TargetPdf V}
  {space : VectorSpace V M} {env : BaseEnvironment}.
Variable opts : MhOptionsValues.
Local Abbreviation St := (Sampler V M Rng).
Local Abbreviation Position := (MarkovChainPositionData V).
Local Abbreviation Mt := (S.t (V:=V) (M:=M) (Rng:=Rng)).

Lemma returns_bind {A B} (m : Mt A) (k : A -> Mt B) (s : St)
    (Q : A -> St -> Prop) (R : B -> St -> Prop) :
  returns_with m s Q ->
  (forall a s1, Q a s1 -> returns_with (k a) s1 R) ->
  returns_with (S.bind m k) s R.
Proof.
  unfold returns_with, S.bind. destruct (m s) as [a s1| |]; [|done..].
  intros HQ Hk. by apply Hk.
Qed.

Lemma returns_bind_modify {B} (f : St -> St) (k : unit -> Mt B) (s : St)
    (R : B -> St -> Prop) :
  returns_with (k tt) (f s) R -> returns_with (S.bind (S.modify f) k) s R.
Proof. done. Qed.

Lemma returns_bind_get {B} (k : St -> Mt B) (s : St) (R : B -> St -> Prop) :
  returns_with (k s) s R -> returns_with (S.bind S.get k) s R.
Proof. done. Qed.

Lemma returns_bind_fatal_test {B} test e (k : unit -> Mt B) (s : St)
    (R : B -> St -> Prop) :
  (test = false -> returns_with (k tt) s R) ->
  returns_with (S.bind (S.fatal_test test e) k) s R.
Proof. destruct test; [done|]. intros H. by apply H. Qed.

Lemma returns_ret {A} (a : A) (s : St) (R : A -> St -> Prop) :
  R a s -> returns_with (S.ret a) s R.
Proof. done. Qed.

Lemma returns_conseq {A} (m : Mt A) (s : St) (Q R : A -> St -> Prop) :
  returns_with m s Q -> (forall a s1, Q a s1 -> R a s1) -> returns_with m s R.
Proof.
  unfold returns_with. destruct (m s); [|done..]. intros HQ H. by apply H.
Qed.

Lemma rejection_ids_app (d1 d2 : list (Event V M)) :
  rejection_ids (d1 ++ d2) = rejection_ids d1 ++ rejection_ids d2.
Proof. apply omap_app. Qed.

Lemma adapt_records_app (d1 d2 : list (Event V M)) :
  adapt_records (d1 ++ d2) = adapt_records d1 ++ adapt_records d2.
Proof. apply omap_app. Qed.

Lemma quiet_refl (s : St) : quiet s s.
Proof. repeat split. by exists []. Qed.

Lemma quiet_trans (s1 s2 s3 : St) : quiet s1 s2 -> quiet s2 s3 -> quiet s1 s3.
Proof.
  intros (C1 & L1 & T1 & d1 & E1 & R1 & A1) (C2 & L2 & T2 & d2 & E2 & R2 & A2).
  repeat split; try congruence.
  exists (d2 ++ d1).
  rewrite E2, E1, rejection_ids_app, adapt_records_app, R1, R2, A1, A2.
  by rewrite app_assoc.
Qed.

Lemma quiet_events (s s' : St) e : quiet s s' -> e ∈ events s -> e ∈ events s'.
Proof.
  intros (_ & _ & _ & d & -> & _) He. apply elem_of_app. by right.
Qed.

Lemma quiet_recorded (s s' : St) (c : Position) :
  quiet s s' -> recorded c (events s) -> recorded c (events s').
Proof. intros Hq [b Hb]. exists b. by eapply quiet_events. Qed.

(** A field update that touches neither the sequences nor the log. *)
Lemma quiet_field (f : St -> St) (s : St) :
  workingChain (f s) = workingChain s ->
  workingLogLikelihoodValues (f s) = workingLogLikelihoodValues s ->
  workingLogTargetValues (f s) = workingLogTargetValues s ->
  events (f s) = events s ->
  quiet s (f s).
Proof. intros. repeat split; try done. by exists []. Qed.

Lemma quiet_set_info i (s : St) : quiet s (set_info i s).
Proof. by apply (quiet_field (set_info i)). Qed.
Lemma quiet_set_rng r (s : St) : quiet s (set_rng r s).
Proof. by apply (quiet_field (set_rng r)). Qed.
Lemma quiet_set_tk tk (s : St) : quiet s (set_tk tk s).
Proof. by apply (quiet_field (set_tk tk)). Qed.
Lemma quiet_add_cerr w (s : St) : quiet s (add_cerr w s).
Proof. by apply (quiet_field (add_cerr w)). Qed.
Lemma quiet_set_am n mean cov (s : St) : quiet s (set_am n mean cov s).
Proof. by apply (quiet_field (set_am n mean cov)). Qed.

Lemma quiet_add_event (e : Event V M) (s : St) :
  is_rejection e = false -> adapt_records [e] = [] -> quiet s (add_event e s).
Proof.
  intros He Ha. repeat split. exists [e]. split; [done|]. split; [|done].
  by destruct e.
Qed.

Lemma generate_candidate_quiet fuel realizer (s : St) :
  returns_with (generate_candidate opts fuel realizer) s
    (fun r s' => quiet s s' /\ r.2 = negb (contains r.1)).
Proof.
  revert s. induction fuel as [|fuel IH]; intros s; [done|].
  unfold returns_with. simpl. unfold S.bind, S.get, S.modify.
  destruct (realizer (m_tk s) (m_rng s)) as [v rng'] eqn:Hr. simpl.
  set (s1 := add_event _ _).
  assert (Hq : quiet s s1).
  { eapply quiet_trans; [|by apply quiet_add_event].
    by apply quiet_set_rng. }
  destruct (if m_putOutOfBoundsInChain opts then false else negb (contains v)).
  - specialize (IH s1). unfold returns_with in IH.
    destruct (generate_candidate opts fuel realizer s1) as [r s2| |]; [|done..].
    destruct IH as [Hq2 Hr2]. split; [by eapply quiet_trans|done].
  - by split.
Qed.

Lemma evaluate_target_quiet v (s : St) :
  returns_with (evaluate_target v) s
    (fun r s' => quiet s s' /\ EvTargetCall v ∈ events s'
                 /\ r = ((callFunction v).2, ln_conv (callFunction v).1.1)).
Proof.
  unfold returns_with, evaluate_target.
  destruct (callFunction v) as [[value g] ll].
  unfold S.bind, S.modify, incr_numTargetCalls, S.ret. simpl.
  split; [|split; [apply elem_of_cons; by left|done]].
  eapply quiet_trans; [by apply (quiet_add_event (EvTargetCall v))|].
  by apply quiet_set_info.
Qed.

Lemma candidate_for_stage_quiet fuel realizer inDR stageId (s : St) :
  returns_with (candidate_for_stage opts fuel realizer inDR stageId) s
    (fun r s' => quiet s s'
       /\ EvCandidate inDR r.1 ∈ events s'
       /\ (outOfTargetSupport r.1 = false -> evaluated_in_support r.1)).
Proof.
  unfold candidate_for_stage.
  eapply returns_bind; [apply generate_candidate_quiet|].
  intros [v oos] s1 [Hq1 Hoos]. simpl in Hoos.
  unfold returns_with, S.bind at 1, S.get at 1, setPreComputingPosition.
  unfold S.bind at 1, S.modify at 1.
  set (s2 := set_tk _ s1).
  assert (Hq2 : quiet s s2).
  { eapply quiet_trans; [exact Hq1|]. by apply quiet_set_tk. }
  unfold S.bind at 1.
  destruct oos.
  - assert (Hc : forall s3 : St, quiet s2 s3 ->
               let c := mkPosition v true neg_infinity neg_infinity in
               quiet s (add_event (EvCandidate inDR c) s3)
               /\ EvCandidate inDR c ∈ events (add_event (EvCandidate inDR c) s3)
               /\ (outOfTargetSupport c = false -> evaluated_in_support c)).
    { intros s3 Hq3 c. split; [|split; [apply elem_of_cons; by left|done]].
      eapply quiet_trans; [exact Hq2|]. eapply quiet_trans; [exact Hq3|].
      by apply quiet_add_event. }
    destruct inDR; unfold incr_numOutOfTargetSupportInDR, incr_numOutOfTargetSupport,
      S.bind, S.modify, S.ret; simpl; apply Hc;
      by apply quiet_set_info.
  - pose proof (evaluate_target_quiet v s2) as He. unfold returns_with in He.
    destruct (evaluate_target v s2) as [r s3| |]; [|done..].
    destruct He as (Hq3 & _ & ->).
    unfold S.bind, S.modify, S.ret. simpl.
    split; [|split; [apply elem_of_cons; by left|]].
    + eapply quiet_trans; [exact Hq2|]. eapply quiet_trans; [exact Hq3|].
      by apply quiet_add_event.
    + intros _. repeat split; simpl. symmetry in Hoos.
      by apply negb_false_iff in Hoos.
Qed.

Lemma accept_with_rng_quiet alpha (s : St) :
  returns_with (accept_with_rng alpha) s (fun _ s' => quiet s s').
Proof.
  unfold returns_with, accept_with_rng.
  destruct (acceptAlpha alpha (m_rng s)) as [b rng']. by apply quiet_set_rng.
Qed.

Lemma lift_w_quiet {A} (m : W.t (V:=V) A) (s : St) :
  returns_with (S.lift_w m) s (fun _ s' => quiet s s').
Proof.
  unfold returns_with, S.lift_w. destruct m as [[a w]|e]; [|done].
  by apply quiet_add_cerr.
Qed.

Lemma dr_stage_quiet fuel (d : DRVars) (s : St) :
  dr_accept d = false ->
  returns_with (dr_stage opts fuel d) s
    (fun d' s' => quiet s s' /\ dr_accepted_ok d' s').
Proof.
  intros Hacc. unfold dr_stage, incr_numDRs.
  apply returns_bind_modify. apply returns_bind_modify.
  set (s1 := add_event _ _).
  assert (Hq1 : quiet s s1).
  { eapply quiet_trans; [by apply quiet_set_info|]. by apply quiet_add_event. }
  eapply returns_bind; [apply candidate_for_stage_quiet|].
  intros [c valid] s2 (Hq2 & Hrec & Hev). simpl in Hrec, Hev.
  assert (Hq02 : quiet s s2) by (eapply quiet_trans; [exact Hq1|exact Hq2]).
  destruct (outOfTargetSupport c) eqn:Hoos.
  - eapply returns_bind with (Q := fun b s3 => b = dr_accept d /\ s3 = s2);
      [by apply returns_ret|].
    intros b s3 [-> ->].
    apply returns_ret. split; [done|].
    unfold dr_accepted_ok. simpl. congruence.
  - eapply returns_bind with (Q := fun (_ : bool) s3 => quiet s2 s3).
    + apply returns_bind_get.
      eapply returns_bind; [apply lift_w_quiet|].
      intros a s3 Hq3. eapply returns_conseq; [apply accept_with_rng_quiet|].
      intros b s4 Hq4. cbv beta in *. eapply quiet_trans; eassumption.
    + intros b s3 Hq3. apply returns_ret.
      split; [by eapply quiet_trans|].
      intros _. simpl. split; [by apply Hev|].
      eapply quiet_recorded; [exact Hq3|]. by exists true.
Qed.

Lemma dr_accepted_ok_quiet (d : DRVars) (s s' : St) :
  quiet s s' -> dr_accepted_ok d s -> dr_accepted_ok d s'.
Proof.
  intros Hq Hok Hacc. destruct (Hok Hacc) as [He Hr]. split; [done|].
  by eapply quiet_recorded.
Qed.

Lemma dr_loop_quiet fuel turns : forall (d : DRVars) (s : St),
  dr_accepted_ok d s ->
  returns_with (dr_loop opts fuel turns d) s
    (fun d' s' => quiet s s' /\ dr_accepted_ok d' s').
Proof.
  induction turns as [|turns IH]; intros d s Hok.
  - apply returns_ret. split; [apply quiet_refl|done].
  - cbn [dr_loop]. destruct (dr_condition opts d) eqn:Hc.
    + unfold dr_condition in Hc. apply andb_prop in Hc as [Hc _].
      apply andb_prop in Hc as [_ Hacc]. apply negb_true_iff in Hacc.
      eapply returns_bind; [by apply dr_stage_quiet|].
      intros d1 s1 [Hq1 Hok1].
      eapply returns_conseq; [by apply IH|].
      intros d2 s2 [Hq2 Hok2]. split; [|done]. eapply quiet_trans; eassumption.
    + apply returns_ret. split; [apply quiet_refl|done].
Qed.

Lemma delayed_rejection_quiet fuel positionId (cur cand : Position) valid accept (s : St) :
  (accept = true -> evaluated_in_support cand /\ recorded cand (events s)) ->
  returns_with (delayed_rejection opts fuel positionId cur cand valid accept) s
    (fun r s' => quiet s s'
       /\ (r.1 = true -> evaluated_in_support r.2 /\ recorded r.2 (events s'))).
Proof.
  intros Hok. unfold delayed_rejection.
  destruct (negb accept && negb (outOfTargetSupport cand)
            && (0 <? m_drMaxNumExtraStages opts)) eqn:Hc.
  - destruct (avoid_dr_now opts positionId).
    + apply returns_ret. split; [apply quiet_refl|done].
    + eapply returns_bind.
      * apply dr_loop_quiet. intros Hacc. simpl in Hacc.
        destruct accept; [|done]. simpl in Hc. done.
      * intros d s1 [Hq Hd]. apply returns_ret. split; [done|]. exact Hd.
  - apply returns_ret. split; [apply quiet_refl|done].
Qed.

Lemma update_chain_returns positionId accept (cur cand : Position) (s : St) :
  returns_with (update_chain positionId accept cur cand) s
    (fun cur' s' =>
       positionId < length (workingChain s)
       /\ cur' = (if accept then cand else cur)
       /\ workingChain s' = <[positionId := Some (vecValues cur')]> (workingChain s)
       /\ workingLogLikelihoodValues s'
          = option_map (fun l => <[positionId := logLikelihood cur']> l)
              (workingLogLikelihoodValues s)
       /\ workingLogTargetValues s'
          = option_map (fun l => <[positionId := logTarget cur']> l)
              (workingLogTargetValues s)
       /\ events s' = (if accept then [] else [EvRejection positionId]) ++ events s).
Proof.
  unfold returns_with, update_chain, setPositionValues, store_log_values,
    incr_numRejections, S.bind, S.modify, S.ret.
  destruct (Nat.ltb_spec positionId (length (workingChain s))) as [Hlt|Hge].
  - destruct accept; simpl; rewrite ?(proj2 (Nat.ltb_lt _ _) Hlt); simpl; done.
  - destruct accept; simpl; by rewrite ?(proj2 (Nat.ltb_ge _ _) Hge).
Qed.

Lemma getPositionValues_same posId (s : St) :
  returns_with (getPositionValues posId) s (fun _ s' => quiet s s').
Proof.
  unfold returns_with, getPositionValues.
  destruct (workingChain s !! posId) as [[v|]|]; try done. apply quiet_refl.
Qed.

Lemma mapM_S_quiet {A B} (f : A -> Mt B) (l : list A) :
  (forall a s, returns_with (f a) s (fun _ s' => quiet s s')) ->
  forall s, returns_with (mapM_S f l) s (fun _ s' => quiet s s').
Proof.
  intros Hf. induction l as [|a l IH]; intros s; [apply returns_ret, quiet_refl|].
  cbn [mapM_S]. eapply returns_bind; [apply Hf|].
  intros b s1 Hq1. eapply returns_bind; [apply IH|].
  intros bs s2 Hq2. apply returns_ret. cbv beta in *. eapply quiet_trans; eassumption.
Qed.

Lemma deref_quiet {A} (p : option A) (s : St) :
  returns_with (deref p) s (fun _ s' => quiet s s').
Proof. destruct p; [apply returns_ret, quiet_refl|done]. Qed.

Lemma lift_res_quiet {A} (m : Res A) (s : St) :
  returns_with (S.lift_res m) s (fun _ s' => quiet s s').
Proof. unfold returns_with, S.lift_res. destruct m; [apply quiet_refl|done]. Qed.

Lemma chol_event_quiet positionId m (s : St) :
  returns_with (chol_event positionId m) s (fun _ s' => quiet s s').
Proof. unfold chol_event. apply returns_bind_modify, returns_ret. by apply quiet_add_event. Qed.

Lemma refresh_proposal_covariance_quiet positionId c (s : St) :
  returns_with (refresh_proposal_covariance opts positionId c) s
    (fun _ s' => quiet s s').
Proof.
  unfold refresh_proposal_covariance.
  eapply returns_bind; [apply chol_event_quiet|]. intros iRC s1 Hq1.
  eapply returns_bind with (Q := fun _ s2 => quiet s1 s2).
  - destruct (negb (iRC =? 0)%Z); [|apply returns_ret, quiet_refl].
    apply returns_bind_fatal_test. intros _.
    eapply returns_bind; [apply chol_event_quiet|]. intros iRC2 s2 Hq2.
    destruct (negb (iRC2 =? 0)%Z); [|by apply returns_ret].
    apply returns_bind_fatal_test. intros _. by apply returns_ret.
  - intros [b m] s2 Hq2. cbv beta in *.
    assert (Hq : quiet s s2) by (eapply quiet_trans; eassumption).
    destruct b; [|by apply returns_ret].
    unfold returns_with, S.modify.
    eapply quiet_trans; [exact Hq|].
    eapply quiet_trans; [apply quiet_set_tk|]. by apply quiet_add_event.
Qed.

Lemma am_schedule_window positionId first size allocate :
  am_enabled opts = true ->
  am_schedule opts positionId = (first, size, allocate) ->
  first + size <= positionId + 1.
Proof.
  unfold am_enabled, am_schedule. intros Ham.
  apply andb_prop in Ham as [Ham HA]. apply Nat.ltb_lt in HA.
  set (init := m_amInitialNonAdaptInterval opts).
  set (A := m_amAdaptInterval opts) in *.
  destruct (Nat.ltb_spec positionId init); [intros [= <- <- _]; lia|].
  destruct (Nat.eqb_spec positionId init); [intros [= <- <- _]; lia|].
  destruct (Nat.eqb_spec ((positionId - init) mod A) 0) as [Hm|];
    [|intros [= <- <- _]; lia].
  intros [= <- <- _].
  assert (A <= positionId - init); [|lia].
  destruct (Nat.lt_ge_cases (positionId - init) A) as [Hlt|]; [|done].
  rewrite Nat.mod_small in Hm by done. lia.
Qed.

Lemma read_window first size : forall a (s : St),
  returns_with
    (mapM_S (fun i => getPositionValues (first + i)) (seq a size)) s
    (fun l s' => s' = s /\ length l = size
       /\ forall j v, l !! j = Some v ->
            workingChain s !! (first + (a + j)) = Some (Some v)).
Proof.
  induction size as [|size IH]; intros a s.
  - apply returns_ret. repeat split. intros j v Hj. by rewrite lookup_nil in Hj.
  - cbn [seq mapM_S].
    eapply returns_bind with
      (Q := fun v s1 => s1 = s /\ workingChain s !! (first + a) = Some (Some v)).
    { unfold returns_with, getPositionValues.
      by destruct (workingChain s !! (first + a)) as [[v|]|]. }
    intros v s1 [-> Hv].
    eapply returns_bind; [apply IH|]. intros l s1 (-> & Hlen & Hl).
    apply returns_ret. split; [done|]. split; [simpl; by rewrite Hlen|].
    intros [|j] w Hj; simpl in Hj.
    + injection Hj as <-. by rewrite Nat.add_0_r.
    + apply Hl in Hj. by replace (a + S j) with (S a + j) by lia.
Qed.

Lemma adaptive_metropolis_reads positionId (s : St) :
  returns_with (adaptive_metropolis opts positionId) s
    (fun _ s' =>
       workingChain s' = workingChain s
       /\ workingLogLikelihoodValues s' = workingLogLikelihoodValues s
       /\ workingLogTargetValues s' = workingLogTargetValues s
       /\ exists delta, events s' = delta ++ events s
            /\ rejection_ids delta = []
            /\ Forall (fun r => r.1.1 = positionId /\ adaptation_ok opts (workingChain s) r)
                 (adapt_records delta)).
Proof.
  unfold adaptive_metropolis.
  destruct (am_enabled opts) eqn:Ham.
  2:{ apply returns_ret. repeat split. by exists []. }
  destruct (am_schedule opts positionId) as [[first size] allocate] eqn:Hsched.
  eapply returns_bind with (Q := fun _ s1 => quiet s s1).
  { destruct allocate; [|apply returns_ret, quiet_refl].
    unfold returns_with, S.modify. apply quiet_set_am. }
  intros _ s1 Hq1. destruct (Nat.ltb_spec 0 size) as [Hsize|].
  2:{ apply returns_ret. destruct Hq1 as (C & L & T & d & E & R & A).
      repeat split; try done. exists d. by rewrite A. }
  eapply returns_bind; [apply (read_window first size 0)|].
  intros partialChain s2 (-> & Hlen & Hread). apply returns_bind_get.
  eapply returns_bind; [apply deref_quiet|]. intros lastMean s3 Hq3.
  eapply returns_bind; [apply deref_quiet|]. intros lastCov s4 Hq4.
  apply returns_bind_modify.
  eapply returns_bind; [apply lift_res_quiet|]. intros [[n mean] cov] s5 Hq5.
  apply returns_bind_modify.
  eapply returns_conseq; [apply refresh_proposal_covariance_quiet|].
  intros u s6 Hq6. cbv beta in *.
  assert (Hq14 : quiet s s4).
  { eapply quiet_trans; [exact Hq1|]. eapply quiet_trans; [exact Hq3|exact Hq4]. }
  assert (Hq56 : quiet (add_event (EvAdapt positionId first partialChain) s4) s6).
  { eapply quiet_trans; [exact Hq5|].
    eapply quiet_trans; [apply quiet_set_am|exact Hq6]. }
  destruct Hq14 as (C4 & L4 & T4 & d4 & E4 & R4 & A4).
  destruct Hq56 as (C6 & L6 & T6 & d6 & E6 & R6 & A6). simpl in C6, L6, T6, E6.
  split; [congruence|]. split; [congruence|]. split; [congruence|].
  exists (d6 ++ EvAdapt positionId first partialChain :: d4).
  split; [by rewrite E6, E4, <- app_assoc|].
  rewrite rejection_ids_app, adapt_records_app, R6, A6. simpl. rewrite R4, A4.
  split; [done|]. constructor; [|done]. simpl. split; [done|].
  unfold adaptation_ok. simpl. rewrite Hlen.
  split; [done|]. split; [by exists allocate|]. split; [done|].
  split; [by eapply am_schedule_window|].
  intros j v Hj. destruct Hq1 as (C1 & _). rewrite <- C1. by apply Hread.
Qed.

Lemma chain_position_written fuel positionId (cur : Position) (s : St) :
  returns_with (chain_position opts fuel positionId cur) s
    (fun cur' s' => position_written opts positionId cur cur' s s').
Proof.
  unfold chain_position.
  apply returns_bind_modify. apply returns_bind_get.
  unfold setPreComputingPosition. apply returns_bind_modify.
  apply returns_bind_fatal_test. intros _.
  set (s1 := set_tk _ _).
  assert (Hq1 : quiet s s1).
  { eapply quiet_trans; apply quiet_set_tk. }
  eapply returns_bind; [apply candidate_for_stage_quiet|].
  intros [c valid] s2 (Hq2 & Hrec & Hev). simpl in Hrec, Hev.
  eapply returns_bind with
    (Q := fun accept s3 => quiet s2 s3 /\ (accept = true -> outOfTargetSupport c = false)).
  { destruct (outOfTargetSupport c); [apply returns_ret; split; [apply quiet_refl|done]|].
    apply returns_bind_get.
    destruct (alpha_xy (m_tk s2) cur c 0 1) as [[a q] w].
    apply returns_bind_modify.
    eapply returns_conseq; [apply accept_with_rng_quiet|].
    intros b s3 Hq3. cbv beta in *. split; [|done].
    eapply quiet_trans; [apply quiet_add_cerr|exact Hq3]. }
  intros accept s3 [Hq3 Hacc].
  eapply returns_bind.
  { apply delayed_rejection_quiet. intros ->. split; [by apply Hev, Hacc|].
    eapply quiet_recorded; [exact Hq3|]. by exists false. }
  intros [accept' cand'] s4 [Hq4 Hok]. simpl in Hok.
  eapply returns_bind; [apply update_chain_returns|].
  intros cur' s5 (Hlt & Hcur & Hch & Hll & Hlt' & Hevs).
  eapply returns_bind; [apply adaptive_metropolis_reads|].
  intros u s6 (C6 & L6 & T6 & d6 & E6 & R6 & A6). apply returns_ret.
  assert (Hq : quiet s s4).
  { eapply quiet_trans; [exact Hq1|]. eapply quiet_trans; [exact Hq2|].
    eapply quiet_trans; [exact Hq3|exact Hq4]. }
  destruct Hq as (C4 & L4 & T4 & d4 & E4 & R4 & A4).
  unfold position_written. rewrite C6, L6, T6, Hch, Hll, Hlt', C4, L4, T4.
  split; [by rewrite <- C4|]. do 3 (split; [done|]).
  exists (d6 ++ (if accept' then [] else [EvRejection positionId]) ++ d4).
  split; [by rewrite E6, Hevs, E4, !app_assoc|].
  rewrite !rejection_ids_app, !adapt_records_app, R4, R6, A4.
  split.
  - destruct accept'; simpl.
    + right. subst cur'. destruct (Hok eq_refl) as [He Hr]. split; [done|]. split; [done|].
      destruct Hr as [b Hb]. exists b. rewrite E6, Hevs. apply elem_of_app. by right.
    + left. by subst cur'.
  - rewrite Hch, C4 in A6. by destruct accept'; simpl; rewrite !app_nil_r.
Qed.

Lemma stored_at_insert (l : option (list double)) n i x :
  (forall l', l = Some l' -> length l' = n) -> i < n ->
  stored_at (option_map (fun l' => <[i := x]> l') l) i x.
Proof.
  destruct l as [l'|]; [|done]. simpl. intros Hlen Hi.
  apply list_lookup_insert_eq. rewrite (Hlen l') by done. done.
Qed.

Lemma stored_at_insert_ne (l : option (list double)) i j x y :
  i <> j -> stored_at l j y ->
  stored_at (option_map (fun l' => <[i := x]> l') l) j y.
Proof.
  destruct l as [l'|]; [|done]. simpl. intros Hne Hj.
  by rewrite list_lookup_insert_ne.
Qed.

Lemma length_option_insert (l : option (list double)) n i x :
  (forall l', l = Some l' -> length l' = n) ->
  forall l', option_map (fun l' => <[i := x]> l') l = Some l' -> length l' = n.
Proof.
  destruct l as [l0|]; [|done]. simpl. intros Hlen l' [= <-].
  rewrite length_insert. by apply Hlen.
Qed.

Lemma adaptation_ok_insert (chain : list (option V)) pos x r :
  r.1.1 < pos -> adaptation_ok opts chain r -> adaptation_ok opts (<[pos := x]> chain) r.
Proof.
  intros Hlt (Ham & Hs & Hl & Hw & Hr). repeat split; try done.
  intros j v Hj. rewrite list_lookup_insert_ne; [by apply Hr|].
  apply lookup_lt_Some in Hj. lia.
Qed.

Lemma loop_inv_step x0 n pos (cur cur' : Position) (s s' : St) :
  loop_inv opts x0 n pos cur s -> position_written opts pos cur cur' s s' ->
  loop_inv opts x0 n (S pos) cur' s'.
Proof.
  intros (Hlen & Hx0 & Hll & Hlt & (Hup & Hids & Hnd) & Hpos & Hprev & Hcur & Had)
         (Hlt' & Hch & Hl1 & Hl2 & delta & Hev & Hcase & Hnew).
  assert (Hcur' : evaluated_in_support cur').
  { destruct Hcase as [[-> _]|(_ & He & _)]; done. }
  assert (Hrej : rejection_ids (events s')
                 = rejection_ids delta ++ rejection_ids (events s)).
  { by rewrite Hev, rejection_ids_app. }
  unfold loop_inv. rewrite Hch, Hl1, Hl2, length_insert.
  split; [done|]. split; [by rewrite list_lookup_insert_ne by lia|].
  split; [by apply length_option_insert|].
  split; [by apply length_option_insert|].
  split; [|split; [lia|split; [|split; [done|]]]].
  2:{ replace (S pos - 1) with pos by lia. by apply list_lookup_insert_eq. }
  2:{ rewrite Hev, adapt_records_app. apply Forall_app. split.
      - rewrite Hch in Hnew. eapply Forall_impl; [|exact Hnew].
        intros r [Hr Hok]. split; [lia|done].
      - eapply Forall_impl; [|exact Had].
        intros r [Hr Hok]. split; [lia|]. by apply adaptation_ok_insert. }
  split.
  - intros i Hi. rewrite Hch, Hl1, Hl2. destruct (decide (i = pos)) as [->|Hne].
    + exists (vecValues cur'). rewrite list_lookup_insert_eq by done.
      destruct Hcur' as (Hoos & Hin & Hcl & Hct).
      split; [done|]. split; [done|].
      split; [rewrite Hcl; eapply stored_at_insert; [exact Hll|lia]|].
      split; [rewrite Hct; eapply stored_at_insert; [exact Hlt|lia]|].
      intros _. rewrite Hrej.
      destruct Hcase as [[-> Hr]|(Hr & He & Hrec)]; rewrite Hr.
      * left. split; [apply elem_of_app; left; apply list_elem_of_singleton; done|].
        rewrite list_lookup_insert_ne by lia. done.
      * right. split.
        -- simpl. intros Hin'. apply Hids in Hin'. lia.
        -- exists cur'. split; [done|]. split; [apply He|done].
    + assert (Hi' : i < pos) by lia.
      destruct (Hup i Hi') as (v & Hv & Hin & Hs1 & Hs2 & Hstep).
      exists v. rewrite list_lookup_insert_ne by done.
      split; [done|]. split; [done|].
      split; [by apply stored_at_insert_ne|].
      split; [by apply stored_at_insert_ne|].
      intros H0. rewrite Hrej.
      destruct (Hstep H0) as [[Hr Hp]|[Hr (c & Hc & Hoos & Hcv)]].
      * left. split; [apply elem_of_app; by right|].
        rewrite list_lookup_insert_ne by lia. done.
      * right. split.
        -- intros Hin'. apply elem_of_app in Hin' as [Hin'|Hin']; [|done].
           destruct Hcase as [[_ Hd]|[Hd _]]; rewrite Hd in Hin'.
           ++ apply list_elem_of_singleton in Hin'. lia.
           ++ by apply elem_of_nil in Hin'.
        -- exists c. split; [|done]. destruct Hc as [b Hb]. exists b.
           rewrite Hev. apply elem_of_app. by right.
  - split.
    + intros i. rewrite Hrej. intros Hin'.
      apply elem_of_app in Hin' as [Hin'|Hin'].
      * destruct Hcase as [[_ Hd]|[Hd _]]; rewrite Hd in Hin'.
        -- apply list_elem_of_singleton in Hin'. lia.
        -- by apply elem_of_nil in Hin'.
      * apply Hids in Hin'. lia.
    + rewrite Hrej. destruct Hcase as [[_ Hd]|[Hd _]]; rewrite Hd; [|done].
      simpl. apply NoDup_cons_2; [|done].
      intros Hin'. apply Hids in Hin'. lia.
Qed.

Lemma chain_loop_inv x0 n fuel turns : forall pos (cur : Position) (s : St),
  loop_inv opts x0 n pos cur s ->
  returns_with (chain_loop opts fuel turns pos cur) s
    (fun cur' s' => loop_inv opts x0 n (pos + turns) cur' s').
Proof.
  induction turns as [|turns IH]; intros pos cur s Hinv.
  - apply returns_ret. by rewrite Nat.add_0_r.
  - cbn [chain_loop]. eapply returns_bind; [apply chain_position_written|].
    intros cur1 s1 Hw. eapply returns_conseq; [apply IH; by eapply loop_inv_step|].
    intros cur2 s2 H2. cbv beta in *. by replace (pos + S turns) with (S pos + turns) by lia.
Qed.

Lemma resizeSequence_length {A} (fill : A) n l : length (resizeSequence fill n l) = n.
Proof.
  unfold resizeSequence. rewrite length_app, length_take, length_replicate. lia.
Qed.

Lemma generateFullChain_loop_inv fuel (x0 : V) chainSize (s : St) :
  waits_at_barrier x0 = false ->
  returns_with (generateFullChain opts fuel x0 chainSize) s
    (fun _ s' => exists cur, loop_inv opts x0 chainSize chainSize cur s').
Proof.
  intros Hbar. unfold generateFullChain, generate_from_initial_position.
  apply returns_bind_modify.
  apply returns_bind_fatal_test. intros Hx0. apply negb_false_iff in Hx0.
  rewrite Hbar.
  eapply returns_bind; [apply evaluate_target_quiet|].
  intros r s1 (Hq1 & _ & ->). simpl fst. simpl snd.
  apply returns_bind_modify.
  unfold setPositionValues at 1, store_log_values.
  unfold returns_with, S.bind at 1. simpl.
  rewrite resizeSequence_length.
  destruct (Nat.ltb_spec 0 chainSize) as [Hn|]; [|done].
  unfold S.bind at 1, S.modify at 1.
  set (cur0 := mkPosition x0 (negb (contains x0)) _ _).
  set (s4 := set_logs _ _ _).
  assert (Hinv : loop_inv opts x0 chainSize 1 cur0 s4).
  { destruct Hq1 as (C1 & L1 & T1 & d1 & E1 & R1 & A1). simpl in E1.
    rewrite app_nil_r in E1.
    assert (Hlen : forall (l : option (list double)) x l',
              option_map (fun l' => <[0 := x]> l')
                (option_map (resizeSequence Dbl.zero chainSize) l) = Some l' ->
              length l' = chainSize).
    { intros [l|] x l'; [|done]. simpl. intros [= <-].
      by rewrite length_insert, resizeSequence_length. }
    assert (Hst : forall (l : option (list double)) x,
              stored_at (option_map (fun l' => <[0 := x]> l')
                (option_map (resizeSequence Dbl.zero chainSize) l)) 0 x).
    { intros [l|] x; [|done]. simpl. apply list_lookup_insert_eq.
      by rewrite resizeSequence_length. }
    unfold loop_inv, s4. simpl.
    rewrite length_insert, resizeSequence_length.
    rewrite list_lookup_insert_eq by (by rewrite resizeSequence_length).
    split; [done|]. split; [done|].
    split; [apply Hlen|]. split; [apply Hlen|].
    split; [|split; [lia|split; [done|split]]].
    - split.
      + intros i Hi. assert (i = 0) as -> by lia.
        exists x0. simpl.
        rewrite list_lookup_insert_eq by (by rewrite resizeSequence_length).
        split; [done|]. split; [done|].
        split; [apply Hst|]. split; [apply Hst|]. lia.
      + simpl. rewrite E1, R1. split; [|apply NoDup_nil_2].
        intros i Hin. by apply elem_of_nil in Hin.
    - unfold cur0, evaluated_in_support. simpl. by rewrite Hx0.
    - rewrite E1, A1. constructor. }
  pose proof (chain_loop_inv x0 chainSize fuel (chainSize - 1) 1 cur0 s4 Hinv) as Hloop.
  unfold returns_with in Hloop. unfold S.bind, S.ret.
  destruct (chain_loop opts fuel (chainSize - 1) 1 cur0 s4) as [cur s5| |]; [|done..].
  exists cur. by replace (1 + (chainSize - 1)) with chainSize in Hloop by lia.
Qed.

Lemma count_rejections (d : list (Event V M)) :
  count_events is_rejection d = length (rejection_ids d).
Proof.
  unfold count_events. induction d as [|e d IH]; [done|].
  destruct e; simpl; rewrite ?IH; done.
Qed.

Lemma NoDup_bounded_length (l : list nat) n :
  NoDup l -> (forall i, i ∈ l -> 0 < i < n) -> length l <= n - 1.
Proof.
  intros Hnd Hb.
  assert (Hsub : l ⊆+ seq 1 (n - 1)).
  { apply NoDup_submseteq; [done|]. intros i Hi. apply Hb in Hi.
    apply elem_of_seq. lia. }
  apply submseteq_length in Hsub. by rewrite length_seq in Hsub.
Qed.

Lemma elem_of_adapt_records p f l (d : list (Event V M)) :
  EvAdapt p f l ∈ d -> (p, f, l) ∈ adapt_records d.
Proof.
  intros H. unfold adapt_records. apply list_elem_of_omap.
  by exists (EvAdapt p f l).
Qed.

(** X1.  In a run of [generateFullChain] that returns, on a rank that does
    not wait at the barrier, the chain has [chainSize] positions, position 0
    holds the initial point, and every position holds a point of the
    target's support. *)
Theorem chain_positions_in_support fuel (x0 : V) chainSize (s : St) :
  waits_at_barrier x0 = false ->
  match generateFullChain opts fuel x0 chainSize s with
  | Returns _ s' =>
      length (workingChain s') = chainSize
      /\ workingChain s' !! 0 = Some (Some x0)
      /\ forall i, i < chainSize ->
           exists v, workingChain s' !! i = Some (Some v) /\ contains v = true
  | _ => True
  end.
Proof.
  intros Hbar. pose proof (generateFullChain_loop_inv fuel x0 chainSize s Hbar) as H.
  unfold returns_with in H.
  destruct (generateFullChain opts fuel x0 chainSize s) as [u s'| |]; [|done..].
  destruct H as (cur & Hlen & Hx0 & _ & _ & (Hup & _) & _).
  split; [done|]. split; [done|].
  intros i Hi. destruct (Hup i Hi) as (v & Hv & Hin & _). by exists v.
Qed.

(** X2.  In a run that returns on a rank that does not wait at the barrier,
    the sequences of log-likelihood and log-target values, where the caller
    passed them, have [chainSize] entries, and the entry at every position
    is the value the evaluator gives at the point the chain holds there. *)
Theorem stored_log_values_match fuel (x0 : V) chainSize (s : St) :
  waits_at_barrier x0 = false ->
  match generateFullChain opts fuel x0 chainSize s with
  | Returns _ s' =>
      (forall l, workingLogLikelihoodValues s' = Some l -> length l = chainSize)
      /\ (forall l, workingLogTargetValues s' = Some l -> length l = chainSize)
      /\ forall i v, workingChain s' !! i = Some (Some v) ->
           stored_at (workingLogLikelihoodValues s') i (callFunction v).2
           /\ stored_at (workingLogTargetValues s') i (ln_conv (callFunction v).1.1)
  | _ => True
  end.
Proof.
  intros Hbar. pose proof (generateFullChain_loop_inv fuel x0 chainSize s Hbar) as H.
  unfold returns_with in H.
  destruct (generateFullChain opts fuel x0 chainSize s) as [u s'| |]; [|done..].
  destruct H as (cur & Hlen & Hx0 & Hll & Hlt & (Hup & _) & _).
  split; [done|]. split; [done|].
  intros i v Hv.
  assert (Hi : i < chainSize).
  { rewrite <- Hlen. apply lookup_lt_is_Some. by eexists. }
  destruct (Hup i Hi) as (v' & Hv' & _ & H1 & H2 & _).
  rewrite Hv in Hv'. by injection Hv' as <-.
Qed.

(** X3.  In a run of fewer than [2^32] positions that returns on a rank
    that does not wait at the barrier, the rejections logged are at pairwise
    distinct positions of [1, chainSize), [numRejections] is their number,
    and every position from 1 on either was rejected and repeats the
    position before it, or was not and holds a recorded candidate of the
    support. *)
Theorem rejections_repeat_previous_position fuel (x0 : V) chainSize (s : St) :
  waits_at_barrier x0 = false ->
  (N.of_nat chainSize < 2 ^ 32)%N ->
  match generateFullChain opts fuel x0 chainSize s with
  | Returns _ s' =>
      let rejected := rejection_ids (events s') in
      NoDup rejected
      /\ (forall i, (i ∈ rejected) -> 0 < i < chainSize)
      /\ numRejections (m_rawChainInfo s') = N.of_nat (length rejected)
      /\ forall i, 0 < i < chainSize ->
           ((i ∈ rejected) /\ workingChain s' !! i = workingChain s' !! (i - 1))
           \/ ((i ∉ rejected)
               /\ exists c, recorded c (events s') /\ outOfTargetSupport c = false
                    /\ workingChain s' !! i = Some (Some (vecValues c)))
  | _ => True
  end.
Proof.
  intros Hbar Hbound.
  pose proof (generateFullChain_loop_inv fuel x0 chainSize s Hbar) as H.
  pose proof (generateFullChain_safe opts fuel x0 chainSize s) as Hs.
  unfold returns_with in H.
  destruct (generateFullChain opts fuel x0 chainSize s) as [u s'| |]; [|done..].
  destruct H as (cur & Hlen & Hx0 & _ & _ & (Hup & Hids & Hnd) & _).
  destruct Hs as (_ & _ & Hinfo).
  split; [done|]. split; [done|]. split.
  - rewrite Hinfo. simpl. rewrite count_rejections.
    apply bump_zero. pose proof (NoDup_bounded_length _ chainSize Hnd Hids). lia.
  - intros i [H0 Hi]. destruct (Hup i Hi) as (v & Hv & _ & _ & _ & Hstep).
    destruct (Hstep H0) as [[Hr Hp]|[Hr (c & Hc & Hoos & Hcv)]].
    + left. split; [done|]. by rewrite Hv, Hp.
    + right. split; [done|]. exists c. by rewrite Hcv.
Qed.

(** X12.  Every call of [updateAdaptedCovMatrix] in such a run is made at a
    step below [chainSize] that the adaptation schedule selects, with the
    first id and the length the schedule gives; the partial chain is not
    empty, ends at the step at the latest, and holds what the final chain
    holds at these positions. *)
Theorem adaptation_windows_hold_stored_positions fuel (x0 : V) chainSize (s : St) :
  waits_at_barrier x0 = false ->
  match generateFullChain opts fuel x0 chainSize s with
  | Returns _ s' =>
      forall positionId first partialChain,
        EvAdapt positionId first partialChain ∈ events s' ->
        positionId < chainSize
        /\ (exists allocate,
              am_schedule opts positionId = (first, length partialChain, allocate))
        /\ 0 < length partialChain
        /\ first + length partialChain <= positionId + 1
        /\ window_read (workingChain s') first partialChain
  | _ => True
  end.
Proof.
  intros Hbar. pose proof (generateFullChain_loop_inv fuel x0 chainSize s Hbar) as H.
  unfold returns_with in H.
  destruct (generateFullChain opts fuel x0 chainSize s) as [u s'| |]; [|done..].
  destruct H as (cur & _ & _ & _ & _ & _ & _ & _ & _ & Had).
  intros p f l Hin. apply elem_of_adapt_records in Hin.
  pose proof (Forall_elem _ _ _ Had Hin) as [Hp (_ & Hs & Hl & Hw & Hr)].
  simpl in *. done.
Qed.
End ChainFacts.

Section TallyFacts.
Context {V M Rng : Type} {libm : LibM} {build : BuildConfig}
  {tkg : BaseTKGroup V M Rng} {rngb : RngBase Rng} {target : TargetPdf V}
  {space : VectorSpace V M} {env : BaseEnvironment}.
Variable opts : MhOptionsValues.
Local Abbreviation St := (Sampler V M Rng).
Local Abbreviation Position := (MarkovChainPositionData V).
Local Abbreviation Mt := (S.t (V:=V) (M:=M) (Rng:=Rng)).

Lemma tally_nil : tally (V:=V) (M:=M) [] 0.
Proof. by unfold tally, count_events. Qed.

Lemma tally_app (d1 d2 : list (Event V M)) k1 k2 :
  tally d1 k1 -> tally d2 k2 -> tally (d2 ++ d1) (k2 + k1).
Proof. unfold tally. rewrite !count_events_app. lia. Qed.

Lemma candidate_events_tally inDR (c : Position) (d : list (Event V M)) :
  candidate_events inDR c d ->
  count_events is_dr_stage d = 0
  /\ count_events (is_candidate false) d = (if inDR then 0 else 1)
  /\ count_events (is_candidate true) d = (if inDR then 1 else 0)
  /\ count_events is_target_call d
     + count_events (is_oos_candidate false) d
     + count_events (is_oos_candidate true) d = 1.
Proof.
  intros (dd & Hdd & ->).
  rewrite !count_events_cons, !count_events_app, !(draws_only_count _ dd) by done.
  unfold count_events. destruct c as [v oos ll lt]. simpl.
  destruct inDR, oos; simpl; repeat split; lia.
Qed.

Lemma am_only_tally (d : list (Event V M)) : am_only d -> tally d 0.
Proof.
  intros Hd. unfold tally.
  rewrite !(am_only_count _ d) by (done || by intros []). done.
Qed.

Lemma dr_stage_tally fuel d0 (s : St) :
  run_ok opts (dr_stage opts fuel d0) s (fun _ d => tally d 0).
Proof.
  unfold dr_stage, incr_numDRs.
  eapply (run_ok_bind_modify2 _ _ _ _ _ [EvDRStage (S (dr_stageId d0))]).
  { unfold step. simpl. repeat split; auto. by repeat constructor. }
  eapply run_ok_bind; [apply candidate_for_stage_ok|].
  intros [c valid] s1 d1 _ _ (Hc & _ & Hev). simpl in Hc, Hev.
  apply candidate_events_tally in Hev as (C1 & C2 & C3 & C4).
  assert (Hcounts : tally (d1 ++ [EvDRStage (S (dr_stageId d0))]) 0).
  { unfold tally. rewrite !count_events_app, C1, C2, C3.
    unfold count_events in *. simpl. lia. }
  eapply run_ok_bind with (P := fun _ d => d = []).
  { destruct (outOfTargetSupport c).
    - by apply run_ok_ret.
    - apply run_ok_bind_get.
      eapply run_ok_bind with (P := fun _ d => d = []).
      + by apply run_ok_lift_w.
      + intros a s2 d2 _ _ ->. eapply run_ok_conseq; [apply accept_with_rng_ok|].
        by intros _ d ->. }
  intros acc s2 d2 _ _ ->. by apply run_ok_ret.
Qed.

Lemma dr_loop_tally fuel turns d0 (s : St) :
  run_ok opts (dr_loop opts fuel turns d0) s (fun _ d => tally d 0).
Proof.
  revert d0 s. induction turns as [|turns IH]; intros d0 s; simpl.
  - apply run_ok_ret, tally_nil.
  - destruct (dr_condition opts d0); [|apply run_ok_ret, tally_nil].
    eapply run_ok_bind; [apply dr_stage_tally|].
    intros d1 s1 dd1 _ _ Hc1. eapply run_ok_conseq; [apply IH|].
    intros d2 dd2 Hc2. by apply (tally_app _ _ 0 0).
Qed.

Lemma delayed_rejection_tally fuel positionId cur cand valid accept (s : St) :
  run_ok opts (delayed_rejection opts fuel positionId cur cand valid accept) s
    (fun _ d => tally d 0).
Proof.
  unfold delayed_rejection.
  destruct (negb accept && negb (outOfTargetSupport cand)
            && (0 <? m_drMaxNumExtraStages opts)).
  - destruct (avoid_dr_now opts positionId).
    + apply run_ok_ret, tally_nil.
    + eapply run_ok_bind; [apply dr_loop_tally|].
      intros d1 s1 dd1 _ _ Hc1. apply run_ok_ret. by rewrite app_nil_l.
  - apply run_ok_ret, tally_nil.
Qed.

Lemma chain_position_tally fuel positionId cur (s : St) :
  run_ok opts (chain_position opts fuel positionId cur) s (fun _ d => tally d 1).
Proof.
  unfold chain_position.
  apply run_ok_bind_frame; [done..|].
  apply run_ok_bind_get. unfold setPreComputingPosition.
  apply run_ok_bind_frame; [done..|].
  apply run_ok_bind_fatal_test. intros _.
  eapply run_ok_bind; [apply candidate_for_stage_ok|].
  intros [c valid] s1 d1 _ _ (Hc & _ & Hev). simpl in Hc, Hev.
  apply candidate_events_tally in Hev as (C1 & C2 & C3 & C4).
  eapply run_ok_bind with (P := fun _ d => d = []).
  { destruct (outOfTargetSupport c).
    - by apply run_ok_ret.
    - apply run_ok_bind_get.
      destruct (alpha_xy _ cur c 0 1) as [[a q] w].
      apply run_ok_bind_frame; [done..|].
      eapply run_ok_conseq; [apply accept_with_rng_ok|]. by intros b d ->. }
  intros accept0 s2 d2 _ _ ->.
  eapply run_ok_bind; [apply delayed_rejection_tally|].
  intros [accept cand] s3 d3 _ _ Hdr.
  eapply run_ok_bind; [apply update_chain_ok|].
  intros cur' s4 d4 _ _ ->.
  eapply run_ok_bind; [apply adaptive_metropolis_ok|].
  intros u s5 d5 _ _ Ham.
  apply run_ok_ret. apply am_only_tally in Ham.
  destruct Hdr as (D1 & D2 & D3). destruct Ham as (A1 & A2 & A3).
  unfold tally. simpl. rewrite ?app_nil_r, !count_events_app.
  rewrite C2, C3, D1, A1. rewrite A1 in A3. rewrite D1 in D3.
  destruct accept; unfold count_events in *; simpl; lia.
Qed.

Lemma chain_loop_tally fuel turns positionId cur (s : St) :
  run_ok opts (chain_loop opts fuel turns positionId cur) s (fun _ d => tally d turns).
Proof.
  revert positionId cur s. induction turns as [|turns IH]; intros positionId cur s; simpl.
  - apply run_ok_ret, tally_nil.
  - eapply run_ok_bind; [apply chain_position_tally|].
    intros cur' s1 d1 _ _ H1. eapply run_ok_conseq; [apply IH|].
    intros cur'' d2 H2. rewrite ?app_nil_r. replace (S turns) with (turns + 1) by lia.
    by apply tally_app.
Qed.

Lemma generate_from_initial_position_tally fuel x0 chainSize (s : St) :
  contains x0 = true ->
  waits_at_barrier x0 = false ->
  run_ok opts (generate_from_initial_position opts fuel x0 chainSize) s
    (fun _ d => exists d', d = d' ++ [EvTargetCall x0] /\ tally d' (chainSize - 1)).
Proof.
  intros Hx0 Hbar. unfold generate_from_initial_position.
  eapply run_ok_bind; [by apply evaluate_target_ok|].
  intros ll_lt s1 d1 _ _ ->.
  apply run_ok_bind_frame; [done..|].
  eapply run_ok_bind; [apply setPositionValues_ok|].
  intros u s2 d2 _ _ ->.
  unfold store_log_values. apply run_ok_bind_frame; [done..|].
  rewrite Hbar.
  eapply run_ok_bind; [apply chain_loop_tally|].
  intros cur s3 d3 _ _ Hd. apply run_ok_ret. exists d3.
  by rewrite ?app_nil_l, ?app_nil_r.
Qed.

Lemma generateFullChain_tally fuel x0 chainSize (s : St) :
  waits_at_barrier x0 = false ->
  match generateFullChain opts fuel x0 chainSize s with
  | Returns _ s' =>
      exists d', events s' = d' ++ [EvTargetCall x0] /\ tally d' (chainSize - 1)
  | _ => True
  end.
Proof.
  intros Hbar.
  unfold generateFullChain, S.bind, S.modify, S.fatal_test. simpl.
  destruct (contains x0) eqn:Hx0; simpl; [|done].
  pose proof (generate_from_initial_position_tally fuel x0 chainSize
                (set_events [] (set_info info_reset s)) Hx0 Hbar) as Hrun.
  unfold run_ok in Hrun.
  destruct (generate_from_initial_position opts fuel x0 chainSize _) as [u s'|e s'|];
    [|done..].
  destruct Hrun as (d & (E & F & A & I) & (d' & -> & Hc)). simpl in E.
  rewrite app_nil_r in E. by exists d'.
Qed.

(** X4.  In a run that returns on a rank that does not wait at the barrier,
    while the counters do not wrap, one main candidate
    is recorded per position after the first, one delayed-rejection
    candidate per counted delayed-rejection stage, and the target calls plus
    the out-of-support candidates of both kinds are [chainSize] plus the
    number of delayed-rejection stages: every candidate is either evaluated
    or counted as out of support. *)
Theorem candidates_evaluated_or_counted fuel (x0 : V) chainSize (s : St) :
  waits_at_barrier x0 = false ->
  (N.of_nat (chainSize * S (m_drMaxNumExtraStages opts)) < 2 ^ 32)%N ->
  match generateFullChain opts fuel x0 chainSize s with
  | Returns _ s' =>
      let i := m_rawChainInfo s' in
      count_events (is_candidate false) (events s') = chainSize - 1
      /\ N.of_nat (count_events (is_candidate true) (events s')) = numDRs i
      /\ (numTargetCalls i + numOutOfTargetSupport i + numOutOfTargetSupportInDR i
          = N.of_nat chainSize + numDRs i)%N
  | _ => True
  end.
Proof.
  intros Hbar Hbound.
  pose proof (generateFullChain_safe opts fuel x0 chainSize s) as Hs.
  pose proof (generateFullChain_counts opts fuel x0 chainSize s) as Hc.
  pose proof (generateFullChain_tally fuel x0 chainSize s Hbar) as Ht.
  destruct (generateFullChain opts fuel x0 chainSize s) as [u s'|e s'|] eqn:Hrun; [|done..].
  destruct Hs as (_ & _ & Hinfo).
  destruct Hc as (d' & Hev & C1 & C2 & C3 & C4).
  destruct Ht as (d'' & Hev' & T1 & T2 & T3).
  assert (d'' = d') as -> by (rewrite Hev in Hev'; by apply app_inv_tail in Hev').
  assert (Hn : 0 < chainSize).
  { destruct chainSize; [|lia]. exfalso.
    unfold generateFullChain, generate_from_initial_position, S.bind, S.modify,
      S.fatal_test, evaluate_target, incr_numTargetCalls, S.ret, setPositionValues in Hrun.
    simpl in Hrun. destruct (contains x0); simpl in Hrun; [|done].
    destruct (callFunction x0) as [[? ?] ?]. simpl in Hrun. done. }
  simpl. rewrite Hinfo, Hev. simpl. rewrite !count_events_app.
  unfold count_events at 2 4 6 8 10 12 14. simpl. rewrite !Nat.add_0_r.
  set (K := m_drMaxNumExtraStages opts) in *.
  assert (K * (chainSize - 1) + chainSize <= chainSize * S K) by nia.
  rewrite !bump_zero by lia.
  split; [done|]. split; lia.
Qed.
End TallyFacts.

Section TerminationFacts.
Context {V M Rng : Type} {libm : LibM} {build : BuildConfig}
  {tkg : BaseTKGroup V M Rng} {rngb : RngBase Rng} {target : TargetPdf V}
  {space : VectorSpace V M} {env : BaseEnvironment}.
Variable opts : MhOptionsValues.
Local Abbreviation St := (Sampler V M Rng).
Local Abbreviation Position := (MarkovChainPositionData V).
Local Abbreviation Mt := (S.t (V:=V) (M:=M) (Rng:=Rng)).

Lemma finishes_ret {A} (a : A) : finishes (V:=V) (M:=M) (Rng:=Rng) (S.ret a).
Proof. done. Qed.
Lemma finishes_get : finishes (V:=V) (M:=M) (Rng:=Rng) S.get.
Proof. done. Qed.
Lemma finishes_modify f : finishes (V:=V) (M:=M) (Rng:=Rng) (S.modify f).
Proof. done. Qed.
Lemma finishes_fatal_test b e : finishes (V:=V) (M:=M) (Rng:=Rng) (S.fatal_test b e).
Proof. intros s. unfold S.fatal_test. by destruct b. Qed.
Lemma finishes_abort {A} e : finishes (V:=V) (M:=M) (Rng:=Rng) (S.abort (A:=A) e).
Proof. done. Qed.
Lemma finishes_lift_w {A} (m : W.t (V:=V) A) : finishes (M:=M) (Rng:=Rng) (S.lift_w m).
Proof. intros s. unfold S.lift_w. by destruct m as [[a w]|e]. Qed.
Lemma finishes_lift_res {A} (m : Res A) : finishes (V:=V) (M:=M) (Rng:=Rng) (S.lift_res m).
Proof. intros s. unfold S.lift_res. by destruct m. Qed.

Lemma finishes_bind {A B} (m : Mt A) (k : A -> Mt B) :
  finishes m -> (forall a, finishes (k a)) -> finishes (S.bind m k).
Proof.
  intros Hm Hk s. unfold S.bind. specialize (Hm s).
  destruct (m s) as [a s1|e s1|]; [apply Hk|done|done].
Qed.

Ltac fin :=
  repeat first
    [ apply finishes_ret | apply finishes_get | apply finishes_modify
    | apply finishes_fatal_test | apply finishes_abort | apply finishes_lift_w
    | apply finishes_lift_res
    | apply finishes_bind; [|intros ?] ].

Section KeepOutOfBounds.
Hypothesis put : m_putOutOfBoundsInChain opts = true.

Lemma generate_candidate_finishes fuel (realizer : TKState V M -> Rng -> V * Rng) :
  finishes (generate_candidate opts (S fuel) realizer).
Proof.
  intros s. simpl. unfold S.bind, S.get, S.modify, S.ret.
  destruct (realizer (m_tk s) (m_rng s)) as [v rng']. simpl. by rewrite put.
Qed.

Lemma evaluate_target_finishes v : finishes (M:=M) (Rng:=Rng) (evaluate_target v).
Proof.
  unfold evaluate_target. destruct (callFunction v) as [[value g] ll].
  unfold incr_numTargetCalls. fin.
Qed.

Lemma candidate_for_stage_finishes fuel (realizer : TKState V M -> Rng -> V * Rng) inDR stageId :
  finishes (candidate_for_stage opts (S fuel) realizer inDR stageId).
Proof.
  unfold candidate_for_stage.
  apply finishes_bind; [apply generate_candidate_finishes|]. intros [v oos].
  apply finishes_bind; [fin|]. intros s1.
  unfold setPreComputingPosition. apply finishes_bind; [fin|]. intros _.
  apply finishes_bind; [|intros ?; fin].
  destruct oos; [|apply evaluate_target_finishes].
  destruct inDR; unfold incr_numOutOfTargetSupportInDR, incr_numOutOfTargetSupport; fin.
Qed.

Lemma accept_with_rng_finishes a : finishes (V:=V) (M:=M) (accept_with_rng a).
Proof. intros s. unfold accept_with_rng. by destruct (acceptAlpha a (m_rng s)). Qed.

Lemma dr_stage_finishes fuel d : finishes (dr_stage opts (S fuel) d).
Proof.
  unfold dr_stage, incr_numDRs. apply finishes_bind; [fin|]. intros _.
  apply finishes_bind; [fin|]. intros _.
  apply finishes_bind; [apply candidate_for_stage_finishes|]. intros [c valid].
  apply finishes_bind; [|intros ?; fin].
  destruct (outOfTargetSupport c); [fin|].
  apply finishes_bind; [fin|]. intros s2.
  apply finishes_bind; [fin|]. intros a. apply accept_with_rng_finishes.
Qed.

Lemma dr_loop_finishes fuel turns : forall d, finishes (dr_loop opts (S fuel) turns d).
Proof.
  induction turns as [|turns IH]; intros d; [apply finishes_ret|].
  cbn [dr_loop]. destruct (dr_condition opts d); [|apply finishes_ret].
  apply finishes_bind; [apply dr_stage_finishes|]. apply IH.
Qed.

Lemma delayed_rejection_finishes fuel positionId cur cand valid accept :
  finishes (delayed_rejection opts (S fuel) positionId cur cand valid accept).
Proof.
  unfold delayed_rejection. destruct (_ && _ && _); [|fin].
  destruct (avoid_dr_now opts positionId); [fin|].
  apply finishes_bind; [apply dr_loop_finishes|]. intros d. fin.
Qed.

Lemma setPositionValues_finishes posId (v : V) :
  finishes (M:=M) (Rng:=Rng) (setPositionValues posId v).
Proof. intros s. unfold setPositionValues. by destruct (_ <? _). Qed.

Lemma getPositionValues_finishes posId :
  finishes (V:=V) (M:=M) (Rng:=Rng) (getPositionValues posId).
Proof. intros s. unfold getPositionValues. by destruct (_ !! _) as [[?|]|]. Qed.

Lemma update_chain_finishes positionId accept (cur cand : Position) :
  finishes (M:=M) (Rng:=Rng) (update_chain positionId accept cur cand).
Proof.
  unfold update_chain, store_log_values, incr_numRejections.
  apply finishes_bind; [|intros ?; fin].
  destruct accept; (apply finishes_bind; [apply setPositionValues_finishes|intros ?; fin]).
Qed.

Lemma mapM_S_finishes {A B} (f : A -> Mt B) (l : list A) :
  (forall a, finishes (f a)) -> finishes (mapM_S f l).
Proof.
  intros Hf. induction l as [|a l IH]; [apply finishes_ret|].
  cbn [mapM_S]. apply finishes_bind; [apply Hf|]. intros b.
  apply finishes_bind; [apply IH|]. intros bs. fin.
Qed.

Lemma deref_finishes {A} (p : option A) : finishes (V:=V) (M:=M) (Rng:=Rng) (deref p).
Proof. destruct p; [apply finishes_ret|apply finishes_abort]. Qed.

Lemma refresh_proposal_covariance_finishes positionId c :
  finishes (V:=V) (Rng:=Rng) (refresh_proposal_covariance opts positionId c).
Proof.
  unfold refresh_proposal_covariance, chol_event.
  apply finishes_bind; [fin|]. intros iRC.
  apply finishes_bind.
  - destruct (negb (iRC =? 0)%Z); [|fin].
    apply finishes_bind; [fin|]. intros _.
    apply finishes_bind; [fin|]. intros iRC2.
    destruct (negb (iRC2 =? 0)%Z); fin.
  - intros [b m]. destruct b; fin.
Qed.

Lemma adaptive_metropolis_finishes positionId :
  finishes (Rng:=Rng) (adaptive_metropolis opts positionId).
Proof.
  unfold adaptive_metropolis. destruct (am_enabled opts); [|fin].
  destruct (am_schedule opts positionId) as [[first size] allocate].
  apply finishes_bind; [destruct allocate; fin|]. intros _.
  destruct (0 <? size); [|fin].
  apply finishes_bind; [apply mapM_S_finishes; intros; apply getPositionValues_finishes|].
  intros partialChain. apply finishes_bind; [fin|]. intros s2.
  apply finishes_bind; [apply deref_finishes|]. intros lastMean.
  apply finishes_bind; [apply deref_finishes|]. intros lastCov.
  apply finishes_bind; [fin|]. intros _.
  apply finishes_bind; [fin|]. intros [[n mean] cov].
  apply finishes_bind; [fin|]. intros _.
  apply refresh_proposal_covariance_finishes.
Qed.

Lemma chain_position_finishes fuel positionId cur :
  finishes (chain_position opts (S fuel) positionId cur).
Proof.
  unfold chain_position. apply finishes_bind; [fin|]. intros _.
  apply finishes_bind; [fin|]. intros s1. unfold setPreComputingPosition.
  apply finishes_bind; [fin|]. intros _.
  apply finishes_bind; [fin|]. intros _.
  apply finishes_bind; [apply candidate_for_stage_finishes|]. intros [c valid].
  apply finishes_bind.
  { destruct (outOfTargetSupport c); [fin|].
    apply finishes_bind; [fin|]. intros s2.
    destruct (alpha_xy (m_tk s2) cur c 0 1) as [[a q] w].
    apply finishes_bind; [fin|]. intros _. apply accept_with_rng_finishes. }
  intros accept. apply finishes_bind; [apply delayed_rejection_finishes|].
  intros [accept' cand'].
  apply finishes_bind; [apply update_chain_finishes|]. intros cur'.
  apply finishes_bind; [apply adaptive_metropolis_finishes|]. intros _. fin.
Qed.

Lemma chain_loop_finishes fuel turns : forall positionId cur,
  finishes (chain_loop opts (S fuel) turns positionId cur).
Proof.
  induction turns as [|turns IH]; intros positionId cur; [apply finishes_ret|].
  cbn [chain_loop]. apply finishes_bind; [apply chain_position_finishes|]. intros cur'.
  apply IH.
Qed.

Lemma barrier_loop_finishes turns : forall positionId (cur : Position),
  finishes (M:=M) (Rng:=Rng) (barrier_loop turns positionId cur).
Proof.
  induction turns as [|turns IH]; intros positionId cur; [apply finishes_ret|].
  cbn [barrier_loop]. unfold incr_numRejections.
  apply finishes_bind; [apply setPositionValues_finishes|]. intros _.
  apply finishes_bind; [fin|]. intros _.
  apply finishes_bind; [fin|]. intros _. apply IH.
Qed.

(** X6.  When out-of-support candidates are kept
    ([m_putOutOfBoundsInChain]), every candidate loop ends after one draw: a
    budget of one draw per loop is enough for any chain size, so the run
    returns or aborts. *)
Theorem kept_candidates_need_one_draw fuel (x0 : V) chainSize (s : St) :
  0 < fuel -> ran_out (generateFullChain opts fuel x0 chainSize s) = false.
Proof.
  intros Hfuel. destruct fuel as [|fuel]; [lia|]. revert s.
  change (finishes (generateFullChain opts (S fuel) x0 chainSize)).
  unfold generateFullChain, generate_from_initial_position, store_log_values.
  apply finishes_bind; [fin|]. intros _.
  apply finishes_bind; [fin|]. intros _.
  apply finishes_bind; [apply evaluate_target_finishes|]. intros r.
  apply finishes_bind; [fin|]. intros _.
  apply finishes_bind; [apply setPositionValues_finishes|]. intros _.
  apply finishes_bind; [fin|]. intros _.
  destruct (waits_at_barrier x0); [apply barrier_loop_finishes|].
  apply finishes_bind; [apply chain_loop_finishes|]. intros cur. fin.
Qed.
End KeepOutOfBounds.

Section NeverInSupport.
Hypothesis redraw : m_putOutOfBoundsInChain opts = false.
Hypothesis outside : forall tk rng, contains (rv_realization tk 0 rng).1 = false.

Lemma generate_candidate_runs_out fuel : forall s : St,
  generate_candidate opts fuel (fun tk => rv_realization tk 0) s = OutOfFuel.
Proof.
  induction fuel as [|fuel IH]; intros s; [done|].
  simpl. unfold S.bind, S.get, S.modify.
  pose proof (outside (m_tk s) (m_rng s)) as Hout.
  destruct (rv_realization (m_tk s) 0 (m_rng s)) as [v rng']. simpl in *.
  rewrite redraw, Hout. simpl. apply IH.
Qed.

(** X7.  When out-of-support candidates are drawn again and the kernel
    proposes nothing but points out of the support, the candidate loop of
    position 1 never ends: whatever the budget of draws, a run of two or
    more positions from a valid initial point exhausts it. *)
Theorem redraw_loop_never_ends fuel (x0 : V) chainSize (s : St) :
  contains x0 = true ->
  waits_at_barrier x0 = false ->
  (forall tk, preComputingPositionIsValid tk x0 0 = true) ->
  2 <= chainSize ->
  generateFullChain opts fuel x0 chainSize s = OutOfFuel.
Proof.
  intros Hx0 Hbar Hvalid Hn.
  unfold generateFullChain, generate_from_initial_position.
  unfold S.bind at 1, S.modify at 1. unfold S.bind at 1, S.fatal_test at 1.
  rewrite Hx0, Hbar. simpl negb. cbv iota.
  unfold evaluate_target, incr_numTargetCalls, store_log_values, setPositionValues.
  destruct (callFunction x0) as [[value g] ll].
  unfold S.bind at 1. unfold S.bind at 1. unfold S.modify at 1.
  unfold S.bind at 1. unfold S.modify at 1. unfold S.ret at 1.
  unfold S.bind at 1. unfold S.modify at 1.
  unfold S.bind at 1. simpl workingChain. rewrite resizeSequence_length.
  destruct (Nat.ltb_spec 0 chainSize) as [_|]; [|lia].
  unfold S.bind at 1. unfold S.modify at 1.
  destruct chainSize as [|[|n]]; [lia..|].
  replace (S (S n) - 1) with (S n) by lia. cbn [chain_loop].
  unfold S.bind at 1. unfold S.bind at 1. unfold chain_position.
  unfold S.bind at 1. unfold S.modify at 1.
  unfold S.bind at 1. unfold S.get at 1. unfold setPreComputingPosition.
  unfold S.bind at 1. unfold S.modify at 1.
  unfold S.bind at 1. simpl vecValues. rewrite Hvalid. unfold S.fatal_test at 1.
  simpl negb. cbv iota.
  unfold S.bind at 1. unfold candidate_for_stage. unfold S.bind at 1.
  by rewrite generate_candidate_runs_out.
Qed.
End NeverInSupport.
End TerminationFacts.

Section BarrierFacts.
Context {V M Rng : Type} {libm : LibM} {build : BuildConfig}
  {tkg : BaseTKGroup V M Rng} {rngb : RngBase Rng} {target : TargetPdf V}
  {space : VectorSpace V M} {env : BaseEnvironment}.
Variable opts : MhOptionsValues.
Local Abbreviation St := (Sampler V M Rng).
Local Abbreviation Position := (MarkovChainPositionData V).
Local Abbreviation Mt := (S.t (V:=V) (M:=M) (Rng:=Rng)).

Lemma bump_S_r k n : bump (S k) n = bump k (uint_incr n).
Proof. replace (S k) with (k + 1) by lia. by rewrite bump_add. Qed.

Lemma barrier_loop_run turns : forall positionId (cur : Position) (s : St),
  positionId + turns <= length (workingChain s) ->
  exists s',
    barrier_loop turns positionId cur s = Returns tt s'
    /\ length (workingChain s') = length (workingChain s)
    /\ (forall i, i < positionId -> workingChain s' !! i = workingChain s !! i)
    /\ (forall i, positionId <= i < positionId + turns ->
          workingChain s' !! i
          = Some (Some (vec_scale (Dbl.of_nat i) (vecValues cur))))
    /\ m_rawChainInfo s'
       = (let i := m_rawChainInfo s in
          mkInfo (numTargetCalls i) (numDRs i) (numOutOfTargetSupport i)
            (numOutOfTargetSupportInDR i) (bump turns (numRejections i))).
Proof.
  induction turns as [|turns IH]; intros positionId cur s Hlen.
  - exists s. repeat split; try done; [intros i Hi; lia|].
    simpl. by destruct (m_rawChainInfo s).
  - cbn [barrier_loop]. unfold setPositionValues, incr_numRejections.
    unfold S.bind at 1.
    destruct (Nat.ltb_spec positionId (length (workingChain s))) as [Hlt|]; [|lia].
    unfold S.bind at 1, S.modify at 1. unfold S.bind at 1, S.modify at 1.
    set (s1 := add_event _ _).
    destruct (IH (S positionId) cur s1) as (s' & Hrun & Hl & Hlow & Hhigh & Hinfo).
    { unfold s1. simpl. rewrite length_insert. lia. }
    exists s'. split; [exact Hrun|]. rewrite bump_S_r.
    unfold s1 in Hl, Hlow, Hhigh, Hinfo.
    simpl in Hl, Hlow, Hhigh, Hinfo. rewrite length_insert in Hl.
    repeat split; try done.
    + intros i Hi. rewrite Hlow by lia. by rewrite list_lookup_insert_ne by lia.
    + intros i Hi. destruct (decide (i = positionId)) as [->|Hne].
      * rewrite Hlow by lia. by rewrite list_lookup_insert_eq by lia.
      * apply Hhigh. lia.
Qed.

(** X5.  What the driver itself does on a rank that waits at the barrier
    (the call of the synchronizer at lines 917-924, whose code is not among
    the sources, is not represented: whether and when it returns is not
    stated here).  If the run from a point of the support returns, the
    counter [numTargetCalls] is 1, no delayed-rejection stage and no
    out-of-support candidate is counted, every position after the first is
    counted as rejected, the chain has [chainSize] positions, and position
    [i] holds [i] times the initial point. *)
Theorem barrier_rank_run fuel (x0 : V) chainSize (s : St) :
  waits_at_barrier x0 = true ->
  contains x0 = true ->
  0 < chainSize ->
  (N.of_nat chainSize < 2 ^ 32)%N ->
  match generateFullChain opts fuel x0 chainSize s with
  | Returns _ s' =>
      m_rawChainInfo s' = mkInfo 1 0 0 0 (N.of_nat (chainSize - 1))
      /\ length (workingChain s') = chainSize
      /\ workingChain s' !! 0 = Some (Some x0)
      /\ forall i, 0 < i < chainSize ->
           workingChain s' !! i = Some (Some (vec_scale (Dbl.of_nat i) x0))
  | _ => True
  end.
Proof.
  intros Hbar Hx0 Hn Hbound.
  unfold generateFullChain, generate_from_initial_position.
  unfold S.bind at 1, S.modify at 1. unfold S.bind at 1, S.fatal_test at 1.
  rewrite Hx0, Hbar. simpl negb. cbv iota.
  unfold evaluate_target, incr_numTargetCalls, store_log_values, setPositionValues.
  destruct (callFunction x0) as [[value g] ll].
  unfold S.bind at 1. unfold S.bind at 1. unfold S.modify at 1.
  unfold S.bind at 1. unfold S.modify at 1. unfold S.ret at 1.
  unfold S.bind at 1. unfold S.modify at 1.
  unfold S.bind at 1. simpl workingChain. rewrite resizeSequence_length.
  destruct (Nat.ltb_spec 0 chainSize) as [_|]; [|lia].
  unfold S.bind at 1. unfold S.modify at 1.
  set (cur := mkPosition x0 _ _ _). set (s1 := set_logs _ _ _).
  destruct (barrier_loop_run (chainSize - 1) 1 cur s1)
    as (s' & Hrun & Hl & Hlow & Hhigh & Hinfo).
  { unfold s1. simpl. rewrite length_insert, resizeSequence_length. lia. }
  rewrite Hrun.
  unfold s1 in Hl, Hlow, Hhigh, Hinfo. simpl in Hl, Hlow, Hhigh, Hinfo.
  rewrite length_insert, resizeSequence_length in Hl.
  repeat split; try done.
  - rewrite Hinfo. f_equal. apply bump_zero. lia.
  - rewrite Hlow by lia. apply list_lookup_insert_eq. rewrite resizeSequence_length. lia.
  - intros i Hi. apply Hhigh. lia.
Qed.
End BarrierFacts.

Section RangeFacts.
Context {V M Rng : Type} {libm : LibM} {build : BuildConfig}
  {tkg : BaseTKGroup V M Rng} {rngb : RngBase Rng}.
Local Abbreviation Position := (MarkovChainPositionData V).
Local Abbreviation Wt := (W.t (V:=V)).

Lemma ltb_leb (x y : double) : PrimFloat.ltb x y = true -> PrimFloat.leb x y = true.
Proof.
  rewrite FloatAxioms.ltb_spec, FloatAxioms.leb_spec. unfold SpecFloat.SFltb, SpecFloat.SFleb.
  by destruct (SpecFloat.SFcompare _ _) as [[]|].
Qed.

Lemma SFcompare_refl (x : SpecFloat.spec_float) :
  x <> SpecFloat.S754_nan -> SpecFloat.SFcompare x x = Some Eq.
Proof.
  destruct x as [s|s| |s m e]; simpl; try done.
  - by destruct s.
  - intros _. change (IntDef.Z.compare e e) with (Z.compare e e).
    change (PosDef.Pos.compare_cont Eq m m) with (Pos.compare m m).
    rewrite Z.compare_refl, Pos.compare_refl. by destruct s.
Qed.

Lemma leb_not_nan (a b : double) :
  PrimFloat.leb a b = true -> PrimFloat.is_nan a = false.
Proof.
  rewrite FloatAxioms.leb_spec. unfold PrimFloat.is_nan. rewrite FloatAxioms.eqb_spec.
  unfold SpecFloat.SFleb, SpecFloat.SFeqb. intros H.
  rewrite SFcompare_refl; [done|]. intros E. by rewrite E in H.
Qed.

Lemma std_min_one_le (q : double) : PrimFloat.leb (Dbl.std_min Dbl.one q) Dbl.one = true.
Proof.
  unfold Dbl.std_min. destruct (PrimFloat.ltb q Dbl.one) eqn:E; [by apply ltb_leb|done].
Qed.

Lemma alpha_vec_body_range (self : list Position -> list nat -> Wt double)
    (tk : TKState V M) ps ids a w :
  alpha_vec_body self tk ps ids = Ok (a, w) -> PrimFloat.leb a Dbl.one = true.
Proof.
  unfold alpha_vec_body. destruct (length ps <? 2); [done|]. intros H.
  apply w_bind_ok_inv in H as (first & ? & ? & _ & H & _).
  apply w_bind_ok_inv in H as (last & ? & ? & _ & H & _).
  destruct (outOfTargetSupport first); [by injection H as <- _|].
  destruct (outOfTargetSupport last); [by injection H as <- _|].
  destruct (Dbl.inf_or_nan (logTarget first)).
  { apply w_bind_ok_inv in H as (? & ? & ? & _ & H & _). by injection H as <- _. }
  destruct (Dbl.inf_or_nan (logTarget last)).
  { apply w_bind_ok_inv in H as (? & ? & ? & _ & H & _). by injection H as <- _. }
  destruct (length ps =? 2).
  - apply w_bind_ok_inv in H as (id0 & ? & ? & _ & H & _).
    apply w_bind_ok_inv in H as (id1 & ? & ? & _ & H & _).
    unfold alpha_xy in H.
    destruct (if negb _ && negb _ then _ else _) as [q c]. injection H as <- _.
    apply std_min_one_le.
  - repeat match type of H with
      | W.bind _ _ = Ok _ => apply w_bind_ok_inv in H as (? & ? & ? & _ & H & _)
      end.
    injection H as <- _. apply std_min_one_le.
Qed.

(** X8.  The acceptance probability is never above 1 and never NaN: the
    two-position [alpha] is the minimum of 1 and the quotient it computed
    (so a NaN quotient gives 1), and every value the multi-position [alpha]
    returns is at most 1. *)
Theorem acceptance_probability_at_most_one :
  (forall (tk : TKState V M) (x y : Position) xStageId yStageId,
     let r := alpha_xy tk x y xStageId yStageId in
     r.1.1 = Dbl.std_min Dbl.one r.1.2
     /\ PrimFloat.leb r.1.1 Dbl.one = true
     /\ PrimFloat.is_nan r.1.1 = false)
  /\ (forall (tk : TKState V M) (ps : list Position) ids a,
        w_returns (alpha_vec tk ps ids) a ->
        PrimFloat.leb a Dbl.one = true /\ PrimFloat.is_nan a = false).
Proof.
  split.
  - intros tk x y xs ys r.
    assert (Hr : r.1.1 = Dbl.std_min Dbl.one r.1.2).
    { unfold r, alpha_xy. by destruct (if negb _ && negb _ then _ else _). }
    split; [done|]. rewrite Hr.
    split; [apply std_min_one_le|]. eapply leb_not_nan, std_min_one_le.
  - intros tk ps ids a [w Hw]. rewrite alpha_vec_unfold in Hw.
    apply alpha_vec_body_range in Hw. split; [done|]. by eapply leb_not_nan.
Qed.
End RangeFacts.

Section AdaptFacts.
Context {V M Rng : Type} {libm : LibM} {build : BuildConfig}
  {tkg : BaseTKGroup V M Rng} {rngb : RngBase Rng} {target : TargetPdf V}
  {space : VectorSpace V M} {env : BaseEnvironment}.
Variable opts : MhOptionsValues.
Local Abbreviation St := (Sampler V M Rng).
Local Abbreviation Position := (MarkovChainPositionData V).
Local Abbreviation Mt := (S.t (V:=V) (M:=M) (Rng:=Rng)).

(** X9.  [updateAdaptedCovMatrix] fails in three cases only: a seed
    ([lastChainSize == 0]) on fewer than two positions, an update on no
    position, and an update whose first position id is 0.  Otherwise it
    adds the number of positions to the size; a seed returns the plain mean
    of the partial chain and ignores the first id, the mean and the
    covariance passed in. *)
Theorem updateAdaptedCovMatrix_errors (partialChain : list V)
    (idOfFirstPositionInSubChain : nat) (lastChainSize : double)
    (lastMean : V) (lastAdaptedCovMatrix : M) :
  let n := length partialChain in
  let r := updateAdaptedCovMatrix partialChain idOfFirstPositionInSubChain
             lastChainSize lastMean lastAdaptedCovMatrix in
  (PrimFloat.eqb lastChainSize Dbl.zero = true -> n < 2 ->
     r = Fatal PartialChainTooShort)
  /\ (PrimFloat.eqb lastChainSize Dbl.zero = true -> 2 <= n ->
      (exists cov, r = Ok (PrimFloat.add lastChainSize (Dbl.of_nat n),
                           subMeanPlain partialChain, cov))
      /\ forall id' (mean' : V) (cov' : M),
           updateAdaptedCovMatrix partialChain id' lastChainSize mean' cov' = r)
  /\ (PrimFloat.eqb lastChainSize Dbl.zero = false -> n = 0 ->
      r = Fatal PartialChainTooShort)
  /\ (PrimFloat.eqb lastChainSize Dbl.zero = false -> 0 < n ->
      idOfFirstPositionInSubChain = 0 ->
      r = Fatal FirstPositionIdTooSmall)
  /\ (PrimFloat.eqb lastChainSize Dbl.zero = false -> 0 < n ->
      0 < idOfFirstPositionInSubChain ->
      exists mean cov, r = Ok (PrimFloat.add lastChainSize (Dbl.of_nat n), mean, cov)).
Proof.
  intros n r. unfold r, updateAdaptedCovMatrix. fold n.
  split; [|split; [|split; [|split]]].
  - intros -> Hn. by destruct (Nat.ltb_spec n 2); [|lia].
  - intros -> Hn. destruct (Nat.ltb_spec n 2); [lia|]. split; [by eexists|done].
  - intros -> Hn. by destruct (Nat.ltb_spec n 1); [|lia].
  - intros -> Hn ->. by destruct (Nat.ltb_spec n 1); [lia|].
  - intros -> Hn Hid. destruct (Nat.ltb_spec n 1); [lia|].
    destruct (Nat.ltb_spec idOfFirstPositionInSubChain 1); [lia|].
    destruct (fold_left _ _ _) as [mean cov]. by eexists _, _.
Qed.

Lemma read_positions first (ids : list nat) (s : St) :
  Forall (fun i => exists v, workingChain s !! (first + i) = Some (Some v)) ids ->
  exists l,
    mapM_S (fun i => getPositionValues (first + i)) ids s = Returns l s
    /\ length l = length ids.
Proof.
  induction 1 as [|i ids [v Hv] _ (l & Hl & Hlen)].
  - by exists [].
  - exists (v :: l). cbn [mapM_S]. unfold S.bind at 1, getPositionValues at 1.
    rewrite Hv. unfold S.bind at 1. rewrite Hl. split; [done|]. simpl. by rewrite Hlen.
Qed.

(** X10.  The adaptation step at the end of the initial non-adaptive
    interval passes first id 0: on a sampler that has adapted before
    ([m_lastChainSize] not 0, which [generateFullChain] never resets), it
    aborts with the error on [idOfFirstPositionInSubChain]. *)
Theorem seed_on_adapted_sampler_aborts (positionId : nat) (s : St) :
  am_enabled opts = true ->
  positionId = m_amInitialNonAdaptInterval opts ->
  PrimFloat.eqb (m_lastChainSize s) Dbl.zero = false ->
  (forall i, i <= positionId -> exists v, workingChain s !! i = Some (Some v)) ->
  exists s', adaptive_metropolis opts positionId s = Aborts FirstPositionIdTooSmall s'.
Proof.
  intros Ham -> Hsize Hchain.
  unfold adaptive_metropolis. rewrite Ham.
  unfold am_schedule. rewrite Nat.ltb_irrefl, Nat.eqb_refl.
  unfold S.bind at 1, S.modify at 1.
  set (n := m_amInitialNonAdaptInterval opts) in *.
  replace (0 <? n + 1) with true by (symmetry; apply Nat.ltb_lt; lia).
  set (s1 := set_am _ _ _ s).
  destruct (read_positions 0 (seq 0 (n + 1)) s1) as (l & Hl & Hlen).
  { apply Forall_forall. intros i Hi%in_seq. apply Hchain. lia. }
  unfold S.bind at 1. rewrite Hl.
  unfold S.bind at 1, S.get at 1. simpl m_lastMean. cbn [deref].
  unfold S.bind at 1, S.ret at 1. simpl m_lastAdaptedCovMatrix. cbn [deref].
  unfold S.bind at 1, S.ret at 1.
  unfold S.bind at 1, S.modify at 1.
  unfold S.bind at 1, S.lift_res.
  unfold updateAdaptedCovMatrix. simpl m_lastChainSize. rewrite Hsize.
  rewrite length_seq in Hlen. rewrite Hlen.
  destruct (Nat.ltb_spec (n + 1) 1); [lia|]. simpl. by eexists.
Qed.

Lemma fold_adapt_shift (f a : nat) (l : list V) : forall start (acc : V * M),
  fold_left (adapt_step f) (zip (seq (a + start) (length l)) l) acc
  = fold_left (adapt_step (f + a)) (zip (seq start (length l)) l) acc.
Proof.
  induction l as [|v l IH]; intros start acc; [done|].
  simpl. replace (S (a + start)) with (a + S start) by lia. rewrite IH.
  f_equal. unfold adapt_step. destruct acc as [mean cov].
  by rewrite Nat.add_assoc.
Qed.

(** X11.  Incremental updates compose: updating on [l1] from first id
    [first] and then on [l2] from [first + length l1] gives the mean and the
    covariance matrix of one update on [l1 ++ l2] from [first]. *)
Theorem incremental_update_composes (l1 l2 : list V) (first : nat)
    (lastChainSize : double) (lastMean : V) (lastAdaptedCovMatrix : M) :
  PrimFloat.eqb lastChainSize Dbl.zero = false ->
  PrimFloat.eqb (PrimFloat.add lastChainSize (Dbl.of_nat (length l1))) Dbl.zero = false ->
  0 < first -> 0 < length l1 -> 0 < length l2 ->
  (N.of_nat (first + length l1 + length l2) < 2 ^ 32)%N ->
  let size1 := PrimFloat.add lastChainSize (Dbl.of_nat (length l1)) in
  exists mean1 cov1 mean cov,
    updateAdaptedCovMatrix l1 first lastChainSize lastMean lastAdaptedCovMatrix
    = Ok (size1, mean1, cov1)
    /\ updateAdaptedCovMatrix l2 (first + length l1) size1 mean1 cov1
       = Ok (PrimFloat.add size1 (Dbl.of_nat (length l2)), mean, cov)
    /\ updateAdaptedCovMatrix (l1 ++ l2) first lastChainSize lastMean lastAdaptedCovMatrix
       = Ok (PrimFloat.add lastChainSize (Dbl.of_nat (length (l1 ++ l2))), mean, cov).
Proof.
  intros Hn Hn1 Hf H1 H2 _ size1. subst size1.
  destruct (fold_left (adapt_step first) (zip (seq 0 (length l1)) l1)
              (lastMean, lastAdaptedCovMatrix)) as [mean1 cov1] eqn:E1.
  destruct (fold_left (adapt_step (first + length l1)) (zip (seq 0 (length l2)) l2)
              (mean1, cov1)) as [mean cov] eqn:E2.
  exists mean1, cov1, mean, cov.
  unfold updateAdaptedCovMatrix.
  rewrite Hn, Hn1, length_app.
  destruct (Nat.ltb_spec (length l1) 1); [lia|].
  destruct (Nat.ltb_spec (length l2) 1); [lia|].
  destruct (Nat.ltb_spec (length l1 + length l2) 1); [lia|].
  destruct (Nat.ltb_spec first 1); [lia|].
  destruct (Nat.ltb_spec (first + length l1) 1); [lia|].
  rewrite E1, E2. split; [done|]. split; [done|].
  rewrite seq_app, zip_with_app by (by rewrite length_seq).
  rewrite fold_left_app, E1. simpl.
  pose proof (fold_adapt_shift first (length l1) l2 0 (mean1, cov1)) as Hs.
  rewrite Nat.add_0_r in Hs. by rewrite Hs, E2.
Qed.
End AdaptFacts.

Section RawChainOutputFacts.
Variable ov : RawChainOutputOptions.
Variable opts : MhOptionsValues.
Variables given_ll given_lt : bool.
Variable no_file : String.string.
Variable filteredSize : N.

Local Abbreviation count_position' := (count_position ov given_ll given_lt).
Local Abbreviation calls := (subWriteContents_calls given_ll given_lt).
Local Abbreviation counted := (counted ov).
Local Abbreviation blocks := (blocks ov given_ll given_lt).
Local Abbreviation chain_block := (chain_block ov).
Local Abbreviation log_block := (log_block ov).
Local Abbreviation rawName := (m_rawChainDataOutputFileName ov).

Lemma uint_add_small a b : (a + b < 2 ^ 32)%N -> uint_add a b = (a + b)%N.
Proof. intros. unfold uint_add. by rewrite N.mod_small. Qed.

Lemma uint_sub_small a b : (b <= a)%N -> (a < 2 ^ 32)%N -> uint_sub a b = (a - b)%N.
Proof.
  intros Hb Ha. unfold uint_sub. rewrite (N.mod_small b) by lia.
  replace (a + 2 ^ 32 - b)%N with ((a - b) + 1 * 2 ^ 32)%N by lia.
  rewrite N.Div0.mod_add. apply N.mod_small. lia.
Qed.

Lemma succ_mod (d n : N) :
  (0 < n)%N ->
  ((d + 1) mod n = if (d mod n + 1 =? n) then 0 else d mod n + 1)%N.
Proof.
  intros Hn. rewrite <- N.Div0.add_mod_idemp_l.
  pose proof (N.mod_lt d n ltac:(lia)) as Hr.
  destruct (N.eqb_spec (d mod n + 1) n) as [E|E].
  - rewrite E. by apply N.Div0.mod_same.
  - apply N.mod_small. lia.
Qed.

Lemma map_of_nat_seq (k j : nat) :
  map N.of_nat (seq j k) = map (fun i => (N.of_nat j + N.of_nat i)%N) (seq 0 k).
Proof.
  revert j. induction k as [|k IH]; intros j; simpl; [done|].
  f_equal; [lia|]. rewrite IH, <- seq_shift, map_map.
  apply map_ext. intros i. lia.
Qed.

Lemma first_positions_app (a k : N) :
  first_positions (a + k)
  = first_positions a ++ map (fun i => (a + N.of_nat i)%N) (seq 0 (N.to_nat k)).
Proof.
  unfold first_positions. replace (N.to_nat (a + k)) with (N.to_nat a + N.to_nat k) by lia.
  rewrite seq_app, map_app. f_equal. simpl.
  rewrite map_of_nat_seq. apply map_ext. intros i. lia.
Qed.

Lemma raw_calls_app w1 w2 : raw_calls (w1 ++ w2) = raw_calls w1 ++ raw_calls w2.
Proof. apply omap_app. Qed.

Lemma filtered_calls_app w1 w2 :
  filtered_calls (w1 ++ w2) = filtered_calls w1 ++ filtered_calls w2.
Proof. apply omap_app. Qed.

Lemma matrix_calls_app w1 w2 :
  matrix_calls (w1 ++ w2) = matrix_calls w1 ++ matrix_calls w2.
Proof. apply omap_app. Qed.

Lemma calls_on_app q w1 w2 : calls_on q (w1 ++ w2) = calls_on q w1 ++ calls_on q w2.
Proof. unfold calls_on. by rewrite raw_calls_app, List.filter_app. Qed.

Lemma positions_written_app q w1 w2 :
  positions_written q (w1 ++ w2) = positions_written q w1 ++ positions_written q w2.
Proof. unfold positions_written. by rewrite calls_on_app, map_app, concat_app. Qed.

Lemma positions_written_calls name a b k :
  positions_written WorkingChain (calls false name a b k)
  = map (fun i => (a + N.of_nat i)%N) (seq 0 (N.to_nat k)).
Proof.
  unfold positions_written, calls_on, raw_calls, subWriteContents_calls.
  destruct given_ll, given_lt; simpl; by rewrite app_nil_r.
Qed.

Lemma filtered_calls_raw name a b k : filtered_calls (calls false name a b k) = [].
Proof. unfold subWriteContents_calls. by destruct given_ll, given_lt. Qed.

Lemma raw_calls_filtered name a b k : raw_calls (calls true name a b k) = [].
Proof. unfold subWriteContents_calls. by destruct given_ll, given_lt. Qed.

Lemma matrix_calls_sequences f name a b k : matrix_calls (calls f name a b k) = [].
Proof. unfold subWriteContents_calls. by destruct given_ll, given_lt. Qed.

(** The write of the adapted matrix is not a write of a sequence. *)
Lemma adapted_matrix_write_sequences p W :
  raw_calls (adapted_matrix_write ov opts p W) = raw_calls W
  /\ filtered_calls (adapted_matrix_write ov opts p W) = filtered_calls W.
Proof.
  unfold adapted_matrix_write. destruct (am_enabled opts); [|done].
  destruct (am_schedule opts (N.to_nat p)) as [[first size] allocate].
  destruct (_ && _); [|done].
  by rewrite raw_calls_app, filtered_calls_app, !app_nil_r.
Qed.

Lemma adapted_matrix_write_calls_on q p W :
  calls_on q (adapted_matrix_write ov opts p W) = calls_on q W.
Proof. unfold calls_on. by rewrite (proj1 (adapted_matrix_write_sequences p W)). Qed.

Lemma counted_step d st :
  (d + 1 < 2 ^ 32)%N -> (m_rawChainDataOutputPeriod ov < 2 ^ 32)%N ->
  counted d st -> counted (d + 1) (count_position' d st).
Proof.
  intros Hd Hp. destruct st as [nw W]. unfold counted, count_position. simpl.
  set (period := m_rawChainDataOutputPeriod ov) in *.
  rewrite uint_add_small by lia.
  destruct (0 <? period)%N eqn:Hpos; simpl.
  2:{ intros (-> & HW & Hn). unfold uint_incr. rewrite N.mod_small by lia.
      simpl. split; [done|]. split; [|done].
      rewrite HW. f_equal. lia. }
  apply N.ltb_lt in Hpos.
  destruct (String.eqb _ _) eqn:Hname; simpl.
  { rewrite andb_false_r. intros (-> & HW & Hn). unfold uint_incr.
    rewrite N.mod_small by lia. simpl. split; [done|]. split; [|done].
    rewrite HW. f_equal. lia. }
  rewrite andb_true_r. intros (-> & HW & Hf).
  pose proof (N.mod_lt d period ltac:(lia)) as Hr.
  pose proof (N.Div0.mod_le d period) as Hle.
  rewrite succ_mod by done.
  destruct (N.eqb_spec (d mod period + 1) period) as [E|E]; simpl.
  - split; [done|]. split.
    + rewrite positions_written_app, HW, positions_written_calls.
      rewrite uint_sub_small by lia.
      replace (d + 1 - 0)%N with ((d - d mod period) + period)%N by lia.
      rewrite first_positions_app. f_equal.
      apply map_ext. intros i. lia.
    + by rewrite filtered_calls_app, Hf, filtered_calls_raw.
  - destruct (N.eqb_spec (d mod period + 1) 0) as [E0|_]; [by destruct (d mod period)%N|].
    simpl. unfold uint_incr. rewrite N.mod_small by lia.
    split; [done|]. split; [|done]. rewrite HW. f_equal. lia.
Qed.

Lemma counted_matrix d nw W p :
  counted d (nw, W) -> counted d (nw, adapted_matrix_write ov opts p W).
Proof.
  unfold counted, positions_written. simpl.
  rewrite adapted_matrix_write_calls_on.
  by rewrite (proj2 (adapted_matrix_write_sequences p W)).
Qed.

Lemma counted_loop turns d st :
  (d + N.of_nat turns < 2 ^ 32)%N -> (m_rawChainDataOutputPeriod ov < 2 ^ 32)%N ->
  counted d st ->
  counted (d + N.of_nat turns) (count_positions ov opts given_ll given_lt turns d st).
Proof.
  revert d st. induction turns as [|turns IH]; intros d st Hd Hp Hc;
    cbn [count_positions].
  - by rewrite N.add_0_r.
  - rewrite uint_add_small by lia.
    replace (d + N.of_nat (S turns))%N with (d + 1 + N.of_nat turns)%N by lia.
    pose proof (counted_step d st ltac:(lia) Hp Hc) as H1.
    destruct (count_position' d st) as [nw W].
    apply IH; [lia|done|]. by apply counted_matrix.
Qed.

Lemma counted_start : counted 0 (0%N, []).
Proof.
  unfold counted. simpl. split; [|done].
  destruct (_ && _); [|done]. by rewrite N.Div0.mod_0_l.
Qed.

Lemma generateFullChain_counted (chainSize : N) :
  (0 < chainSize < 2 ^ 32)%N -> (m_rawChainDataOutputPeriod ov < 2 ^ 32)%N ->
  counted chainSize (generateFullChain_writes ov opts given_ll given_lt false chainSize).
Proof.
  intros Hn Hp. unfold generateFullChain_writes.
  replace chainSize with (1 + N.of_nat (N.to_nat chainSize - 1))%N at 1 by lia.
  apply counted_loop; [lia|done|].
  apply (counted_step 0); [lia|done|apply counted_start].
Qed.

(** The calls of the filtered sequences at the end of [generateSequence]. *)
Lemma generateSequence_filtered_write_calls nw W :
  let st := generateSequence_filtered_write ov given_ll given_lt no_file filteredSize
              (nw, W) in
  st.1 = nw
  /\ raw_calls st.2 = raw_calls W
  /\ matrix_calls st.2 = matrix_calls W
  /\ filtered_calls st.2
     = filtered_calls W
       ++ (if m_filteredChainGenerate ov
              && negb (String.eqb (m_filteredChainDataOutputFileName ov) no_file)
              && negb (m_totallyMute ov)
           then filtered_blocks ov given_ll given_lt filteredSize else []).
Proof.
  unfold generateSequence_filtered_write.
  destruct (m_filteredChainGenerate ov); simpl; [|by rewrite app_nil_r].
  destruct (negb _ && negb _); simpl; [|by rewrite app_nil_r].
  rewrite raw_calls_app, matrix_calls_app, filtered_calls_app.
  rewrite raw_calls_filtered, matrix_calls_sequences, !app_nil_r.
  repeat split. f_equal.
  unfold subWriteContents_calls, filtered_blocks. by destruct given_ll, given_lt.
Qed.

(** X13.  On a rank that does not wait at the barrier, with a raw output
    file named and the sampler not mute, the [subWriteContents] calls on the
    raw chain, made during [generateFullChain] and in the raw block of
    [generateSequence], ask in order for the positions
    [0, ..., m_rawChainSize - 1], each exactly once, whatever the period,
    and no position is left to write.  After the filter, when the chain is
    filtered and a filtered output file is named, there is one further call
    per sequence, for all the positions of the filtered chain; otherwise
    there is none. *)
Theorem sub_writes_cover_the_chain :
  String.eqb (m_rawChainDataOutputFileName ov) "."%string = false ->
  String.eqb (m_rawChainDataOutputFileName ov) no_file = false ->
  m_totallyMute ov = false ->
  (0 < m_rawChainSize ov < 2 ^ 32)%N ->
  (m_rawChainDataOutputPeriod ov < 2 ^ 32)%N ->
  let st := generateSequence_writes ov opts given_ll given_lt no_file filteredSize
              false in
  st.1 = 0%N
  /\ positions_written WorkingChain st.2 = first_positions (m_rawChainSize ov)
  /\ filtered_calls st.2
     = (if m_filteredChainGenerate ov
           && negb (String.eqb (m_filteredChainDataOutputFileName ov) no_file)
        then filtered_blocks ov given_ll given_lt filteredSize else []).
Proof.
  intros Hname Hfile Hmute Hn Hp st. subst st. unfold generateSequence_writes.
  pose proof (generateFullChain_counted _ Hn Hp) as Hc.
  destruct (generateFullChain_writes _ _ _ _ _ _) as [nw W].
  destruct Hc as (Hnw & HW & Hf). simpl in Hnw, HW, Hf.
  assert (Hle : (nw <= m_rawChainSize ov)%N).
  { rewrite Hnw. destruct (_ && _); [apply N.Div0.mod_le|lia]. }
  assert (Hfinal : exists W',
    generateSequence_final_write ov given_ll given_lt no_file (nw, W) = (0%N, W')
    /\ positions_written WorkingChain W' = first_positions (m_rawChainSize ov)
    /\ filtered_calls W' = []).
  { unfold generateSequence_final_write. rewrite Hname, Hfile, Hmute. simpl.
    rewrite andb_true_r.
    destruct (N.ltb_spec 0 nw) as [Hpos|Hz]; simpl.
    - eexists. split; [done|]. split.
      + rewrite positions_written_app, HW, positions_written_calls.
        rewrite uint_sub_small by lia.
        rewrite <- first_positions_app. f_equal. lia.
      + by rewrite filtered_calls_app, Hf, filtered_calls_raw.
    - assert (nw = 0%N) as -> by lia. exists W. split; [done|]. split; [|done].
      rewrite HW. f_equal. lia. }
  destruct Hfinal as (W' & -> & HW' & Hf').
  pose proof (generateSequence_filtered_write_calls 0%N W') as (H1 & H2 & _ & H4).
  split; [done|]. split.
  - unfold positions_written, calls_on in *. by rewrite H2.
  - rewrite H4, Hf', Hmute, andb_true_r. done.
Qed.

Lemma succ_div (d n : N) :
  (0 < n)%N ->
  ((d + 1) / n = if ((d + 1) mod n =? 0) then d / n + 1 else d / n)%N.
Proof.
  intros Hn. pose proof (N.div_mod' d n) as Hd.
  pose proof (N.mod_lt d n ltac:(lia)) as Hr.
  rewrite succ_mod by done.
  destruct (N.eqb_spec (d mod n + 1) n) as [E|E]; simpl.
  - symmetry. apply (N.div_unique _ _ _ 0%N); [done|]. lia.
  - destruct (N.eqb_spec (d mod n + 1) 0) as [E0|_]; [by destruct (d mod n)%N|].
    symmetry. apply (N.div_unique _ _ _ (d mod n + 1)%N); lia.
Qed.

Lemma blocks_step d st :
  String.eqb (m_rawChainDataOutputFileName ov) "."%string = false ->
  (d + 1 < 2 ^ 32)%N -> (m_rawChainDataOutputPeriod ov < 2 ^ 32)%N ->
  blocks d st.2 -> blocks (d + 1) (count_position' d st).2.
Proof.
  intros Hname Hd Hp. destruct st as [nw W]. unfold blocks, count_position. simpl.
  set (period := m_rawChainDataOutputPeriod ov) in *.
  rewrite uint_add_small by lia. rewrite Hname. simpl. rewrite andb_true_r.
  destruct (N.ltb_spec 0 period) as [Hpos|Hz]; simpl.
  2:{ assert (period = 0%N) as -> by lia. by rewrite !N.div_0_r. }
  rewrite succ_div by done.
  destruct ((d + 1) mod period =? 0)%N eqn:E; simpl; [|done].
  apply N.eqb_eq in E.
  intros (Hc & Hl & Ht).
  replace (N.to_nat (d / period + 1)) with (S (N.to_nat (d / period))) by lia.
  rewrite !calls_on_app, Hc, Hl, Ht.
  rewrite seq_S, map_app. simpl.
  assert (Hstart : uint_sub (d + 1) period
                   = (N.of_nat (N.to_nat (d / period)) * period)%N).
  { pose proof (N.div_mod' (d + 1) period) as Hdm. rewrite E in Hdm.
    rewrite succ_div, E in Hdm by done. simpl in Hdm.
    rewrite N2Nat.id. clear Hc Hl Ht. generalize dependent (d / period)%N.
    intros q Hq. rewrite uint_sub_small by nia. nia. }
  unfold calls_on, raw_calls, subWriteContents_calls, chain_block, log_block.
  fold period. rewrite Hstart. change (uint_add 0 1) with 1%N.
  destruct given_ll, given_lt; simpl;
    rewrite ?app_nil_r, ?replicate_cons_app; repeat split; reflexivity.
Qed.

Lemma blocks_loop turns d st :
  String.eqb (m_rawChainDataOutputFileName ov) "."%string = false ->
  (d + N.of_nat turns < 2 ^ 32)%N -> (m_rawChainDataOutputPeriod ov < 2 ^ 32)%N ->
  blocks d st.2 ->
  blocks (d + N.of_nat turns) (count_positions ov opts given_ll given_lt turns d st).2.
Proof.
  intros Hname. revert d st.
  induction turns as [|turns IH]; intros d st Hd Hp Hc; cbn [count_positions].
  - by rewrite N.add_0_r.
  - rewrite uint_add_small by lia.
    replace (d + N.of_nat (S turns))%N with (d + 1 + N.of_nat turns)%N by lia.
    pose proof (blocks_step d st Hname ltac:(lia) Hp Hc) as H1.
    destruct (count_position' d st) as [nw W]. simpl in H1.
    apply IH; [lia|done|]. simpl. unfold blocks.
    by rewrite !adapted_matrix_write_calls_on.
Qed.

(** X14.  On a rank that does not wait at the barrier, with a raw output
    file named, [generateFullChain] calls [subWriteContents] once on each
    sequence it was passed per whole period of the chain (never when the
    period is 0): the [k]-th block of the chain starts at [k * period],
    while every block of the log-likelihood and log-target sequences starts
    at [0 + 1 - period] in [unsigned int] arithmetic, which is
    [2^32 + 1 - period] for a period of 2 or more. *)
Theorem periodic_blocks_of_the_three_sequences (chainSize : N) :
  String.eqb (m_rawChainDataOutputFileName ov) "."%string = false ->
  (0 < chainSize < 2 ^ 32)%N ->
  (m_rawChainDataOutputPeriod ov < 2 ^ 32)%N ->
  let written :=
    (generateFullChain_writes ov opts given_ll given_lt false chainSize).2 in
  let period := m_rawChainDataOutputPeriod ov in
  let fileName := m_rawChainDataOutputFileName ov in
  let n := N.to_nat (chainSize / period) in
  calls_on WorkingChain written
  = map (fun k => mkSubWrite WorkingChain (N.of_nat k * period) period fileName)
      (seq 0 n)
  /\ calls_on WorkingLogLikelihoodValues written
     = (if given_ll
        then replicate n (mkSubWrite WorkingLogLikelihoodValues (uint_sub 1 period)
                            period (String.append fileName "_likelihood"%string))
        else [])
  /\ calls_on WorkingLogTargetValues written
     = (if given_lt
        then replicate n (mkSubWrite WorkingLogTargetValues (uint_sub 1 period)
                            period (String.append fileName "_target"%string))
        else [])
  /\ ((2 <= period)%N -> uint_sub 1 period = (2 ^ 32 + 1 - period)%N).
Proof.
  intros Hname Hn Hp written period fileName n.
  assert (H : blocks chainSize written).
  { subst written. unfold generateFullChain_writes.
    replace chainSize with (1 + N.of_nat (N.to_nat chainSize - 1))%N at 1 by lia.
    apply blocks_loop; [done|lia|done|].
    apply (blocks_step 0 (0%N, [])); [done|lia|done|].
    unfold blocks. rewrite N.Div0.div_0_l. simpl. by destruct given_ll, given_lt. }
  destruct H as (Hc & Hl & Ht). split; [done|]. split; [done|]. split; [done|].
  intros H2. unfold uint_sub. fold period. rewrite (N.mod_small period) by done.
  apply N.mod_small. lia.
Qed.

(** X15.  On a rank that does not wait at the barrier, when the sampler is
    mute and the raw output file name is not ["."], the periodic
    [subWriteContents] calls on the raw chain are still made but the one for
    the remainder is not: the positions asked for are those of the whole
    periods, the positions after them (all of them when the period is 0)
    stay counted as not written, and [subWriteContents] is not called on
    the filtered sequences. *)
Theorem remainder_not_written_when_mute :
  String.eqb (m_rawChainDataOutputFileName ov) "."%string = false ->
  m_totallyMute ov = true ->
  (0 < m_rawChainSize ov < 2 ^ 32)%N ->
  (m_rawChainDataOutputPeriod ov < 2 ^ 32)%N ->
  let st := generateSequence_writes ov opts given_ll given_lt no_file filteredSize
              false in
  let period := m_rawChainDataOutputPeriod ov in
  positions_written WorkingChain st.2
  = first_positions (period * (m_rawChainSize ov / period))
  /\ st.1 = (m_rawChainSize ov - period * (m_rawChainSize ov / period))%N
  /\ filtered_calls st.2 = [].
Proof.
  intros Hname Hmute Hn Hp st period. subst st. unfold generateSequence_writes.
  pose proof (generateFullChain_counted _ Hn Hp) as Hc.
  destruct (generateFullChain_writes _ _ _ _ _ _) as [nw W].
  destruct Hc as (Hnw & HW & Hf). simpl in Hnw, HW, Hf. fold period in Hnw.
  rewrite Hname in Hnw. simpl in Hnw. rewrite andb_true_r in Hnw.
  unfold generateSequence_final_write. rewrite Hmute, andb_false_r.
  pose proof (generateSequence_filtered_write_calls nw W) as (H1 & H2 & _ & H4).
  rewrite Hmute, andb_false_r, app_nil_r in H4.
  assert (E : (m_rawChainSize ov - nw = period * (m_rawChainSize ov / period))%N).
  { rewrite Hnw. destruct (N.ltb_spec 0 period) as [Hpos|Hz].
    - pose proof (N.div_mod' (m_rawChainSize ov) period) as Hdm.
      revert Hdm. generalize (period * (m_rawChainSize ov / period))%N.
      generalize (m_rawChainSize ov mod period)%N. intros r q Hdm. lia.
    - assert (period = 0%N) as -> by lia. lia. }
  split; [|split].
  - unfold positions_written, calls_on in *. by rewrite H2, HW, E.
  - rewrite H1, <- E. assert (nw <= m_rawChainSize ov)%N; [|lia].
    rewrite Hnw. destruct (0 <? period)%N; [apply N.Div0.mod_le|lia].
  - by rewrite H4.
Qed.

Lemma count_first_position :
  String.eqb (m_rawChainDataOutputFileName ov) "."%string = false ->
  let period := m_rawChainDataOutputPeriod ov in
  count_position' 0 (0%N, [])
  = if (period =? 1)%N
    then (0%N, calls false rawName (uint_sub 1 period) (uint_sub 1 period) period)
    else (1%N, []).
Proof.
  intros Hname period. unfold count_position. fold period.
  rewrite Hname. simpl negb. rewrite andb_true_r.
  change (uint_add 0 1) with 1%N. change (uint_incr 0) with 1%N.
  assert (Hcond : (0 <? period)%N && (1 mod period =? 0)%N = (period =? 1)%N).
  { destruct (N.eqb_spec period 1) as [->|Hne]; [done|].
    destruct (N.ltb_spec 0 period) as [Hpos|Hz]; [|done]. simpl.
    rewrite N.mod_small by lia. done. }
  rewrite Hcond. by destruct (period =? 1)%N.
Qed.

(** X16.  On a rank that waits at the barrier only position 0 is counted
    and no step adapts: with a raw output file named and the sampler not
    mute, the [subWriteContents] calls on the raw chain ask for one
    position, the last, or position 0 when the period is 1; no adapted
    matrix is written; and the filtered sequences are written as on any
    rank. *)
Theorem waiting_rank_writes_one_position :
  String.eqb (m_rawChainDataOutputFileName ov) "."%string = false ->
  String.eqb (m_rawChainDataOutputFileName ov) no_file = false ->
  m_totallyMute ov = false ->
  (0 < m_rawChainSize ov < 2 ^ 32)%N ->
  (m_rawChainDataOutputPeriod ov < 2 ^ 32)%N ->
  let written :=
    (generateSequence_writes ov opts given_ll given_lt no_file filteredSize true).2 in
  positions_written WorkingChain written
  = [if (m_rawChainDataOutputPeriod ov =? 1)%N then 0%N
     else (m_rawChainSize ov - 1)%N]
  /\ matrix_calls written = []
  /\ filtered_calls written
     = (if m_filteredChainGenerate ov
           && negb (String.eqb (m_filteredChainDataOutputFileName ov) no_file)
        then filtered_blocks ov given_ll given_lt filteredSize else []).
Proof.
  intros Hname Hfile Hmute Hn Hp written. subst written.
  unfold generateSequence_writes, generateFullChain_writes.
  rewrite (count_first_position Hname).
  set (period := m_rawChainDataOutputPeriod ov) in *.
  assert (Hfinal : exists W,
    generateSequence_final_write ov given_ll given_lt no_file
      (if (period =? 1)%N
       then (0%N, calls false rawName (uint_sub 1 period) (uint_sub 1 period) period)
       else (1%N, []))
    = (0%N, W)
    /\ positions_written WorkingChain W
       = [if (period =? 1)%N then 0%N else (m_rawChainSize ov - 1)%N]
    /\ matrix_calls W = []
    /\ filtered_calls W = []).
  { unfold generateSequence_final_write.
    destruct (N.eqb_spec period 1) as [E|E].
    - rewrite Hfile, Hmute. simpl. eexists. split; [done|]. split; [|split].
      + rewrite positions_written_calls, E. done.
      + apply matrix_calls_sequences.
      + apply filtered_calls_raw.
    - rewrite Hname, Hfile, Hmute. simpl. eexists. split; [done|]. split; [|split].
      + rewrite positions_written_calls, uint_sub_small by lia.
        simpl. by rewrite N.add_0_r.
      + apply matrix_calls_sequences.
      + apply filtered_calls_raw. }
  destruct Hfinal as (W & -> & HW & HM & HF).
  pose proof (generateSequence_filtered_write_calls 0%N W) as (_ & H2 & H3 & H4).
  split; [|split].
  - unfold positions_written, calls_on in *. by rewrite H2.
  - by rewrite H3.
  - rewrite H4, HF, Hmute, andb_true_r. done.
Qed.

Lemma count_position_unnamed d st :
  String.eqb (m_rawChainDataOutputFileName ov) "."%string = true ->
  (count_position' d st).2 = st.2.
Proof.
  intros Hname. destruct st as [nw W]. unfold count_position.
  rewrite Hname. simpl. by rewrite andb_false_r.
Qed.

Lemma count_positions_unnamed turns d st :
  String.eqb (m_rawChainDataOutputFileName ov) "."%string = true ->
  raw_calls (count_positions ov opts given_ll given_lt turns d st).2 = raw_calls st.2.
Proof.
  intros Hname. revert d st.
  induction turns as [|turns IH]; intros d st; cbn [count_positions]; [done|].
  pose proof (count_position_unnamed d st Hname) as H1.
  destruct (count_position' d st) as [nw W]. simpl in H1.
  rewrite IH. simpl. by rewrite (proj1 (adapted_matrix_write_sequences d W)), H1.
Qed.

(** X17.  When the raw output file name is ["."], [subWriteContents] is
    never called on a raw sequence, neither during the chain generation nor
    in the raw block of [generateSequence], on any rank and for any period:
    the calls left are those on the adapted matrices and on the filtered
    sequences, which have their own file names. *)
Theorem no_raw_sub_write_without_output_file (waits : bool) :
  String.eqb (m_rawChainDataOutputFileName ov) "."%string = true ->
  raw_calls
    (generateSequence_writes ov opts given_ll given_lt no_file filteredSize waits).2
  = [].
Proof.
  intros Hname. unfold generateSequence_writes.
  assert (H : raw_calls (generateFullChain_writes ov opts given_ll given_lt waits
                           (m_rawChainSize ov)).2 = []).
  { unfold generateFullChain_writes. destruct waits.
    - by rewrite count_position_unnamed.
    - by rewrite count_positions_unnamed, count_position_unnamed. }
  destruct (generateFullChain_writes _ _ _ _ _ _) as [nw W]. simpl in H.
  assert (Hfinal : generateSequence_final_write ov given_ll given_lt no_file (nw, W)
                   = (nw, W)).
  { unfold generateSequence_final_write. rewrite Hname. simpl.
    rewrite andb_false_r. by destruct (_ && _). }
  rewrite Hfinal.
  pose proof (generateSequence_filtered_write_calls nw W) as (_ & H2 & _).
  by rewrite H2.
Qed.
End RawChainOutputFacts.

(** ** The further properties on concrete runs *)

Section FurtherRuns.
Import Toy.

Lemma chain_positions_in_support_witness :
  match nan_run with
  | Returns _ s' =>
      length (workingChain s') = 3
      /\ workingChain s' !! 0 = Some (Some 0%float)
      /\ forall i, i < 3 ->
           exists v, workingChain s' !! i = Some (Some v)
                     /\ contains (TargetPdf := nan_at_5) v = true
  | _ => True
  end.
Proof.
  apply (chain_positions_in_support (target := nan_at_5) (mh_options false)).
  reflexivity.
Defined.

Lemma stored_log_values_match_witness :
  match logged_run with
  | Returns _ s' =>
      (forall l, workingLogLikelihoodValues s' = Some l -> length l = 3)
      /\ (forall l, workingLogTargetValues s' = Some l -> length l = 3)
      /\ forall i v, workingChain s' !! i = Some (Some v) ->
           stored_at (workingLogLikelihoodValues s') i
             (callFunction (TargetPdf := nan_at_5) v).2
           /\ stored_at (workingLogTargetValues s') i
                (ln_conv (callFunction (TargetPdf := nan_at_5) v).1.1)
  | _ => True
  end.
Proof.
  apply (stored_log_values_match (target := nan_at_5) (mh_options false)).
  reflexivity.
Defined.

Lemma rejections_repeat_previous_position_witness :
  match nan_run with
  | Returns _ s' =>
      let rejected := rejection_ids (events s') in
      NoDup rejected
      /\ (forall i, (i ∈ rejected) -> 0 < i < 3)
      /\ numRejections (m_rawChainInfo s') = N.of_nat (length rejected)
      /\ forall i, 0 < i < 3 ->
           ((i ∈ rejected) /\ workingChain s' !! i = workingChain s' !! (i - 1))
           \/ ((i ∉ rejected)
               /\ exists c, recorded c (events s') /\ outOfTargetSupport c = false
                    /\ workingChain s' !! i = Some (Some (vecValues c)))
  | _ => True
  end.
Proof.
  apply (rejections_repeat_previous_position (target := nan_at_5) (mh_options false)).
  - reflexivity.
  - reflexivity.
Defined.

Lemma candidates_evaluated_or_counted_witness :
  match dr_run with
  | Returns _ s' =>
      let i := m_rawChainInfo s' in
      count_events (is_candidate false) (events s') = 3 - 1
      /\ N.of_nat (count_events (is_candidate true) (events s')) = numDRs i
      /\ (numTargetCalls i + numOutOfTargetSupport i + numOutOfTargetSupportInDR i
          = N.of_nat 3 + numDRs i)%N
  | _ => True
  end.
Proof.
  apply (candidates_evaluated_or_counted (target := zero_density_above_1)
           (dr_options 3 true)).
  - reflexivity.
  - reflexivity.
Defined.

Lemma barrier_rank_run_witness :
  match barrier_run with
  | Returns _ s' =>
      m_rawChainInfo s' = mkInfo 1 0 0 0 (N.of_nat (4 - 1))
      /\ length (workingChain s') = 4
      /\ workingChain s' !! 0 = Some (Some 2%float)
      /\ forall i, 0 < i < 4 ->
           workingChain s' !! i
           = Some (Some (vec_scale (VectorSpace := space) (Dbl.of_nat i) 2%float))
  | _ => True
  end.
Proof.
  apply (barrier_rank_run (env := helper_env) (target := flat) (mh_options false)).
  - reflexivity.
  - reflexivity.
  - lia.
  - reflexivity.
Defined.

Lemma kept_candidates_need_one_draw_witness : ran_out dr_run = false.
Proof.
  apply (kept_candidates_need_one_draw (target := zero_density_above_1)
           (dr_options 3 true)).
  - reflexivity.
  - lia.
Defined.

Lemma redraw_loop_never_ends_witness : stuck_run 7 = OutOfFuel.
Proof.
  unfold stuck_run.
  apply (redraw_loop_never_ends (tkg := tk_stuck) (target := flat) (mh_options false)).
  - reflexivity.
  - intros tk rng. reflexivity.
  - reflexivity.
  - reflexivity.
  - intros tk. reflexivity.
  - lia.
Defined.

Lemma seed_on_adapted_sampler_aborts_witness :
  exists s',
    adaptive_metropolis (am_options 2 2 2%float 0x1p-20%float) 2 (final am_run)
    = Aborts FirstPositionIdTooSmall s'.
Proof.
  apply (seed_on_adapted_sampler_aborts (am_options 2 2 2%float 0x1p-20%float)).
  - reflexivity.
  - reflexivity.
  - reflexivity.
  - intros i Hi. destruct i as [|[|[|i]]]; [vm_compute; by eexists..|lia].
Defined.

Lemma incremental_update_composes_witness :
  exists mean1 cov1 mean cov,
    updateAdaptedCovMatrix (space := space) [1%float] 1 3%float 0%float 1%float
    = Ok (PrimFloat.add 3 (Dbl.of_nat 1), mean1, cov1)
    /\ updateAdaptedCovMatrix (space := space) [2%float] (1 + length [1%float])
         (PrimFloat.add 3 (Dbl.of_nat 1)) mean1 cov1
       = Ok (PrimFloat.add (PrimFloat.add 3 (Dbl.of_nat 1)) (Dbl.of_nat 1), mean, cov)
    /\ updateAdaptedCovMatrix (space := space) ([1%float] ++ [2%float]) 1
         3%float 0%float 1%float
       = Ok (PrimFloat.add 3 (Dbl.of_nat (length ([1%float] ++ [2%float]))), mean, cov).
Proof.
  apply (incremental_update_composes (space := space) [1%float] [2%float] 1
           3%float 0%float 1%float).
  - reflexivity.
  - reflexivity.
  - lia.
  - simpl. lia.
  - simpl. lia.
  - simpl. lia.
Defined.

Lemma adaptation_windows_hold_stored_positions_witness :
  match am_run with
  | Returns _ s' =>
      forall positionId first partialChain,
        EvAdapt positionId first partialChain ∈ events s' ->
        positionId < 7
        /\ (exists allocate,
              am_schedule (am_options 2 2 2%float 0x1p-20%float) positionId
              = (first, length partialChain, allocate))
        /\ 0 < length partialChain
        /\ first + length partialChain <= positionId + 1
        /\ window_read (workingChain s') first partialChain
  | _ => True
  end.
Proof.
  apply (adaptation_windows_hold_stored_positions (target := flat)
           (am_options 2 2 2%float 0x1p-20%float)).
  reflexivity.
Defined.

Lemma sub_writes_cover_the_chain_witness :
  (generateSequence_writes (output_options 4 "out"%string false)
     (am_options 2 2 2%float 0x1p-20%float) true true "."%string 5 false).1 = 0%N
  /\ positions_written WorkingChain
       (generateSequence_writes (output_options 4 "out"%string false)
          (am_options 2 2 2%float 0x1p-20%float) true true "."%string 5 false).2
     = first_positions 10
  /\ filtered_calls
       (generateSequence_writes (output_options 4 "out"%string false)
          (am_options 2 2 2%float 0x1p-20%float) true true "."%string 5 false).2
     = filtered_blocks (output_options 4 "out"%string false) true true 5.
Proof.
  apply (sub_writes_cover_the_chain (output_options 4 "out"%string false)
           (am_options 2 2 2%float 0x1p-20%float) true true "."%string 5).
  - reflexivity.
  - reflexivity.
  - reflexivity.
  - simpl. lia.
  - simpl. lia.
Defined.

Lemma periodic_blocks_of_the_three_sequences_witness :
  calls_on WorkingChain
    (generateFullChain_writes (output_options 4 "out"%string false)
       (am_options 2 2 2%float 0x1p-20%float) true false false 10).2
  = map (fun k => mkSubWrite WorkingChain (N.of_nat k * 4) 4 "out"%string)
      (seq 0 (N.to_nat (10 / 4)))
  /\ calls_on WorkingLogLikelihoodValues
       (generateFullChain_writes (output_options 4 "out"%string false)
          (am_options 2 2 2%float 0x1p-20%float) true false false 10).2
     = replicate (N.to_nat (10 / 4))
         (mkSubWrite WorkingLogLikelihoodValues (uint_sub 1 4) 4
            (String.append "out"%string "_likelihood"%string))
  /\ calls_on WorkingLogTargetValues
       (generateFullChain_writes (output_options 4 "out"%string false)
          (am_options 2 2 2%float 0x1p-20%float) true false false 10).2
     = []
  /\ ((2 <= 4)%N -> uint_sub 1 4 = (2 ^ 32 + 1 - 4)%N).
Proof.
  apply (periodic_blocks_of_the_three_sequences
           (output_options 4 "out"%string false)
           (am_options 2 2 2%float 0x1p-20%float) true false 10).
  - reflexivity.
  - lia.
  - simpl. lia.
Defined.

Lemma remainder_not_written_when_mute_witness :
  positions_written WorkingChain
    (generateSequence_writes (output_options 4 "out"%string true)
       (am_options 2 2 2%float 0x1p-20%float) true true "."%string 5 false).2
  = first_positions (4 * (10 / 4))
  /\ (generateSequence_writes (output_options 4 "out"%string true)
        (am_options 2 2 2%float 0x1p-20%float) true true "."%string 5 false).1
     = (10 - 4 * (10 / 4))%N
  /\ filtered_calls
       (generateSequence_writes (output_options 4 "out"%string true)
          (am_options 2 2 2%float 0x1p-20%float) true true "."%string 5 false).2
     = [].
Proof.
  apply (remainder_not_written_when_mute (output_options 4 "out"%string true)
           (am_options 2 2 2%float 0x1p-20%float) true true "."%string 5).
  - reflexivity.
  - reflexivity.
  - simpl. lia.
  - simpl. lia.
Defined.

Lemma waiting_rank_writes_one_position_witness :
  positions_written WorkingChain
    (generateSequence_writes (output_options 4 "out"%string false)
       (am_options 2 2 2%float 0x1p-20%float) true true "."%string 5 true).2
  = [9%N]
  /\ matrix_calls
       (generateSequence_writes (output_options 4 "out"%string false)
          (am_options 2 2 2%float 0x1p-20%float) true true "."%string 5 true).2
     = []
  /\ filtered_calls
       (generateSequence_writes (output_options 4 "out"%string false)
          (am_options 2 2 2%float 0x1p-20%float) true true "."%string 5 true).2
     = filtered_blocks (output_options 4 "out"%string false) true true 5.
Proof.
  apply (waiting_rank_writes_one_position (output_options 4 "out"%string false)
           (am_options 2 2 2%float 0x1p-20%float) true true "."%string 5).
  - reflexivity.
  - reflexivity.
  - reflexivity.
  - simpl. lia.
  - simpl. lia.
Defined.

Lemma no_raw_sub_write_without_output_file_witness :
  raw_calls
    (generateSequence_writes (output_options 4 "."%string false)
       (am_options 2 2 2%float 0x1p-20%float) true true "."%string 5 false).2
  = [].
Proof.
  apply (no_raw_sub_write_without_output_file (output_options 4 "."%string false)
           (am_options 2 2 2%float 0x1p-20%float) true true "."%string 5 false).
  reflexivity.
Defined.
End FurtherRuns.
